(** * web-goo: the mesh physics library (src/mesh.js)

    A shallow embedding of the classes [Node], [Link], [AngleConstraint] and
    [Mesh], followed by the properties of the mesh that the specification
    states.

    Modelling conventions.
    - A JavaScript number is a real number: arithmetic is exact.  The one
      operation that leaves the finite numbers is a division whose divisor is
      zero (the quotient is NaN or an infinity in JavaScript); [JS.div]
      reports it as [None], and every function that divides lives in the
      option monad.  Rounding and overflow of binary64 are not part of this
      model; the module [B64] further down reads the arithmetic of the code
      on binary64 numbers, and gives the inputs at which the two part ways.
    - A node is a mutable object that links and constraints share by
      reference: a reference is a [Ref], the objects live in a [Heap], and
      [===] on nodes is equality of references.
    - The arrays [nodes], [links] and [angleConstraints] are lists. *)

From Stdlib Require Import Reals Lra Lia List Bool Arith ZArith.
From Stdlib Require Import Permutation Sorted.
From Stdlib Require Floats.
Import ListNotations.

(** ** JavaScript numbers and built-ins *)

Module JS.

Open Scope R_scope.

Definition ltb (a b : R) : bool := if Rlt_dec a b then true else false.
Definition leb (a b : R) : bool := if Rle_dec a b then true else false.
Definition gtb (a b : R) : bool := ltb b a.
Definition geb (a b : R) : bool := leb b a.

(** [a / b]; [None] when the quotient is not a finite number. *)
Definition div (a b : R) : option R :=
  if Req_dec_T b 0 then None else Some (a / b).

(** [a || b] on numbers: [0] is the falsy number. *)
Definition or (a b : R) : R := if Req_dec_T a 0 then b else a.

(** [Math.hypot(a, b)]. *)
Definition hypot (a b : R) : R := sqrt (a * a + b * b).

(** [Math.min] of four arguments. *)
Definition min4 (a b c d : R) : R := Rmin (Rmin (Rmin a b) c) d.

(** [1e-6] and [1e-10]. *)
Definition eps6 : R := / 1000000.
Definition eps10 : R := / 10000000000.

(** [opt || dflt] where [opt] is a possibly missing numeric option. *)
Definition or_default (opt : option R) (dflt : R) : R :=
  match opt with
  | Some v => or v dflt
  | None => dflt
  end.

(** [Array.prototype.sort(comparefn)]: the sort of the language is stable;
    it is modelled by insertion from the right, which places an element
    before the first one that does not compare smaller. *)
Fixpoint insert {A} (comparefn : A -> A -> R) (v : A) (l : list A) : list A :=
  match l with
  | [] => [v]
  | w :: l' => if leb (comparefn v w) 0 then v :: w :: l' else w :: insert comparefn v l'
  end.

Fixpoint sort {A} (comparefn : A -> A -> R) (l : list A) : list A :=
  match l with
  | [] => []
  | v :: l' => insert comparefn v (sort comparefn l')
  end.

(** [Array.prototype.slice(0, end)] for an integer [end]: a negative [end]
    counts from the end of the array. *)
Definition slice0 {A} (end_ : Z) (l : list A) : list A :=
  let len := Z.of_nat (length l) in
  let final := if Z.ltb end_ 0 then Z.max (len + end_) 0 else Z.min end_ len in
  firstn (Z.to_nat final) l.

End JS.

Notation "x <- e ;; k" :=
  (match e with Some x => k | None => None end)
  (at level 61, e at next level, right associativity, only parsing).

(** A reference to a node object. *)
Definition Ref := nat.

(** ** class Node *)

Module Node.

Open Scope R_scope.

Record t := mk {
  x : R; y : R;
  px : R; py : R;
  ax : R; ay : R;
  r : R; mass : R;
  pinned : bool
}.

Definition set_x (n : t) (v : R) : t :=
  mk v (y n) (px n) (py n) (ax n) (ay n) (r n) (mass n) (pinned n).
Definition set_y (n : t) (v : R) : t :=
  mk (x n) v (px n) (py n) (ax n) (ay n) (r n) (mass n) (pinned n).
Definition set_px (n : t) (v : R) : t :=
  mk (x n) (y n) v (py n) (ax n) (ay n) (r n) (mass n) (pinned n).
Definition set_py (n : t) (v : R) : t :=
  mk (x n) (y n) (px n) v (ax n) (ay n) (r n) (mass n) (pinned n).
Definition set_ax (n : t) (v : R) : t :=
  mk (x n) (y n) (px n) (py n) v (ay n) (r n) (mass n) (pinned n).
Definition set_ay (n : t) (v : R) : t :=
  mk (x n) (y n) (px n) (py n) (ax n) v (r n) (mass n) (pinned n).

(** [constructor(x, y, r, mass, pinned)] *)
Definition new (x0 y0 r0 mass0 : R) (pinned0 : bool) : t :=
  mk x0 y0 x0 y0 0 0 r0 mass0 pinned0.

(** [applyForce(fx, fy)]; on binary64 numbers: [B64.Node.applyForce]. *)
Definition applyForce (fx fy : R) (n : t) : option t :=
  qx <- JS.div fx (mass n) ;;
  let n := set_ax n (ax n + qx) in
  qy <- JS.div fy (mass n) ;;
  Some (set_ay n (ay n + qy)).

(** [integrate(dt, damping)] *)
Definition integrate (dt damping : R) (n : t) : t :=
  if pinned n then
    let n := set_px n (x n) in
    let n := set_py n (y n) in
    let n := set_ay n 0 in
    set_ax n 0
  else
    let vx := (x n - px n) * damping in
    let vy := (y n - py n) * damping in
    let newX := x n + vx + ax n * dt * dt in
    let newY := y n + vy + ay n * dt * dt in
    let n := set_px n (x n) in
    let n := set_py n (y n) in
    let n := set_x n newX in
    let n := set_y n newY in
    let n := set_ax n 0 in
    set_ay n 0.

End Node.

(** ** The heap of node objects *)

Module Heap.

Record t := mk {
  cell : Ref -> Node.t;
  next : Ref          (* the next reference [new Node] hands out *)
}.

Definition get (h : t) (i : Ref) : Node.t := cell h i.

Definition set (h : t) (i : Ref) (n : Node.t) : t :=
  mk (fun j => if Nat.eqb j i then n else cell h j) (next h).

(** Apply a method that mutates the object behind [i]. *)
Definition update (h : t) (i : Ref) (f : Node.t -> Node.t) : t :=
  set h i (f (get h i)).

(** The heap before any node is created. *)
Definition empty : t := mk (fun _ => Node.new 0 0 0 0 false) O.

Definition alloc (h : t) (n : Node.t) : Ref * t :=
  (next h, mk (fun j => if Nat.eqb j (next h) then n else cell h j) (S (next h))).

(** [for (const v of l) body(v)] over the heap. *)
Fixpoint forEach {A} (body : A -> t -> option t) (l : list A) (h : t) : option t :=
  match l with
  | [] => Some h
  | v :: l => h <- body v h ;; forEach body l h
  end.

(** [for (let i = 0; i < n; i++) body()] over the heap. *)
Fixpoint times (n : nat) (body : t -> option t) (h : t) : option t :=
  match n with
  | O => Some h
  | S n => h <- body h ;; times n body h
  end.

End Heap.

(** ** class Link *)

Module Link.

Open Scope R_scope.

Record t := mk {
  a : Ref;
  b : Ref;
  rest : R;
  stiffness : R
}.

(** [constructor(a, b, stiffness, restMultiplier)]; on binary64 numbers:
    [B64.Link.new]. *)
Definition new (h : Heap.t) (a0 b0 : Ref) (stiffness0 restMultiplier : R) : t :=
  let dx := Node.x (Heap.get h b0) - Node.x (Heap.get h a0) in
  let dy := Node.y (Heap.get h b0) - Node.y (Heap.get h a0) in
  mk a0 b0 (JS.hypot dx dy * restMultiplier) stiffness0.

(** [satisfy()]; on binary64 numbers: [B64.Link.satisfy]. *)
Definition satisfy (l : t) (h : Heap.t) : option Heap.t :=
  let ax := Node.x (Heap.get h (a l)) in
  let ay := Node.y (Heap.get h (a l)) in
  let bx := Node.x (Heap.get h (b l)) in
  let by_ := Node.y (Heap.get h (b l)) in
  let dx := bx - ax in
  let dy := by_ - ay in
  let d := JS.or (JS.hypot dx dy) JS.eps6 in
  diff <- JS.div (d - rest l) d ;;
  let factor := 0.5 * stiffness l in
  let ox := dx * diff * factor in
  let oy := dy * diff * factor in
  let h :=
    if negb (Node.pinned (Heap.get h (a l))) then
      let h := Heap.update h (a l) (fun n => Node.set_x n (Node.x n + ox)) in
      Heap.update h (a l) (fun n => Node.set_y n (Node.y n + oy))
    else h in
  let h :=
    if negb (Node.pinned (Heap.get h (b l))) then
      let h := Heap.update h (b l) (fun n => Node.set_x n (Node.x n - ox)) in
      Heap.update h (b l) (fun n => Node.set_y n (Node.y n - oy))
    else h in
  Some h.

End Link.

(** ** class AngleConstraint *)

Module AngleConstraint.

Open Scope R_scope.

Record t := mk {
  a : Ref;
  b : Ref;            (* the center node *)
  c : Ref;
  stiffness : R;
  restDistance : R
}.

(** [constructor(a, b, c, stiffness)] *)
Definition new (h : Heap.t) (a0 b0 c0 : Ref) (stiffness0 : R) : t :=
  let dx := Node.x (Heap.get h c0) - Node.x (Heap.get h a0) in
  let dy := Node.y (Heap.get h c0) - Node.y (Heap.get h a0) in
  mk a0 b0 c0 stiffness0 (JS.hypot dx dy).

(** [satisfy()] *)
Definition satisfy (k : t) (h : Heap.t) : option Heap.t :=
  let dx := Node.x (Heap.get h (c k)) - Node.x (Heap.get h (a k)) in
  let dy := Node.y (Heap.get h (c k)) - Node.y (Heap.get h (a k)) in
  let currentDist := JS.or (JS.hypot dx dy) JS.eps6 in
  diff <- JS.div (currentDist - restDistance k) currentDist ;;
  let correction := diff * stiffness k * 0.25 in
  let correctionX := dx * correction in
  let correctionY := dy * correction in
  if negb (Node.pinned (Heap.get h (a k))) && negb (Node.pinned (Heap.get h (c k))) then
    let h := Heap.update h (a k) (fun n => Node.set_x n (Node.x n + correctionX * 0.5)) in
    let h := Heap.update h (a k) (fun n => Node.set_y n (Node.y n + correctionY * 0.5)) in
    let h := Heap.update h (c k) (fun n => Node.set_x n (Node.x n - correctionX * 0.5)) in
    let h := Heap.update h (c k) (fun n => Node.set_y n (Node.y n - correctionY * 0.5)) in
    Some h
  else Some h.

End AngleConstraint.

(** ** class Mesh *)

Module Mesh.

Open Scope R_scope.

Record t := mk {
  gravity_x : R; gravity_y : R;
  damping : R;
  solverIterations : nat;
  stiffness : R;
  wallRestitution : R;
  groundRestitution : R;
  friction : R;
  bounds_width : R; bounds_height : R;
  groundY : R;
  defaultNodeRadius : R;
  defaultNodeMass : R;
  nodes : list Ref;
  links : list Link.t;
  angleConstraints : list AngleConstraint.t
}.

Definition set_nodes (m : t) (v : list Ref) : t :=
  mk (gravity_x m) (gravity_y m) (damping m) (solverIterations m) (stiffness m)
     (wallRestitution m) (groundRestitution m) (friction m)
     (bounds_width m) (bounds_height m) (groundY m)
     (defaultNodeRadius m) (defaultNodeMass m)
     v (links m) (angleConstraints m).

Definition set_links (m : t) (v : list Link.t) : t :=
  mk (gravity_x m) (gravity_y m) (damping m) (solverIterations m) (stiffness m)
     (wallRestitution m) (groundRestitution m) (friction m)
     (bounds_width m) (bounds_height m) (groundY m)
     (defaultNodeRadius m) (defaultNodeMass m)
     (nodes m) v (angleConstraints m).

Definition set_angleConstraints (m : t) (v : list AngleConstraint.t) : t :=
  mk (gravity_x m) (gravity_y m) (damping m) (solverIterations m) (stiffness m)
     (wallRestitution m) (groundRestitution m) (friction m)
     (bounds_width m) (bounds_height m) (groundY m)
     (defaultNodeRadius m) (defaultNodeMass m)
     (nodes m) (links m) v.

(** The [config] object of the constructor: a missing key is [None]. *)
Record Config := mkConfig {
  cfg_gravity : option (R * R);
  cfg_damping : option R;
  cfg_solverIterations : option nat;
  cfg_stiffness : option R;
  cfg_wallRestitution : option R;
  cfg_groundRestitution : option R;
  cfg_friction : option R;
  cfg_bounds : option (R * R);
  cfg_groundY : option R;
  cfg_defaultNodeRadius : option R;
  cfg_defaultNodeMass : option R
}.

(** [constructor(config)] *)
Definition new (config : Config) : t :=
  let gravity := match cfg_gravity config with Some g => g | None => (0, 175) end in
  let bounds := match cfg_bounds config with Some b => b | None => (800, 600) end in
  mk (fst gravity) (snd gravity)
     (JS.or_default (cfg_damping config) 0.995)
     (match cfg_solverIterations config with
      | Some O | None => 6%nat
      | Some n => n
      end)
     (JS.or_default (cfg_stiffness config) 0.25)
     (JS.or_default (cfg_wallRestitution config) 0.25)
     (JS.or_default (cfg_groundRestitution config) 0.18)
     (JS.or_default (cfg_friction config) 0.85)
     (fst bounds) (snd bounds)
     (JS.or_default (cfg_groundY config) (snd bounds - 90))
     (JS.or_default (cfg_defaultNodeRadius config) 8)
     (JS.or_default (cfg_defaultNodeMass config) 15)
     [] [] [].

(** *** Node management *)

(** The [options] object of [createNode]. *)
Record NodeOptions := mkNodeOptions {
  opt_radius : option R;
  opt_mass : option R;
  opt_pinned : option bool;
  opt_initialVelocity : option (R * R)
}.

(** [createNode(x, y, options)] *)
Definition createNode (x y : R) (options : NodeOptions) (m : t) (h : Heap.t)
  : Ref * t * Heap.t :=
  let node := Node.new x y
                (JS.or_default (opt_radius options) (defaultNodeRadius m))
                (JS.or_default (opt_mass options) (defaultNodeMass m))
                (match opt_pinned options with Some p => p | None => false end) in
  let node := match opt_initialVelocity options with
              | Some v =>
                  let node := Node.set_px node (x - fst v) in
                  Node.set_py node (y - snd v)
              | None => node
              end in
  let (ref, h) := Heap.alloc h node in
  (ref, set_nodes m (nodes m ++ [ref]), h).

(** [getNodeAt(x, y)] *)
Fixpoint getNodeAt_loop (h : Heap.t) (x y : R) (ns : list Ref) : option Ref :=
  match ns with
  | [] => None
  | node :: ns =>
      let dx := Node.x (Heap.get h node) - x in
      let dy := Node.y (Heap.get h node) - y in
      let distance := sqrt (dx * dx + dy * dy) in
      if JS.leb distance (Node.r (Heap.get h node)) then Some node
      else getNodeAt_loop h x y ns
  end.

Definition getNodeAt (x y : R) (m : t) (h : Heap.t) : option Ref :=
  getNodeAt_loop h x y (nodes m).

(** The objects [{node, distanceSquared}] of [getNearestNodes]. *)
Record Candidate := mkCandidate {
  node : Ref;
  distanceSquared : R
}.

(** [getNearestNodes(x, y, count)] *)
Definition getNearestNodes (x y : R) (count : Z) (m : t) (h : Heap.t) : list Ref :=
  let candidates :=
    JS.sort (fun a b => distanceSquared a - distanceSquared b)
      (map (fun n => mkCandidate n ((Node.x (Heap.get h n) - x) ^ 2
                                    + (Node.y (Heap.get h n) - y) ^ 2))
           (nodes m)) in
  map node (JS.slice0 count candidates).

(** *** Link management *)

(** The [options] object of [createLink]. *)
Record LinkOptions := mkLinkOptions {
  opt_stiffness : option R;
  opt_restMultiplier : option R
}.

(** [createLink(nodeA, nodeB, options)] *)
Definition createLink (nodeA nodeB : Ref) (options : LinkOptions) (m : t) (h : Heap.t)
  : Link.t * t :=
  let link := Link.new h nodeA nodeB
                (JS.or_default (opt_stiffness options) (stiffness m))
                (JS.or_default (opt_restMultiplier options) 0.95) in
  (link, set_links m (links m ++ [link])).

(** [createAngleConstraint(nodeA, nodeB, nodeC, stiffness)] *)
Definition createAngleConstraint (nodeA nodeB nodeC : Ref) (stiffness : R)
                                 (m : t) (h : Heap.t)
  : AngleConstraint.t * t :=
  let constraint := AngleConstraint.new h nodeA nodeB nodeC stiffness in
  (constraint, set_angleConstraints m (angleConstraints m ++ [constraint])).

(** [createTriangle(centerX, centerY, size)] *)
Definition createTriangle (centerX centerY size : R) (m : t) (h : Heap.t)
  : list Ref * t * Heap.t :=
  let falling := mkNodeOptions None None None (Some (0, 2)) in
  let '(nodeA, m, h) := createNode centerX centerY falling m h in
  let '(nodeB, m, h) := createNode (centerX - size * 0.9) (centerY + size) falling m h in
  let '(nodeC, m, h) := createNode (centerX + size * 0.9) (centerY + size) falling m h in
  let rigid := mkLinkOptions (Some (stiffness m)) (Some 1) in
  let m := snd (createLink nodeA nodeB rigid m h) in
  let m := snd (createLink nodeB nodeC rigid m h) in
  let m := snd (createLink nodeC nodeA rigid m h) in
  let m := snd (createAngleConstraint nodeA nodeB nodeC 0.3 m h) in
  let m := snd (createAngleConstraint nodeB nodeC nodeA 0.3 m h) in
  let m := snd (createAngleConstraint nodeC nodeA nodeB 0.3 m h) in
  ([nodeA; nodeB; nodeC], m, h).

(** The object that [_lineIntersection] returns. *)
Record Intersection := mkIntersection {
  ix : R; iy : R;
  it : R; iu : R
}.

(** [_lineIntersection(p1x, p1y, p2x, p2y, p3x, p3y, p4x, p4y)]; the inner
    [None] is [null].  On binary64 numbers: [B64.Mesh._lineIntersection]. *)
Definition _lineIntersection (p1x p1y p2x p2y p3x p3y p4x p4y : R)
  : option (option Intersection) :=
  let denom := (p1x - p2x) * (p3y - p4y) - (p1y - p2y) * (p3x - p4x) in
  if JS.ltb (Rabs denom) JS.eps10 then Some None
  else
    t <- JS.div ((p1x - p3x) * (p3y - p4y) - (p1y - p3y) * (p3x - p4x)) denom ;;
    u <- JS.div (- ((p1x - p2x) * (p1y - p3y) - (p1y - p2y) * (p1x - p3x))) denom ;;
    if JS.geb t 0 && JS.leb t 1 && JS.geb u 0 && JS.leb u 1 then
      Some (Some (mkIntersection (p1x + t * (p2x - p1x)) (p1y + t * (p2y - p1y)) t u))
    else Some None.

(** [wouldLinkCross(fromNode, toNode)]; on binary64 numbers:
    [B64.Mesh.wouldLinkCross]. *)
Fixpoint wouldLinkCross_loop (h : Heap.t) (fromNode toNode : Ref) (ls : list Link.t)
  : option bool :=
  match ls with
  | [] => Some false
  | link :: ls =>
      if Nat.eqb (Link.a link) fromNode || Nat.eqb (Link.a link) toNode
         || Nat.eqb (Link.b link) fromNode || Nat.eqb (Link.b link) toNode
      then wouldLinkCross_loop h fromNode toNode ls
      else
        intersection <-
          _lineIntersection
            (Node.x (Heap.get h fromNode)) (Node.y (Heap.get h fromNode))
            (Node.x (Heap.get h toNode)) (Node.y (Heap.get h toNode))
            (Node.x (Heap.get h (Link.a link))) (Node.y (Heap.get h (Link.a link)))
            (Node.x (Heap.get h (Link.b link))) (Node.y (Heap.get h (Link.b link))) ;;
        match intersection with
        | Some _ => Some true
        | None => wouldLinkCross_loop h fromNode toNode ls
        end
  end.

Definition wouldLinkCross (fromNode toNode : Ref) (m : t) (h : Heap.t) : option bool :=
  wouldLinkCross_loop h fromNode toNode (links m).

(** *** Cascading deletion *)

(** The loop that collects [connectedNodes]. *)
Fixpoint connectedNodes (node : Ref) (ls : list Link.t) : list Ref :=
  match ls with
  | [] => []
  | link :: ls =>
      if Nat.eqb (Link.a link) node then Link.b link :: connectedNodes node ls
      else if Nat.eqb (Link.b link) node then Link.a link :: connectedNodes node ls
      else connectedNodes node ls
  end.

(** [nodes.indexOf(node)] followed by [nodes.splice(nodeIndex, 1)]. *)
Fixpoint spliceOut (node : Ref) (ns : list Ref) : list Ref :=
  match ns with
  | [] => []
  | n :: ns => if Nat.eqb n node then ns else n :: spliceOut node ns
  end.

(** [links.filter(link => link.a === n || link.b === n).length] *)
Definition connectionCount (n : Ref) (ls : list Link.t) : nat :=
  length (filter (fun link => Nat.eqb (Link.a link) n || Nat.eqb (Link.b link) n) ls).

(** The final loop of [removeNode]; [recur] is the recursive call. *)
Fixpoint removeOrphans (recur : Ref -> t -> option t) (connected : list Ref) (m : t)
  : option t :=
  match connected with
  | [] => Some m
  | connectedNode :: connected =>
      m <- (if Nat.ltb (connectionCount connectedNode (links m)) 2
            then recur connectedNode m
            else Some m) ;;
      removeOrphans recur connected m
  end.

(** [removeNode(node)], with the depth of the recursion bounded by [fuel]. *)
Fixpoint removeNode_fuel (fuel : nat) (node : Ref) (m : t) : option t :=
  match fuel with
  | O => None
  | S fuel =>
      let connected := connectedNodes node (links m) in
      let m := set_links m
                 (filter (fun link => negb (Nat.eqb (Link.a link) node)
                                      && negb (Nat.eqb (Link.b link) node))
                         (links m)) in
      let m := set_angleConstraints m
                 (filter (fun k => negb (Nat.eqb (AngleConstraint.a k) node)
                                   && negb (Nat.eqb (AngleConstraint.b k) node)
                                   && negb (Nat.eqb (AngleConstraint.c k) node))
                         (angleConstraints m)) in
      let m := set_nodes m (spliceOut node (nodes m)) in
      removeOrphans (removeNode_fuel fuel) connected m
  end.

(** [removeNode(node)]: every recursive call has first removed a link, so the
    recursion is never deeper than the number of links plus one. *)
Definition removeNode (node : Ref) (m : t) : t :=
  match removeNode_fuel (S (length (links m))) node m with
  | Some m' => m'
  | None => m
  end.

(** *** Physics simulation *)

(** [_applyWallBounds(node)] *)
Definition _applyWallBounds (m : t) (n : Node.t) : Node.t :=
  if Node.pinned n then n
  else
    let n :=
      if JS.ltb (Node.x n) (Node.r n) then
        let n := Node.set_x n (Node.r n) in
        Node.set_px n (Node.x n + (Node.x n - Node.px n) * - wallRestitution m)
      else n in
    let n :=
      if JS.gtb (Node.x n) (bounds_width m - Node.r n) then
        let n := Node.set_x n (bounds_width m - Node.r n) in
        Node.set_px n (Node.x n + (Node.x n - Node.px n) * - wallRestitution m)
      else n in
    if JS.ltb (Node.y n) (Node.r n) then
      let n := Node.set_y n (Node.r n) in
      Node.set_py n (Node.y n + (Node.y n - Node.py n) * - wallRestitution m)
    else n.

(** [_applyGroundCollision(node)] *)
Definition _applyGroundCollision (m : t) (n : Node.t) : Node.t :=
  if Node.pinned n then n
  else
    let penetration := Node.y n - (groundY m - Node.r n) in
    if JS.gtb penetration 0 then
      let n := Node.set_y n (groundY m - Node.r n) in
      let vx := Node.x n - Node.px n in
      let vy := Node.y n - Node.py n in
      if JS.gtb vy 0 then
        let vnAfter := - vy * groundRestitution m in
        let vtAfter := vx * friction m in
        let n := Node.set_px n (Node.x n - vtAfter) in
        Node.set_py n (Node.y n - vnAfter)
      else n
    else n.

(** [_pushNodeFromPoint(node, px, py, strength)] *)
Definition _pushNodeFromPoint (node : Ref) (px py strength : R) (h : Heap.t)
  : option Heap.t :=
  if Node.pinned (Heap.get h node) then Some h
  else
    let dx := Node.x (Heap.get h node) - px in
    let dy := Node.y (Heap.get h node) - py in
    let dist := JS.or (JS.hypot dx dy) JS.eps6 in
    qx <- JS.div dx dist ;;
    let h := Heap.update h node (fun n => Node.set_x n (Node.x n + qx * strength)) in
    qy <- JS.div dy dist ;;
    Some (Heap.update h node (fun n => Node.set_y n (Node.y n + qy * strength))).

(** [_pushLinksApart(link1, link2, intersection)] *)
Definition _pushLinksApart (m : t) (link1 link2 : Link.t) (intersection : Intersection)
                           (h : Heap.t) : option Heap.t :=
  let ix := ix intersection in
  let iy := iy intersection in
  let away (node : Ref) :=
    JS.hypot (Node.x (Heap.get h node) - ix) (Node.y (Heap.get h node) - iy) in
  let minDistToNode :=
    JS.min4 (away (Link.a link1)) (away (Link.b link1))
            (away (Link.a link2)) (away (Link.b link2)) in
  if JS.gtb minDistToNode (defaultNodeRadius m) then
    let pushStrength := 0.3 in
    h <- _pushNodeFromPoint (Link.a link1) ix iy pushStrength h ;;
    h <- _pushNodeFromPoint (Link.b link1) ix iy pushStrength h ;;
    h <- _pushNodeFromPoint (Link.a link2) ix iy pushStrength h ;;
    _pushNodeFromPoint (Link.b link2) ix iy pushStrength h
  else Some h.

(** The body of the two loops of [_preventLinkCrossings]. *)
Definition preventCrossing (m : t) (link1 link2 : Link.t) (h : Heap.t) : option Heap.t :=
  if Nat.eqb (Link.a link1) (Link.a link2) || Nat.eqb (Link.a link1) (Link.b link2)
     || Nat.eqb (Link.b link1) (Link.a link2) || Nat.eqb (Link.b link1) (Link.b link2)
  then Some h
  else
    intersection <-
      _lineIntersection
        (Node.x (Heap.get h (Link.a link1))) (Node.y (Heap.get h (Link.a link1)))
        (Node.x (Heap.get h (Link.b link1))) (Node.y (Heap.get h (Link.b link1)))
        (Node.x (Heap.get h (Link.a link2))) (Node.y (Heap.get h (Link.a link2)))
        (Node.x (Heap.get h (Link.b link2))) (Node.y (Heap.get h (Link.b link2))) ;;
    match intersection with
    | Some intersection => _pushLinksApart m link1 link2 intersection h
    | None => Some h
    end.

(** [_preventLinkCrossings()]: [links[i]] against every [links[j]], [i < j]. *)
Fixpoint preventLinkCrossings_from (m : t) (ls : list Link.t) (h : Heap.t)
  : option Heap.t :=
  match ls with
  | [] => Some h
  | link1 :: ls =>
      h <- Heap.forEach (preventCrossing m link1) ls h ;;
      preventLinkCrossings_from m ls h
  end.

Definition _preventLinkCrossings (m : t) (h : Heap.t) : option Heap.t :=
  preventLinkCrossings_from m (links m) h.

(** The first loop of [step]; on binary64 numbers: [B64.Mesh.applyGravity]. *)
Definition applyGravity (m : t) (h : Heap.t) : option Heap.t :=
  Heap.forEach
    (fun node h =>
       n <- Node.applyForce (gravity_x m * Node.mass (Heap.get h node))
                            (gravity_y m * Node.mass (Heap.get h node))
                            (Heap.get h node) ;;
       Some (Heap.set h node n))
    (nodes m) h.

(** One constraint solving iteration of [step]. *)
Definition solve (m : t) (h : Heap.t) : option Heap.t :=
  h <- Heap.forEach (fun node h => Some (Heap.update h node (_applyWallBounds m)))
         (nodes m) h ;;
  h <- Heap.forEach (fun node h => Some (Heap.update h node (_applyGroundCollision m)))
         (nodes m) h ;;
  h <- _preventLinkCrossings m h ;;
  h <- Heap.forEach Link.satisfy (links m) h ;;
  h <- Heap.forEach AngleConstraint.satisfy (angleConstraints m) h ;;
  _preventLinkCrossings m h.

(** [step(deltaTime)] *)
Definition step (deltaTime : R) (m : t) (h : Heap.t) : option Heap.t :=
  h <- applyGravity m h ;;
  h <- Heap.forEach
         (fun node h => Some (Heap.update h node (Node.integrate deltaTime (damping m))))
         (nodes m) h ;;
  Heap.times (solverIterations m) (solve m) h.

(** A sequence of calls of [step], one per time step of [dts]. *)
Fixpoint steps (dts : list R) (m : t) (h : Heap.t) : option Heap.t :=
  match dts with
  | [] => Some h
  | dt :: dts => h <- step dt m h ;; steps dts m h
  end.

(** *** Public API *)

(** [setBounds(width, height)] *)
Definition setBounds (width height : R) (m : t) : t :=
  mk (gravity_x m) (gravity_y m) (damping m) (solverIterations m) (stiffness m)
     (wallRestitution m) (groundRestitution m) (friction m)
     width height (groundY m)
     (defaultNodeRadius m) (defaultNodeMass m)
     (nodes m) (links m) (angleConstraints m).

(** [setGroundY(y)] *)
Definition setGroundY (y : R) (m : t) : t :=
  mk (gravity_x m) (gravity_y m) (damping m) (solverIterations m) (stiffness m)
     (wallRestitution m) (groundRestitution m) (friction m)
     (bounds_width m) (bounds_height m) y
     (defaultNodeRadius m) (defaultNodeMass m)
     (nodes m) (links m) (angleConstraints m).

End Mesh.

(** ** The orchestrator (src/goo.js) *)

Module Goo.

Open Scope R_scope.

(** The variables of the script: the mesh and the objects it refers to, the
    mouse, and what the last frame found under it. *)
Record t := mk {
  mesh : Mesh.t;
  heap : Heap.t;
  mouse_x : R; mouse_y : R;
  isDeleteMode : bool;
  hoveredNode : option Ref
}.

Definition CURSOR_R : R := 10.

(** The script up to the main loop, for a window of [WIDTH] by [HEIGHT]. *)
Definition init (WIDTH HEIGHT : R) : t :=
  let GROUND_Y := HEIGHT - 90 in
  let mesh :=
    Mesh.new (Mesh.mkConfig (Some (0, 175)) (Some 0.995) (Some 6%nat) (Some 0.25)
                            (Some 0.25) (Some 0.18) (Some 0.85)
                            (Some (WIDTH, HEIGHT)) (Some GROUND_Y)
                            (Some 8) (Some 15)) in
  let '(_, mesh, heap) := Mesh.createTriangle (WIDTH * 0.5) (HEIGHT * 0.3) 70 mesh Heap.empty in
  mk mesh heap (WIDTH * 0.7) (HEIGHT * 0.2) false None.

(** The callback of [app.ticker]: one frame.  Rendering reads the state and
    changes none of it. *)
Definition tick (g : t) : option t :=
  let hoveredNode := Mesh.getNodeAt (mouse_x g) (mouse_y g) (mesh g) (heap g) in
  let isDeleteMode := match hoveredNode with Some _ => true | None => false end in
  heap <- Mesh.step (1 / 60) (mesh g) (heap g) ;;
  Some (mk (mesh g) heap (mouse_x g) (mouse_y g) isDeleteMode hoveredNode).

(** The listener of [pointermove], with the world position of the pointer. *)
Definition pointermove (x y : R) (g : t) : t :=
  mk (mesh g) (heap g) x y (isDeleteMode g) (hoveredNode g).

(** [handleClick()].  The object [tempCursor] is a new object, of which only
    [x] and [y] are read. *)
Definition handleClick (g : t) : option t :=
  match isDeleteMode g, hoveredNode g with
  | true, Some hovered =>
      Some (mk (Mesh.removeNode hovered (mesh g)) (heap g)
               (mouse_x g) (mouse_y g) (isDeleteMode g) (hoveredNode g))
  | _, _ =>
      match Mesh.getNearestNodes (mouse_x g) (mouse_y g) 2 (mesh g) (heap g) with
      | nearest0 :: nearest1 :: _ =>
          let (tempCursor, heap) :=
            Heap.alloc (heap g) (Node.new (mouse_x g) (mouse_y g) 0 0 false) in
          cross1 <- Mesh.wouldLinkCross tempCursor nearest0 (mesh g) heap ;;
          let canConnect1 := negb cross1 in
          cross2 <- Mesh.wouldLinkCross tempCursor nearest1 (mesh g) heap ;;
          let canConnect2 := negb cross2 in
          if negb canConnect1 || negb canConnect2 then
            Some (mk (mesh g) heap (mouse_x g) (mouse_y g) (isDeleteMode g) (hoveredNode g))
          else
            let '(newNode, mesh, heap) :=
              Mesh.createNode (mouse_x g) (mouse_y g)
                (Mesh.mkNodeOptions (Some CURSOR_R) None None (Some (0, 3)))
                (mesh g) heap in
            let strong := Mesh.mkLinkOptions (Some (Mesh.stiffness mesh * 1.5)) (Some 0.85) in
            let mesh := snd (Mesh.createLink newNode nearest0 strong mesh heap) in
            let mesh := snd (Mesh.createLink newNode nearest1 strong mesh heap) in
            let mesh := snd (Mesh.createAngleConstraint nearest0 newNode nearest1 0.5 mesh heap) in
            Some (mk mesh heap (mouse_x g) (mouse_y g) (isDeleteMode g) (hoveredNode g))
      | _ => Some g
      end
  end.

(** The listener of [resize], with the new size of the window. *)
Definition resize (newWidth newHeight : R) (g : t) : t :=
  mk (Mesh.setGroundY (newHeight - 90) (Mesh.setBounds newWidth newHeight (mesh g)))
     (heap g) (mouse_x g) (mouse_y g) (isDeleteMode g) (hoveredNode g).

End Goo.

(** * The same code on binary64 numbers

    The numbers of JavaScript are IEEE 754 binary64 numbers.  The module
    [B64] reads the lines of [Node.applyForce], [Link], [_lineIntersection]
    and [wouldLinkCross], and the gravity loop of [step], a second time, now
    with the primitive binary64 numbers of Rocq: every operation rounds to
    nearest, ties to even, and overflows to an infinity, as the operations of
    the code do, and a division by zero gives NaN or an infinity instead of
    [None].  It serves to evaluate the code where the exact arithmetic of the
    model above and the arithmetic of the code part ways. *)

Set Warnings "-inexact-float".

Module B64.

Import PrimFloat.
Local Open Scope float_scope.

(** [Math.hypot(x, y)].  ECMAScript leaves its precision to the
    implementation; this is the square root of the rounded sum of the rounded
    squares.  Below it is only applied to (0, 0), where every implementation
    gives 0, and to (x, 0) with a moderate x, where every implementation
    gives |x|. *)
Definition hypot (x y : float) : float := sqrt (x * x + y * y).

(** [v || w] on numbers: 0, -0 and NaN are falsy. *)
Definition or (v w : float) : float :=
  if ((v =? 0) || is_nan v)%bool then w else v.

(** ** class Node *)

Module Node.

Record t := mk {
  x : float; y : float;
  px : float; py : float;
  ax : float; ay : float;
  r : float; mass : float;
  pinned : bool
}.

(** [constructor(x, y, r, mass, pinned)] *)
Definition new (x0 y0 r0 mass0 : float) (pinned0 : bool) : t :=
  mk x0 y0 x0 y0 0 0 r0 mass0 pinned0.

Definition set_x (n : t) (v : float) : t :=
  mk v (y n) (px n) (py n) (ax n) (ay n) (r n) (mass n) (pinned n).
Definition set_y (n : t) (v : float) : t :=
  mk (x n) v (px n) (py n) (ax n) (ay n) (r n) (mass n) (pinned n).
Definition set_ax (n : t) (v : float) : t :=
  mk (x n) (y n) (px n) (py n) v (ay n) (r n) (mass n) (pinned n).
Definition set_ay (n : t) (v : float) : t :=
  mk (x n) (y n) (px n) (py n) (ax n) v (r n) (mass n) (pinned n).

(** [applyForce(fx, fy)] *)
Definition applyForce (fx fy : float) (n : t) : t :=
  let n := set_ax n (ax n + fx / mass n) in
  set_ay n (ay n + fy / mass n).

End Node.

(** The node objects, by reference. *)
Module Heap.

Record t := mk { cell : Ref -> Node.t }.

Definition get (h : t) (i : Ref) : Node.t := cell h i.

Definition set (h : t) (i : Ref) (n : Node.t) : t :=
  mk (fun j => if Nat.eqb j i then n else cell h j).

Definition update (h : t) (i : Ref) (f : Node.t -> Node.t) : t :=
  set h i (f (get h i)).

(** The heap that holds the nodes of a list, the first behind the reference
    0; every other reference reads as a node at the origin. *)
Definition of_list (ns : list Node.t) : t :=
  mk (fun i => nth i ns (Node.new 0 0 0 0 false)).

Fixpoint forEach {A} (body : A -> t -> t) (l : list A) (h : t) : t :=
  match l with
  | [] => h
  | v :: l => forEach body l (body v h)
  end.

End Heap.

(** ** class Link *)

Module Link.

Record t := mk {
  a : Ref;
  b : Ref;
  rest : float;
  stiffness : float
}.

(** [constructor(a, b, stiffness, restMultiplier)] *)
Definition new (h : Heap.t) (a0 b0 : Ref) (stiffness0 restMultiplier : float) : t :=
  let dx := Node.x (Heap.get h b0) - Node.x (Heap.get h a0) in
  let dy := Node.y (Heap.get h b0) - Node.y (Heap.get h a0) in
  mk a0 b0 (hypot dx dy * restMultiplier) stiffness0.

(** [satisfy()] *)
Definition satisfy (l : t) (h : Heap.t) : Heap.t :=
  let ax := Node.x (Heap.get h (a l)) in
  let ay := Node.y (Heap.get h (a l)) in
  let bx := Node.x (Heap.get h (b l)) in
  let by_ := Node.y (Heap.get h (b l)) in
  let dx := bx - ax in
  let dy := by_ - ay in
  let d := or (hypot dx dy) 1e-6 in
  let diff := (d - rest l) / d in
  let factor := 0.5 * stiffness l in
  let ox := dx * diff * factor in
  let oy := dy * diff * factor in
  let h :=
    if negb (Node.pinned (Heap.get h (a l))) then
      let h := Heap.update h (a l) (fun n => Node.set_x n (Node.x n + ox)) in
      Heap.update h (a l) (fun n => Node.set_y n (Node.y n + oy))
    else h in
  if negb (Node.pinned (Heap.get h (b l))) then
    let h := Heap.update h (b l) (fun n => Node.set_x n (Node.x n - ox)) in
    Heap.update h (b l) (fun n => Node.set_y n (Node.y n - oy))
  else h.

End Link.

(** ** class Mesh: the fields and methods that are read here *)

Module Mesh.

Record t := mk {
  gravity_x : float;
  gravity_y : float;
  nodes : list Ref;
  links : list Link.t
}.

(** The object that [_lineIntersection] returns. *)
Record Intersection := mkIntersection {
  ix : float; iy : float;
  it : float; iu : float
}.

(** [_lineIntersection(p1x, p1y, p2x, p2y, p3x, p3y, p4x, p4y)]; [None] is
    [null]. *)
Definition _lineIntersection (p1x p1y p2x p2y p3x p3y p4x p4y : float)
  : option Intersection :=
  let denom := (p1x - p2x) * (p3y - p4y) - (p1y - p2y) * (p3x - p4x) in
  if abs denom <? 1e-10 then None
  else
    let t := ((p1x - p3x) * (p3y - p4y) - (p1y - p3y) * (p3x - p4x)) / denom in
    let u := - ((p1x - p2x) * (p1y - p3y) - (p1y - p2y) * (p1x - p3x)) / denom in
    if ((0 <=? t) && (t <=? 1) && (0 <=? u) && (u <=? 1))%bool then
      Some (mkIntersection (p1x + t * (p2x - p1x)) (p1y + t * (p2y - p1y)) t u)
    else None.

(** [wouldLinkCross(fromNode, toNode)] *)
Fixpoint wouldLinkCross_loop (h : Heap.t) (fromNode toNode : Ref) (ls : list Link.t)
  : bool :=
  match ls with
  | [] => false
  | link :: ls =>
      if (Nat.eqb (Link.a link) fromNode || Nat.eqb (Link.a link) toNode
          || Nat.eqb (Link.b link) fromNode || Nat.eqb (Link.b link) toNode)%bool
      then wouldLinkCross_loop h fromNode toNode ls
      else
        match _lineIntersection
                (Node.x (Heap.get h fromNode)) (Node.y (Heap.get h fromNode))
                (Node.x (Heap.get h toNode)) (Node.y (Heap.get h toNode))
                (Node.x (Heap.get h (Link.a link))) (Node.y (Heap.get h (Link.a link)))
                (Node.x (Heap.get h (Link.b link))) (Node.y (Heap.get h (Link.b link)))
        with
        | Some _ => true
        | None => wouldLinkCross_loop h fromNode toNode ls
        end
  end.

Definition wouldLinkCross (fromNode toNode : Ref) (m : t) (h : Heap.t) : bool :=
  wouldLinkCross_loop h fromNode toNode (links m).

(** The first loop of [step]. *)
Definition applyGravity (m : t) (h : Heap.t) : Heap.t :=
  Heap.forEach
    (fun node h =>
       Heap.update h node
         (fun n => Node.applyForce (gravity_x m * Node.mass n) (gravity_y m * Node.mass n) n))
    (nodes m) h.

End Mesh.

(** ** Concrete meshes *)




(** Two free nodes at the same place (8, 8), and a link between them whose
    rest length is 9.5e302: the rest length that [createLink] records for two
    nodes 1e303 apart. *)
Definition stackedHeap : Heap.t :=
  Heap.of_list [Node.new 8 8 8 15 false; Node.new 8 8 8 15 false].






End B64.
(** * Vocabulary of the properties *)

Section Vocabulary.

Import Mesh.
Open Scope R_scope.

(** The mesh once [node], its links and its constraints are taken out:
    the body of [removeNode] up to its final loop. *)
Definition detach (node : Ref) (m : Mesh.t) : Mesh.t :=
  let m := set_links m
             (filter (fun link => negb (Nat.eqb (Link.a link) node)
                                  && negb (Nat.eqb (Link.b link) node))
                     (links m)) in
  let m := set_angleConstraints m
             (filter (fun k => negb (Nat.eqb (AngleConstraint.a k) node)
                               && negb (Nat.eqb (AngleConstraint.b k) node)
                               && negb (Nat.eqb (AngleConstraint.c k) node))
                     (angleConstraints m)) in
  set_nodes m (spliceOut node (nodes m)).

(** [touches n link]: [link] has [n] as an endpoint. *)
Definition touches (n : Ref) (link : Link.t) : bool :=
  Nat.eqb (Link.a link) n || Nat.eqb (Link.b link) n.

(** [uses n k]: the constraint [k] refers to [n]. *)
Definition uses (n : Ref) (k : AngleConstraint.t) : bool :=
  Nat.eqb (AngleConstraint.a k) n || Nat.eqb (AngleConstraint.b k) n
  || Nat.eqb (AngleConstraint.c k) n.

(** The number of links of [n] in [m]. *)
Definition linkCount (m : Mesh.t) (n : Ref) : nat := connectionCount n (links m).

(** Referential integrity: links and constraints refer to nodes of the mesh. *)
Definition closed (m : Mesh.t) : Prop :=
  (forall l, In l (links m) -> In (Link.a l) (nodes m) /\ In (Link.b l) (nodes m))
  /\ (forall k, In k (angleConstraints m) ->
       In (AngleConstraint.a k) (nodes m) /\ In (AngleConstraint.b k) (nodes m)
       /\ In (AngleConstraint.c k) (nodes m)).

(** *** A concrete mesh: the triangle the demo starts from *)

Definition noConfig : Config :=
  mkConfig None None None None None None None None None None None.

Definition triangleWorld : list Ref * Mesh.t * Heap.t :=
  createTriangle 400 180 70 (Mesh.new noConfig) Heap.empty.

Definition triangle : Mesh.t := snd (fst triangleWorld).
Definition triangleHeap : Heap.t := snd triangleWorld.

(** *** A second concrete mesh: four nodes, every pair linked *)

Definition tetra : Mesh.t :=
  let m := set_nodes (Mesh.new noConfig) [0; 1; 2; 3]%nat in
  let link (a b : nat) := Link.mk a b 100 1 in
  let m := set_links m [link 0 1; link 0 2; link 0 3;
                        link 1 2; link 1 3; link 2 3]%nat in
  set_angleConstraints m [AngleConstraint.mk 1%nat 0%nat 2%nat 0.5 100;
                          AngleConstraint.mk 1%nat 2%nat 3%nat 0.5 100].

(** *** What a removal may do to a mesh *)

(** A removal only takes links, constraints and nodes away. *)
Definition shrinks (m m' : Mesh.t) : Prop :=
  incl (links m') (links m)
  /\ incl (angleConstraints m') (angleConstraints m)
  /\ incl (nodes m') (nodes m)
  /\ (NoDup (nodes m) -> NoDup (nodes m')).

(** A node that remains has the links it had, or at least two. *)
Definition settled (m m' : Mesh.t) : Prop :=
  forall v, In v (nodes m') -> linkCount m' v = linkCount m v \/ (2 <= linkCount m' v)%nat.

(** [has ns n]: the node [n] is in the array [ns]. *)
Definition has (ns : list Ref) (n : Ref) : bool := existsb (Nat.eqb n) ns.

(** Both endpoints of the link are nodes of [m]. *)
Definition linkAlive (m : Mesh.t) (l : Link.t) : bool :=
  has (nodes m) (Link.a l) && has (nodes m) (Link.b l).

(** The three nodes of the constraint are nodes of [m]. *)
Definition constraintAlive (m : Mesh.t) (k : AngleConstraint.t) : bool :=
  has (nodes m) (AngleConstraint.a k) && has (nodes m) (AngleConstraint.b k)
  && has (nodes m) (AngleConstraint.c k).

(** The parameters of the mesh, its arrays apart. *)
Definition parameters (m : Mesh.t) : list R * nat :=
  ([gravity_x m; gravity_y m; damping m; stiffness m; wallRestitution m;
    groundRestitution m; friction m; bounds_width m; bounds_height m; groundY m;
    defaultNodeRadius m; defaultNodeMass m],
   solverIterations m).

(** What a removal keeps: the links and constraints of [m] whose nodes are
    all nodes of [m'], in their order, and the parameters. *)
Definition keepsAlive (m m' : Mesh.t) : Prop :=
  closed m -> NoDup (nodes m) ->
  closed m' /\ NoDup (nodes m')
  /\ incl (nodes m') (nodes m)
  /\ links m' = filter (linkAlive m') (links m)
  /\ angleConstraints m' = filter (constraintAlive m') (angleConstraints m)
  /\ parameters m' = parameters m.

(** *** What an operation may do to a node *)

(** The constraint solver leaves a pinned node as it is. *)
Definition solved (n n' : Node.t) : Prop :=
  Node.mass n' = Node.mass n
  /\ Node.pinned n' = Node.pinned n
  /\ (Node.pinned n = true -> n' = n).

(** A step keeps a pinned node in place; its previous position is kept or
    becomes its position. *)
Definition stepped (n n' : Node.t) : Prop :=
  Node.mass n' = Node.mass n
  /\ Node.pinned n' = Node.pinned n
  /\ (Node.pinned n = true ->
      Node.x n' = Node.x n /\ Node.y n' = Node.y n
      /\ ((Node.px n' = Node.px n /\ Node.py n' = Node.py n)
          \/ (Node.px n' = Node.x n /\ Node.py n' = Node.y n))).

(** The constraint solver changes positions only: the mass, the radius, the
    flag and the accumulated acceleration of a node stay. *)
Definition reshaped (n n' : Node.t) : Prop :=
  Node.mass n' = Node.mass n /\ Node.r n' = Node.r n
  /\ Node.pinned n' = Node.pinned n
  /\ Node.ax n' = Node.ax n /\ Node.ay n' = Node.ay n.

(** A step changes neither the mass, nor the radius, nor the flag of a node. *)
Definition sameBody (n n' : Node.t) : Prop :=
  Node.mass n' = Node.mass n /\ Node.r n' = Node.r n
  /\ Node.pinned n' = Node.pinned n.

(** [f] changes neither the mass nor the flag of a node. *)
Definition keepsBody (f : Node.t -> Node.t) : Prop :=
  forall n, Node.mass (f n) = Node.mass n /\ Node.pinned (f n) = Node.pinned n.

(** A relation on nodes, at every reference of two heaps. *)
Definition pointwise (Rn : Node.t -> Node.t -> Prop) (h h' : Heap.t) : Prop :=
  forall i, Rn (Heap.get h i) (Heap.get h' i).

(** Every node of the mesh has a mass that is not zero. *)
Definition massive (m : Mesh.t) (h : Heap.t) : Prop :=
  forall n, In n (nodes m) -> Node.mass (Heap.get h n) <> 0.

(** *** Geometry of a link and of a constraint *)





(** *** A node that nothing holds *)

(** [i] is no endpoint of a link and no outer node of an angle constraint. *)
Definition unattached (m : Mesh.t) (i : Ref) : Prop :=
  (forall l, In l (links m) -> Link.a l <> i /\ Link.b l <> i)
  /\ (forall k, In k (angleConstraints m) ->
       AngleConstraint.a k <> i /\ AngleConstraint.c k <> i).

(** The node [n] after one step in which only gravity, the integration, the
    walls and the ground act on it: the force of gravity applied by
    [applyForce], one [integrate], and the walls then the ground once per
    solver iteration. *)
Definition freeFlight (m : Mesh.t) (deltaTime : R) (n : Node.t) : option Node.t :=
  n <- Node.applyForce (gravity_x m * Node.mass n) (gravity_y m * Node.mass n) n ;;
  Some (Nat.iter (solverIterations m)
          (fun n => _applyGroundCollision m (_applyWallBounds m n))
          (Node.integrate deltaTime (damping m) n)).

(** *** Hit testing *)

(** The disc of the node [n] contains the point (x, y), border included. *)
Definition covers (h : Heap.t) (x y : R) (n : Ref) : Prop :=
  sqrt ((Node.x (Heap.get h n) - x) * (Node.x (Heap.get h n) - x)
        + (Node.y (Heap.get h n) - y) * (Node.y (Heap.get h n) - y))
  <= Node.r (Heap.get h n).

(** *** Segments that cross *)

(** The test of [_lineIntersection], with the two quotients taken in the real
    numbers: the segment (p1, p2) meets the segment (p3, p4). *)
Definition crosses (p1x p1y p2x p2y p3x p3y p4x p4y : R) : bool :=
  let denom := (p1x - p2x) * (p3y - p4y) - (p1y - p2y) * (p3x - p4x) in
  if JS.ltb (Rabs denom) JS.eps10 then false
  else
    let t := ((p1x - p3x) * (p3y - p4y) - (p1y - p3y) * (p3x - p4x)) / denom in
    let u := - ((p1x - p2x) * (p1y - p3y) - (p1y - p2y) * (p1x - p3x)) / denom in
    JS.geb t 0 && JS.leb t 1 && JS.geb u 0 && JS.leb u 1.

(** *** Distances to a point *)

(** [a] has the key [d]. *)
Definition hasKey {A} (key : A -> R) (d : R) (a : A) : bool :=
  if Req_dec_T (key a) d then true else false.

(** The squared distance from the node [n] to the point (x, y). *)
Definition distanceSquaredTo (h : Heap.t) (x y : R) (n : Ref) : R :=
  (Node.x (Heap.get h n) - x) ^ 2 + (Node.y (Heap.get h n) - y) ^ 2.

(** [n] is at the squared distance [d] of (x, y). *)
Definition atDistance (h : Heap.t) (x y d : R) (n : Ref) : bool :=
  hasKey (distanceSquaredTo h x y) d n.

(** *** A concrete mesh: one pinned node created with an initial velocity *)

Definition pinnedWorld : Ref * Mesh.t * Heap.t :=
  createNode 100 100 (mkNodeOptions None None (Some true) (Some (0, 2)))
             (Mesh.new noConfig) Heap.empty.

Definition pinnedMesh : Mesh.t := snd (fst pinnedWorld).
Definition pinnedHeap : Heap.t := snd pinnedWorld.

(** *** Two free nodes 200 apart, and two free nodes at the same place *)

Definition twoNodes (bx by_ : R) : Ref * Ref * Mesh.t * Heap.t :=
  let free := mkNodeOptions None None None None in
  let '(a, m, h) := createNode 0 0 free (Mesh.new noConfig) Heap.empty in
  let '(b, m, h) := createNode bx by_ free m h in
  (a, b, m, h).

Definition apartHeap : Heap.t := snd (twoNodes 200 0).
Definition stackedHeap : Heap.t := snd (twoNodes 0 0).



(** The heap operations of a step allocate nothing. *)
Definition sameNext (h h' : Heap.t) : Prop := Heap.next h' = Heap.next h.

(** *** The states of a mesh *)

(** The invariant of the mesh and its heap: the nodes are distinct objects
    that were allocated, and no mass is zero. *)
Definition wellFormed (m : Mesh.t) (h : Heap.t) : Prop :=
  NoDup (nodes m)
  /\ (forall n, In n (nodes m) -> (n < Heap.next h)%nat)
  /\ massive m h
  /\ defaultNodeMass m <> 0.

(** The states that the operations of the mesh lead to from a new mesh. *)
Inductive reachable : Mesh.t -> Heap.t -> Prop :=
| reach_new config :
    reachable (Mesh.new config) Heap.empty
| reach_createNode x y options m h :
    reachable m h ->
    reachable (snd (fst (createNode x y options m h))) (snd (createNode x y options m h))
| reach_createLink nodeA nodeB options m h :
    reachable m h ->
    reachable (snd (createLink nodeA nodeB options m h)) h
| reach_createAngleConstraint nodeA nodeB nodeC stiffness m h :
    reachable m h ->
    reachable (snd (createAngleConstraint nodeA nodeB nodeC stiffness m h)) h
| reach_removeNode node m h :
    reachable m h ->
    reachable (removeNode node m) h
| reach_step deltaTime m h h' :
    reachable m h ->
    step deltaTime m h = Some h' ->
    reachable m h'.

(** *** The structure that the application keeps *)

(** The mesh is well formed, its links and constraints refer to its nodes, and
    every node has at least two links. *)
Definition sound (m : Mesh.t) (h : Heap.t) : Prop :=
  wellFormed m h
  /\ closed m
  /\ forall v, In v (nodes m) -> (2 <= linkCount m v)%nat.

(** *** Segments that meet *)

(** The segment between [fromNode] and [toNode] meets the segment of [link],
    at the positions in [h]. *)
Definition segmentCrosses (h : Heap.t) (fromNode toNode : Ref) (link : Link.t) : bool :=
  crosses (Node.x (Heap.get h fromNode)) (Node.y (Heap.get h fromNode))
          (Node.x (Heap.get h toNode)) (Node.y (Heap.get h toNode))
          (Node.x (Heap.get h (Link.a link))) (Node.y (Heap.get h (Link.a link)))
          (Node.x (Heap.get h (Link.b link))) (Node.y (Heap.get h (Link.b link))).

(** Two links have an endpoint in common. *)
Definition adjacent (link1 link2 : Link.t) : bool :=
  touches (Link.a link1) link2 || touches (Link.b link1) link2.




(** The states of the application in a window of [WIDTH] by [HEIGHT]: what
    frames, pointer moves, clicks and resizes lead to. *)
Inductive running (WIDTH HEIGHT : R) : Goo.t -> Prop :=
| run_init :
    running WIDTH HEIGHT (Goo.init WIDTH HEIGHT)
| run_tick g g' :
    running WIDTH HEIGHT g -> Goo.tick g = Some g' -> running WIDTH HEIGHT g'
| run_pointermove x y g :
    running WIDTH HEIGHT g -> running WIDTH HEIGHT (Goo.pointermove x y g)
| run_click g g' :
    running WIDTH HEIGHT g -> Goo.handleClick g = Some g' -> running WIDTH HEIGHT g'
| run_resize newWidth newHeight g :
    running WIDTH HEIGHT g -> running WIDTH HEIGHT (Goo.resize newWidth newHeight g).

(** *** A concrete mesh: a square with one diagonal *)

(** The nodes 0 at (0, 0), 1 at (10, 10), 2 at (0, 10) and 3 at (10, 0), and
    the link from 0 to 1. *)
Definition squareWorld : Mesh.t * Heap.t :=
  let free := mkNodeOptions None None None None in
  let '(n0, m, h) := createNode 0 0 free (Mesh.new noConfig) Heap.empty in
  let '(n1, m, h) := createNode 10 10 free m h in
  let '(n2, m, h) := createNode 0 10 free m h in
  let '(n3, m, h) := createNode 10 0 free m h in
  let m := snd (createLink n0 n1 (mkLinkOptions None None) m h) in
  (m, h).

Definition squareMesh : Mesh.t := fst squareWorld.
Definition squareHeap : Heap.t := snd squareWorld.

(** *** A concrete mesh: the triangle and a free node that nothing holds *)

(** The triangle of the demo, and a fourth node at (100, 100) with no link. *)
Definition looseWorld : Ref * Mesh.t * Heap.t :=
  createNode 100 100 (mkNodeOptions None None None None) triangle triangleHeap.

Definition looseMesh : Mesh.t := snd (fst looseWorld).
Definition looseHeap : Heap.t := snd looseWorld.

(** *** A concrete mesh: two links that do not meet *)

(** The nodes 0 at (0, 0), 1 at (10, 0), 2 at (0, 10) and 3 at (10, 30), the
    link from 0 to 1 and the link from 2 to 3: the lines of the two links
    meet at (-5, 0), outside both links. *)
Definition railsWorld : Mesh.t * Heap.t :=
  let free := mkNodeOptions None None None None in
  let '(n0, m, h) := createNode 0 0 free (Mesh.new noConfig) Heap.empty in
  let '(n1, m, h) := createNode 10 0 free m h in
  let '(n2, m, h) := createNode 0 10 free m h in
  let '(n3, m, h) := createNode 10 30 free m h in
  let m := snd (createLink n0 n1 (mkLinkOptions None None) m h) in
  let m := snd (createLink n2 n3 (mkLinkOptions None None) m h) in
  (m, h).

Definition railsMesh : Mesh.t := fst railsWorld.
Definition railsHeap : Heap.t := snd railsWorld.

End Vocabulary.

(** * Properties *)

(** ** Cascading deletion: [Mesh.removeNode] *)

Section RemoveNode.

Import Mesh.

Lemma removeNode_fuel_S fuel node m :
  removeNode_fuel (S fuel) node m
  = removeOrphans (removeNode_fuel fuel) (connectedNodes node (links m)) (detach node m).
Proof. reflexivity. Qed.

Lemma detach_links node m :
  links (detach node m) = filter (fun link => negb (touches node link)) (links m).
Proof.
  unfold detach, touches; simpl.
  apply filter_ext; intro l. now rewrite negb_orb.
Qed.

Lemma detach_nodes node m : nodes (detach node m) = spliceOut node (nodes m).
Proof. reflexivity. Qed.

Lemma connectionCount_filter n ls :
  connectionCount n ls = length (filter (touches n) ls).
Proof. reflexivity. Qed.

(** *** Facts on [spliceOut] *)

Lemma spliceOut_In n x ns : In x (spliceOut n ns) -> In x ns.
Proof.
  induction ns as [|y ns IH]; simpl; [easy|].
  destruct (Nat.eqb y n); simpl; intuition.
Qed.

Lemma spliceOut_keeps n x ns : x <> n -> In x ns -> In x (spliceOut n ns).
Proof.
  intros Hx. induction ns as [|y ns IH]; simpl; [easy|].
  destruct (Nat.eqb_spec y n) as [->|Hy]; simpl; intuition congruence.
Qed.

Lemma spliceOut_NoDup n ns : NoDup ns -> NoDup (spliceOut n ns).
Proof.
  induction 1 as [|y ns Hy Hns IH]; simpl; [constructor|].
  destruct (Nat.eqb y n); [assumption|].
  constructor; [|assumption]. intro H; apply Hy. eapply spliceOut_In; eassumption.
Qed.

Lemma spliceOut_gone n ns : NoDup ns -> ~ In n (spliceOut n ns).
Proof.
  induction 1 as [|y ns Hy Hns IH]; simpl; [easy|].
  destruct (Nat.eqb_spec y n) as [->|Hne]; [assumption|].
  simpl; intuition.
Qed.

Lemma spliceOut_absent n ns : ~ In n ns -> spliceOut n ns = ns.
Proof.
  induction ns as [|y ns IH]; simpl; [easy|].
  intros H. destruct (Nat.eqb_spec y n) as [->|Hne]; [tauto|].
  f_equal. apply IH. tauto.
Qed.

(** *** Facts on [connectedNodes] and the link filter *)

Lemma connectedNodes_length node ls :
  (length (connectedNodes node ls)
   + length (filter (fun link => negb (touches node link)) ls) = length ls)%nat.
Proof.
  induction ls as [|l ls IH]; simpl; [reflexivity|].
  unfold touches at 1.
  destruct (Nat.eqb (Link.a l) node); simpl; [lia|].
  destruct (Nat.eqb (Link.b l) node); simpl; lia.
Qed.

Lemma connectedNodes_none node ls :
  (forall l, In l ls -> touches node l = false) -> connectedNodes node ls = [].
Proof.
  induction ls as [|l ls IH]; simpl; [reflexivity|].
  intros H. pose proof (H l (or_introl eq_refl)) as Hl.
  unfold touches in Hl. apply orb_false_elim in Hl as [-> ->].
  apply IH. intros; apply H; now right.
Qed.

Lemma filter_id {A} (f : A -> bool) ls :
  (forall l, In l ls -> f l = true) -> filter f ls = ls.
Proof.
  induction ls as [|l ls IH]; simpl; [reflexivity|].
  intros H. rewrite (H l (or_introl eq_refl)). f_equal. apply IH. intros; apply H; now right.
Qed.


Lemma filter_length_le {A} (f : A -> bool) ls : (length (filter f ls) <= length ls)%nat.
Proof.
  induction ls as [|l ls IH]; simpl; [lia|]. destruct (f l); simpl; lia.
Qed.

(** A link of a node that is neither [node] nor one of its neighbours
    survives the removal of the links of [node]. *)
Lemma connectionCount_detach node v ls :
  v <> node -> ~ In v (connectedNodes node ls) ->
  connectionCount v (filter (fun link => negb (touches node link)) ls)
  = connectionCount v ls.
Proof.
  intros Hv. unfold connectionCount.
  induction ls as [|l ls IH]; simpl; [reflexivity|].
  unfold touches at 1 3.
  destruct (Nat.eqb_spec (Link.a l) node) as [Ha|Ha]; simpl.
  - intros Hin.
    destruct (Nat.eqb_spec (Link.a l) v) as [Hav|_]; [congruence|].
    destruct (Nat.eqb_spec (Link.b l) v) as [Hbv|_]; [tauto|].
    simpl. apply IH. tauto.
  - destruct (Nat.eqb_spec (Link.b l) node) as [Hb|Hb]; simpl.
    + intros Hin.
      destruct (Nat.eqb_spec (Link.a l) v) as [Hav|_]; [tauto|].
      destruct (Nat.eqb_spec (Link.b l) v) as [Hbv|_]; [congruence|].
      simpl. apply IH. tauto.
    + intros Hin.
      destruct (Nat.eqb (Link.a l) v || Nat.eqb (Link.b l) v); simpl;
        rewrite (IH Hin); reflexivity.
Qed.

(** *** The recursion ends: enough fuel gives a result *)

Lemma removeOrphans_enough fuel :
  (forall node m, (length (links m) < fuel)%nat ->
     exists m', removeNode_fuel fuel node m = Some m'
                /\ (length (links m') <= length (links m))%nat) ->
  forall connected m, (length (links m) < fuel)%nat ->
    exists m', removeOrphans (removeNode_fuel fuel) connected m = Some m'
               /\ (length (links m') <= length (links m))%nat.
Proof.
  intros IH connected.
  induction connected as [|c cs IHcs]; intros m Hm; simpl.
  - exists m; split; [reflexivity|lia].
  - destruct (Nat.ltb (connectionCount c (links m)) 2).
    + destruct (IH c m Hm) as (m1 & -> & Hle).
      destruct (IHcs m1 ltac:(lia)) as (m2 & -> & Hle2).
      exists m2; split; [reflexivity|lia].
    + destruct (IHcs m Hm) as (m2 & -> & Hle2).
      exists m2; split; [reflexivity|lia].
Qed.

Lemma removeNode_fuel_enough fuel :
  forall node m, (length (links m) < fuel)%nat ->
    exists m', removeNode_fuel fuel node m = Some m'
               /\ (length (links m') <= length (links m))%nat.
Proof.
  induction fuel as [|fuel IH]; intros node m Hm; [lia|].
  rewrite removeNode_fuel_S.
  pose proof (connectedNodes_length node (links m)) as Hlen.
  pose proof (detach_links node m) as Hd.
  destruct (connectedNodes node (links m)) as [|c cs] eqn:Hc.
  - simpl. exists (detach node m); split; [reflexivity|].
    rewrite Hd. apply filter_length_le.
  - assert (Hlt : (length (links (detach node m)) < fuel)%nat).
    { rewrite Hd. simpl in Hlen. lia. }
    destruct (removeOrphans_enough _ IH (c :: cs) (detach node m) Hlt) as (m' & Hm' & Hle).
    exists m'; split; [assumption|]. rewrite Hd in Hle. simpl in Hlen. lia.
Qed.

Lemma removeNode_run node m :
  removeNode_fuel (S (length (links m))) node m = Some (removeNode node m).
Proof.
  unfold removeNode.
  destruct (removeNode_fuel_enough _ node m (Nat.lt_succ_diag_r _)) as (m' & -> & _).
  reflexivity.
Qed.

(** More fuel does not change the result. *)
Lemma removeOrphans_more (recur recur' : Ref -> Mesh.t -> option Mesh.t) :
  (forall node m m', recur node m = Some m' -> recur' node m = Some m') ->
  forall connected m m',
    removeOrphans recur connected m = Some m' ->
    removeOrphans recur' connected m = Some m'.
Proof.
  intros Hrec connected.
  induction connected as [|c cs IH]; intros m m'; simpl; [easy|].
  destruct (Nat.ltb (connectionCount c (links m)) 2); [|apply IH].
  destruct (recur c m) as [m1|] eqn:E; [|discriminate].
  rewrite (Hrec _ _ _ E). apply IH.
Qed.

Lemma removeNode_fuel_more fuel :
  forall node m m',
    removeNode_fuel fuel node m = Some m' ->
    removeNode_fuel (S fuel) node m = Some m'.
Proof.
  induction fuel as [|fuel IH]; intros node m m'; [discriminate|].
  rewrite !removeNode_fuel_S. apply removeOrphans_more. exact IH.
Qed.

(** *** A proof principle: [removeNode] is a sequence of [detach] steps *)

Section Preorder.

Variable P : Mesh.t -> Mesh.t -> Prop.
Hypothesis P_refl : forall m, P m m.
Hypothesis P_trans : forall m1 m2 m3, P m1 m2 -> P m2 m3 -> P m1 m3.
Hypothesis P_detach : forall node m, P m (detach node m).

Lemma removeOrphans_preorder (recur : Ref -> Mesh.t -> option Mesh.t) :
  (forall node m m', recur node m = Some m' -> P m m') ->
  forall connected m m', removeOrphans recur connected m = Some m' -> P m m'.
Proof.
  intros Hrec connected.
  induction connected as [|c cs IH]; intros m m'; simpl.
  - intros [= <-]. apply P_refl.
  - destruct (Nat.ltb (connectionCount c (links m)) 2).
    + destruct (recur c m) as [m1|] eqn:Hm1; [|discriminate].
      intros H. eapply P_trans; [eapply Hrec; eassumption|eapply IH; eassumption].
    + apply IH.
Qed.

Lemma removeNode_fuel_preorder fuel :
  forall node m m', removeNode_fuel fuel node m = Some m' -> P m m'.
Proof.
  induction fuel as [|fuel IH]; intros node m m'; [discriminate|].
  rewrite removeNode_fuel_S. intros H.
  eapply P_trans; [apply P_detach|].
  eapply removeOrphans_preorder; eassumption.
Qed.

Lemma removeNode_preorder node m : P m (removeNode node m).
Proof. eapply removeNode_fuel_preorder. apply removeNode_run. Qed.

End Preorder.


(** *** What a removal can only shrink *)

Lemma shrinks_refl m : shrinks m m.
Proof. unfold shrinks; auto using incl_refl. Qed.

Lemma shrinks_trans m1 m2 m3 : shrinks m1 m2 -> shrinks m2 m3 -> shrinks m1 m3.
Proof.
  unfold shrinks. intros (L1 & K1 & N1 & D1) (L2 & K2 & N2 & D2).
  repeat split; eauto using incl_tran.
Qed.

Lemma shrinks_detach node m : shrinks m (detach node m).
Proof.
  unfold shrinks, detach; simpl. repeat split.
  - intros l Hl. apply filter_In in Hl. tauto.
  - intros k Hk. apply filter_In in Hk. tauto.
  - intros v Hv. eapply spliceOut_In; eassumption.
  - apply spliceOut_NoDup.
Qed.

Lemma removeNode_fuel_shrinks fuel node m m' :
  removeNode_fuel fuel node m = Some m' -> shrinks m m'.
Proof.
  apply removeNode_fuel_preorder;
    auto using shrinks_refl, shrinks_detach; apply shrinks_trans.
Qed.

Lemma removeOrphans_shrinks fuel connected m m' :
  removeOrphans (removeNode_fuel fuel) connected m = Some m' -> shrinks m m'.
Proof.
  apply removeOrphans_preorder;
    auto using shrinks_refl; [apply shrinks_trans|].
  intros; eapply removeNode_fuel_shrinks; eassumption.
Qed.

(** After the removal, nothing refers to the removed node. *)
Lemma removeNode_fuel_forgets fuel node m m' :
  removeNode_fuel fuel node m = Some m' ->
  (forall l, In l (links m') -> touches node l = false)
  /\ (forall k, In k (angleConstraints m') -> uses node k = false)
  /\ (NoDup (nodes m) -> ~ In node (nodes m')).
Proof.
  destruct fuel as [|fuel]; [discriminate|].
  rewrite removeNode_fuel_S. intros H.
  apply removeOrphans_shrinks in H. destruct H as (L & K & N & _).
  repeat split.
  - intros l Hl. apply L in Hl. rewrite detach_links in Hl.
    apply filter_In in Hl. now apply negb_true_iff.
  - intros k Hk. apply K in Hk. unfold detach in Hk; simpl in Hk.
    apply filter_In in Hk. destruct Hk as [_ Hk]. unfold uses.
    rewrite <- !negb_orb in Hk. now apply negb_true_iff.
  - intros Hnd Hin. apply N in Hin. rewrite detach_nodes in Hin.
    revert Hin. now apply spliceOut_gone.
Qed.

(** *** The count of links of the nodes that remain *)

Lemma settled_trans m1 m2 m3 :
  shrinks m2 m3 -> settled m1 m2 -> settled m2 m3 -> settled m1 m3.
Proof.
  intros (_ & _ & N & _) H12 H23 v Hv.
  destruct (H23 v Hv) as [E|?]; [|now right].
  rewrite E. apply H12, N, Hv.
Qed.

Lemma removeOrphans_settled fuel :
  (forall node m m', NoDup (nodes m) -> removeNode_fuel fuel node m = Some m' ->
                     settled m m') ->
  forall connected m m', NoDup (nodes m) ->
    removeOrphans (removeNode_fuel fuel) connected m = Some m' ->
    settled m m'
    /\ (forall c, In c connected -> In c (nodes m') -> (2 <= linkCount m' c)%nat).
Proof.
  intros IH connected.
  induction connected as [|c cs IHcs]; intros m m' Hnd; simpl.
  - intros [= <-]. split; [intros v _; now left|easy].
  - destruct (Nat.ltb_spec (connectionCount c (links m)) 2) as [Hlt|Hge].
    + destruct (removeNode_fuel fuel c m) as [m1|] eqn:Hm1; [|discriminate].
      intros Hrest.
      pose proof (removeNode_fuel_shrinks _ _ _ _ Hm1) as S1.
      pose proof (removeOrphans_shrinks _ _ _ _ Hrest) as S2.
      assert (Hnd1 : NoDup (nodes m1)) by (apply S1, Hnd).
      destruct (IHcs m1 m' Hnd1 Hrest) as [Q2 C2].
      split.
      * eapply settled_trans; eauto.
      * intros c' [<-|Hc'] Hin; [|now apply C2].
        exfalso. destruct (removeNode_fuel_forgets _ _ _ _ Hm1) as (_ & _ & Hgone).
        apply (Hgone Hnd). destruct S2 as (_ & _ & N & _). now apply N.
    + intros Hrest.
      destruct (IHcs m m' Hnd Hrest) as [Q2 C2].
      split; [assumption|].
      intros c' [<-|Hc'] Hin; [|now apply C2].
      destruct (Q2 c Hin) as [E|?]; [|assumption].
      rewrite E. exact Hge.
Qed.

Lemma removeNode_fuel_settled fuel :
  forall node m m', NoDup (nodes m) -> removeNode_fuel fuel node m = Some m' ->
                    settled m m'.
Proof.
  induction fuel as [|fuel IH]; intros node m m' Hnd; [discriminate|].
  intros H. pose proof (removeNode_fuel_forgets _ _ _ _ H) as (_ & _ & Hgone).
  rewrite removeNode_fuel_S in H.
  assert (Hnd1 : NoDup (nodes (detach node m))) by (now apply spliceOut_NoDup).
  destruct (removeOrphans_settled _ IH _ _ _ Hnd1 H) as [Q C].
  intros v Hv.
  destruct (in_dec Nat.eq_dec v (connectedNodes node (links m))) as [Hc|Hc].
  - right. now apply C.
  - destruct (Q v Hv) as [E|?]; [|now right].
    left. rewrite E. unfold linkCount. rewrite detach_links.
    apply connectionCount_detach; [|assumption].
    intros ->. now apply (Hgone Hnd).
Qed.

Lemma detach_absent node m :
  (forall l, In l (links m) -> touches node l = false) ->
  (forall k, In k (angleConstraints m) -> uses node k = false) ->
  ~ In node (nodes m) ->
  detach node m = m.
Proof.
  intros HL HK HN. unfold detach.
  rewrite (filter_id _ (links m)).
  2:{ intros l Hl. apply HL in Hl. unfold touches in Hl.
      now rewrite <- negb_orb, Hl. }
  assert (E1 : set_links m (links m) = m) by (now destruct m).
  rewrite E1.
  rewrite (filter_id _ (angleConstraints m)).
  2:{ intros k Hk. apply HK in Hk. unfold uses in Hk.
      now rewrite <- !negb_orb, Hk. }
  assert (E2 : set_angleConstraints m (angleConstraints m) = m) by (now destruct m).
  rewrite E2.
  rewrite spliceOut_absent by assumption.
  now destruct m.
Qed.

(** Removing a node that the mesh does not know changes nothing. *)
Lemma removeNode_absent node m :
  (forall l, In l (links m) -> touches node l = false) ->
  (forall k, In k (angleConstraints m) -> uses node k = false) ->
  ~ In node (nodes m) ->
  removeNode node m = m.
Proof.
  intros HL HK HN.
  pose proof (removeNode_run node m) as H.
  rewrite removeNode_fuel_S in H.
  rewrite (connectedNodes_none node (links m) HL) in H. simpl in H.
  rewrite (detach_absent node m HL HK HN) in H.
  now injection H.
Qed.

Lemma closed_detach node m : closed m -> closed (detach node m).
Proof.
  intros [HL HK]. split.
  - intros l Hl. rewrite detach_links in Hl. apply filter_In in Hl.
    destruct Hl as [Hl Ht]. apply negb_true_iff in Ht.
    unfold touches in Ht. apply orb_false_elim in Ht as [Ha Hb].
    apply Nat.eqb_neq in Ha, Hb. rewrite detach_nodes.
    destruct (HL l Hl). split; now apply spliceOut_keeps.
  - intros k Hk. unfold detach in Hk; simpl in Hk. apply filter_In in Hk.
    destruct Hk as [Hk Ht].
    apply andb_true_iff in Ht as [Ht Hc]. apply andb_true_iff in Ht as [Ha Hb].
    apply negb_true_iff, Nat.eqb_neq in Ha, Hb, Hc. rewrite detach_nodes.
    destruct (HK k Hk) as (? & ? & ?). repeat split; now apply spliceOut_keeps.
Qed.

End RemoveNode.

(** Scenario D of the specification: removing one node of the triangle takes
    the other two with it. *)
Example triangle_removed :
  Mesh.nodes (Mesh.removeNode 0%nat triangle) = []
  /\ Mesh.links (Mesh.removeNode 0%nat triangle) = []
  /\ Mesh.angleConstraints (Mesh.removeNode 0%nat triangle) = [].
Proof. repeat split; reflexivity. Qed.

Example tetra_removed :
  Mesh.nodes (Mesh.removeNode 0%nat tetra) = [1; 2; 3]%nat
  /\ map (fun l => (Link.a l, Link.b l)) (Mesh.links (Mesh.removeNode 0%nat tetra))
     = [(1, 2); (1, 3); (2, 3)]%nat.
Proof. split; reflexivity. Qed.

(** C2. After [removeNode n] and its cascade, a node that remains has at least
    two links or had fewer than two before the call; so when every node had at
    least two links before, every node that remains has at least two.  The
    nodes of a mesh are distinct objects ([NoDup]): [createNode] makes a new
    one each time. *)
Theorem removeNode_cascade (n : Ref) (m : Mesh.t) :
  NoDup (Mesh.nodes m) ->
  (forall v, In v (Mesh.nodes (Mesh.removeNode n m)) ->
     (2 <= linkCount (Mesh.removeNode n m) v)%nat \/ (linkCount m v < 2)%nat)
  /\ ((forall v, In v (Mesh.nodes m) -> (2 <= linkCount m v)%nat) ->
      forall v, In v (Mesh.nodes (Mesh.removeNode n m)) ->
        (2 <= linkCount (Mesh.removeNode n m) v)%nat).
Proof.
  intros Hnd.
  pose proof (removeNode_fuel_settled _ _ _ _ Hnd (removeNode_run n m)) as Q.
  pose proof (removeNode_fuel_shrinks _ _ _ _ (removeNode_run n m)) as (_ & _ & N & _).
  split.
  - intros v Hv. destruct (Q v Hv) as [E|?]; [|now left].
    rewrite E. lia.
  - intros Hvalid v Hv. destruct (Q v Hv) as [E|?]; [|assumption].
    rewrite E. apply Hvalid, N, Hv.
Qed.

Lemma removeNode_cascade_witness :
  NoDup (Mesh.nodes tetra)
  /\ (forall v, In v (Mesh.nodes tetra) -> (2 <= linkCount tetra v)%nat)
  /\ forall v, In v (Mesh.nodes (Mesh.removeNode 0%nat tetra)) ->
       (2 <= linkCount (Mesh.removeNode 0%nat tetra) v)%nat.
Proof.
  assert (Hnd : NoDup (Mesh.nodes tetra)).
  { simpl. repeat constructor; simpl; intuition discriminate. }
  assert (Hvalid : forall v, In v (Mesh.nodes tetra) -> (2 <= linkCount tetra v)%nat).
  { simpl. intros v [<-|[<-|[<-|[<-|[]]]]]; vm_compute; lia. }
  split; [exact Hnd|]. split; [exact Hvalid|].
  exact (proj2 (removeNode_cascade 0%nat tetra Hnd) Hvalid).
Defined.

(** In a mesh whose links and constraints refer to its nodes, nothing refers
    to a node that the mesh does not have. *)
Lemma closed_absent n m :
  closed m -> ~ In n (Mesh.nodes m) ->
  (forall l, In l (Mesh.links m) -> touches n l = false)
  /\ (forall k, In k (Mesh.angleConstraints m) -> uses n k = false).
Proof.
  intros [HL HK] Hn. split.
  - intros l Hl. destruct (HL l Hl) as [Ha Hb]. unfold touches.
    destruct (Nat.eqb_spec (Link.a l) n) as [E|_]; [congruence|].
    destruct (Nat.eqb_spec (Link.b l) n) as [E|_]; [congruence|]. reflexivity.
  - intros k Hk. destruct (HK k Hk) as (Ha & Hb & Hc). unfold uses.
    destruct (Nat.eqb_spec (AngleConstraint.a k) n) as [E|_]; [congruence|].
    destruct (Nat.eqb_spec (AngleConstraint.b k) n) as [E|_]; [congruence|].
    destruct (Nat.eqb_spec (AngleConstraint.c k) n) as [E|_]; [congruence|]. reflexivity.
Qed.

(** C3. A second [removeNode] of the same node changes none of the three
    collections; and in a mesh whose links and constraints refer to its nodes,
    removing a node that is absent changes none of them either. *)
Theorem removeNode_twice (n : Ref) (m : Mesh.t) :
  NoDup (Mesh.nodes m) ->
  (Mesh.nodes (Mesh.removeNode n (Mesh.removeNode n m)) = Mesh.nodes (Mesh.removeNode n m)
   /\ Mesh.links (Mesh.removeNode n (Mesh.removeNode n m)) = Mesh.links (Mesh.removeNode n m)
   /\ Mesh.angleConstraints (Mesh.removeNode n (Mesh.removeNode n m))
      = Mesh.angleConstraints (Mesh.removeNode n m))
  /\ (closed m -> ~ In n (Mesh.nodes m) ->
      Mesh.nodes (Mesh.removeNode n m) = Mesh.nodes m
      /\ Mesh.links (Mesh.removeNode n m) = Mesh.links m
      /\ Mesh.angleConstraints (Mesh.removeNode n m) = Mesh.angleConstraints m).
Proof.
  intros Hnd. split.
  - destruct (removeNode_fuel_forgets _ _ _ _ (removeNode_run n m)) as (HL & HK & HN).
    rewrite (removeNode_absent n (Mesh.removeNode n m) HL HK (HN Hnd)).
    repeat split.
  - intros Hc Hn. destruct (closed_absent n m Hc Hn) as [HL HK].
    rewrite (removeNode_absent n m HL HK Hn). repeat split.
Qed.

Lemma removeNode_twice_witness :
  NoDup (Mesh.nodes tetra)
  /\ Mesh.nodes (Mesh.removeNode 0%nat (Mesh.removeNode 0%nat tetra))
     = Mesh.nodes (Mesh.removeNode 0%nat tetra)
  /\ Mesh.links (Mesh.removeNode 0%nat (Mesh.removeNode 0%nat tetra))
     = Mesh.links (Mesh.removeNode 0%nat tetra)
  /\ Mesh.angleConstraints (Mesh.removeNode 0%nat (Mesh.removeNode 0%nat tetra))
     = Mesh.angleConstraints (Mesh.removeNode 0%nat tetra).
Proof.
  assert (Hnd : NoDup (Mesh.nodes tetra)).
  { simpl. repeat constructor; simpl; intuition discriminate. }
  split; [exact Hnd|]. exact (proj1 (removeNode_twice 0%nat tetra Hnd)).
Defined.

(** C10. [removeNode] keeps referential integrity: when every link and every
    angle constraint refers to nodes of the mesh before the call, so it is
    after the call and its cascade. *)
Theorem removeNode_closed (n : Ref) (m : Mesh.t) :
  closed m -> closed (Mesh.removeNode n m).
Proof.
  revert n m.
  apply (removeNode_preorder (fun m m' => closed m -> closed m')); auto.
  intros node m. apply closed_detach.
Qed.

Lemma removeNode_closed_witness :
  closed tetra /\ closed (Mesh.removeNode 0%nat tetra).
Proof.
  assert (Hc : closed tetra).
  { split; simpl.
    - intros l H. repeat (destruct H as [<-|H]; [simpl; intuition|]). destruct H.
    - intros k H. repeat (destruct H as [<-|H]; [simpl; intuition|]). destruct H. }
  split; [exact Hc|]. exact (removeNode_closed 0%nat tetra Hc).
Defined.


(** ** The heap and its loops *)

Section HeapFacts.

Lemma get_set h i n j :
  Heap.get (Heap.set h i n) j = if Nat.eqb j i then n else Heap.get h j.
Proof. reflexivity. Qed.

Lemma get_set_same h i n : Heap.get (Heap.set h i n) i = n.
Proof. rewrite get_set. now rewrite Nat.eqb_refl. Qed.

Lemma get_set_other h i n j : j <> i -> Heap.get (Heap.set h i n) j = Heap.get h j.
Proof. intros H. rewrite get_set. now apply Nat.eqb_neq in H as ->. Qed.

Lemma get_update h i f j :
  Heap.get (Heap.update h i f) j = if Nat.eqb j i then f (Heap.get h i) else Heap.get h j.
Proof. reflexivity. Qed.

Lemma get_update_same h i f : Heap.get (Heap.update h i f) i = f (Heap.get h i).
Proof. rewrite get_update. now rewrite Nat.eqb_refl. Qed.

Lemma get_update_other h i f j :
  j <> i -> Heap.get (Heap.update h i f) j = Heap.get h j.
Proof. intros H. rewrite get_update. now apply Nat.eqb_neq in H as ->. Qed.

Variable Rh : Heap.t -> Heap.t -> Prop.
Hypothesis Rh_refl : forall h, Rh h h.
Hypothesis Rh_trans : forall h1 h2 h3, Rh h1 h2 -> Rh h2 h3 -> Rh h1 h3.

Lemma forEach_rel {A} (body : A -> Heap.t -> option Heap.t) (l : list A) :
  (forall v h h', In v l -> body v h = Some h' -> Rh h h') ->
  forall h h', Heap.forEach body l h = Some h' -> Rh h h'.
Proof.
  induction l as [|v l IH]; simpl; intros Hbody h h'.
  - intros [= <-]. apply Rh_refl.
  - destruct (body v h) as [h1|] eqn:E; [|discriminate].
    intros H. eapply Rh_trans; [eapply Hbody; eauto|].
    eapply IH; eauto.
Qed.

Lemma times_rel (body : Heap.t -> option Heap.t) (n : nat) :
  (forall h h', body h = Some h' -> Rh h h') ->
  forall h h', Heap.times n body h = Some h' -> Rh h h'.
Proof.
  intros Hbody. induction n as [|n IH]; simpl; intros h h'.
  - intros [= <-]. apply Rh_refl.
  - destruct (body h) as [h1|] eqn:E; [|discriminate].
    intros H. eapply Rh_trans; [eapply Hbody; eauto|]. now apply IH.
Qed.

End HeapFacts.

Lemma forEach_defined {A} (body : A -> Heap.t -> option Heap.t) (l : list A) :
  (forall v h, In v l -> exists h', body v h = Some h') ->
  forall h, exists h', Heap.forEach body l h = Some h'.
Proof.
  induction l as [|v l IH]; simpl; intros Hbody h.
  - now exists h.
  - destruct (Hbody v h (or_introl eq_refl)) as [h1 ->]. apply IH. eauto.
Qed.

Lemma times_defined (body : Heap.t -> option Heap.t) (n : nat) :
  (forall h, exists h', body h = Some h') ->
  forall h, exists h', Heap.times n body h = Some h'.
Proof.
  intros Hbody. induction n as [|n IH]; simpl; intros h.
  - now exists h.
  - destruct (Hbody h) as [h1 ->]. apply IH.
Qed.

(** ** Relations on nodes, lifted to heaps *)

Section Pointwise.

Variable Rn : Node.t -> Node.t -> Prop.
Hypothesis Rn_refl : forall n, Rn n n.
Hypothesis Rn_trans : forall n1 n2 n3, Rn n1 n2 -> Rn n2 n3 -> Rn n1 n3.

Lemma pointwise_refl h : pointwise Rn h h.
Proof. intro i. apply Rn_refl. Qed.

Lemma pointwise_trans h1 h2 h3 :
  pointwise Rn h1 h2 -> pointwise Rn h2 h3 -> pointwise Rn h1 h3.
Proof. intros H12 H23 i. eapply Rn_trans; [apply H12|apply H23]. Qed.

Lemma pointwise_set h i n :
  Rn (Heap.get h i) n -> pointwise Rn h (Heap.set h i n).
Proof.
  intros H j. rewrite get_set.
  destruct (Nat.eqb_spec j i) as [->|_]; [assumption|apply Rn_refl].
Qed.

Lemma pointwise_update h i f :
  Rn (Heap.get h i) (f (Heap.get h i)) -> pointwise Rn h (Heap.update h i f).
Proof. apply pointwise_set. Qed.

End Pointwise.

Lemma solved_refl n : solved n n.
Proof. unfold solved; auto. Qed.

Lemma solved_trans n1 n2 n3 : solved n1 n2 -> solved n2 n3 -> solved n1 n3.
Proof.
  unfold solved. intros (M1 & P1 & F1) (M2 & P2 & F2).
  repeat split; try congruence.
  intros Hp. rewrite F2 by congruence. auto.
Qed.

Lemma stepped_refl n : stepped n n.
Proof. unfold stepped; intuition. Qed.

Lemma stepped_trans n1 n2 n3 : stepped n1 n2 -> stepped n2 n3 -> stepped n1 n3.
Proof.
  unfold stepped. intros (M1 & P1 & F1) (M2 & P2 & F2).
  repeat split; try congruence;
    destruct (F1 H) as (X1 & Y1 & Q1);
    destruct (F2 ltac:(congruence)) as (X2 & Y2 & Q2); try congruence.
  destruct Q1 as [[? ?]|[? ?]], Q2 as [[? ?]|[? ?]];
    first [left; split; congruence | right; split; congruence].
Qed.

Lemma solved_stepped n n' : solved n n' -> stepped n n'.
Proof.
  unfold solved, stepped. intros (M & P & F). repeat split; auto.
  - rewrite F; auto.
  - rewrite F; auto.
  - left. rewrite F; auto.
Qed.

(** A node that is not pinned may be changed at will by the solver, as long as
    its mass and its flag stay. *)
Lemma solved_free n n' :
  Node.pinned n = false -> Node.mass n' = Node.mass n -> Node.pinned n' = Node.pinned n ->
  solved n n'.
Proof. unfold solved. intros Hp M P. repeat split; auto. congruence. Qed.

(** ** Guarded divisions *)

Open Scope R_scope.

Lemma div_defined a b : b <> 0 -> JS.div a b = Some (a / b).
Proof. intros H. unfold JS.div. now destruct (Req_dec_T b 0). Qed.

Lemma div_zero a : JS.div a 0 = None.
Proof. unfold JS.div. destruct (Req_dec_T 0 0); [reflexivity|contradiction]. Qed.

Lemma eps6_pos : 0 < JS.eps6.
Proof. unfold JS.eps6. apply Rinv_0_lt_compat. lra. Qed.

Lemma eps10_pos : 0 < JS.eps10.
Proof. unfold JS.eps10. apply Rinv_0_lt_compat. lra. Qed.

(** The epsilon floor: [v || 1e-6] is never zero. *)
Lemma or_eps6_nonzero v : JS.or v JS.eps6 <> 0.
Proof.
  unfold JS.or. destruct (Req_dec_T v 0); [|assumption].
  pose proof eps6_pos. lra.
Qed.



(** ** The solver leaves pinned nodes alone *)

Lemma keepsBody_set_x v : keepsBody (fun n => Node.set_x n (v n)).
Proof. intro n. split; reflexivity. Qed.

Lemma keepsBody_set_y v : keepsBody (fun n => Node.set_y n (v n)).
Proof. intro n. split; reflexivity. Qed.

Lemma update_free_solved h i f :
  Node.pinned (Heap.get h i) = false -> keepsBody f ->
  pointwise solved h (Heap.update h i f).
Proof.
  intros Hp Hf. apply pointwise_update; [apply solved_refl|].
  destruct (Hf (Heap.get h i)). now apply solved_free.
Qed.

Lemma solved_pinned h h' i :
  pointwise solved h h' -> Node.pinned (Heap.get h' i) = Node.pinned (Heap.get h i).
Proof. intros H. apply (H i). Qed.

Lemma pointwise_solved_trans h1 h2 h3 :
  pointwise solved h1 h2 -> pointwise solved h2 h3 -> pointwise solved h1 h3.
Proof. apply pointwise_trans, solved_trans. Qed.

(** Two successive writes to a node that is not pinned. *)
Lemma update_twice_solved h i f g :
  Node.pinned (Heap.get h i) = false -> keepsBody f -> keepsBody g ->
  pointwise solved h (Heap.update (Heap.update h i f) i g).
Proof.
  intros Hp Hf Hg.
  pose proof (update_free_solved h i f Hp Hf) as H1.
  eapply pointwise_solved_trans; [exact H1|].
  apply update_free_solved; [|assumption].
  rewrite (solved_pinned _ _ i H1). exact Hp.
Qed.

Lemma Link_satisfy_defined l h : exists h', Link.satisfy l h = Some h'.
Proof.
  unfold Link.satisfy. rewrite div_defined by apply or_eps6_nonzero. eauto.
Qed.

Lemma Link_satisfy_solved l h h' : Link.satisfy l h = Some h' -> pointwise solved h h'.
Proof.
  unfold Link.satisfy. rewrite div_defined by apply or_eps6_nonzero.
  intros [= <-].
  set (ox := _ * _ * _). set (oy := _ * _ * _).
  set (h1 := if negb (Node.pinned (Heap.get h (Link.a l))) then _ else h).
  assert (H1 : pointwise solved h h1).
  { subst h1. destruct (Node.pinned (Heap.get h (Link.a l))) eqn:Hp; simpl.
    - apply pointwise_refl, solved_refl.
    - apply update_twice_solved;
        [ assumption
        | apply (keepsBody_set_x (fun n => Node.x n + ox))
        | apply (keepsBody_set_y (fun n => Node.y n + oy)) ]. }
  eapply pointwise_solved_trans; [exact H1|].
  destruct (Node.pinned (Heap.get h1 (Link.b l))) eqn:Hp; simpl.
  - apply pointwise_refl, solved_refl.
  - apply update_twice_solved;
      [ assumption
      | apply (keepsBody_set_x (fun n => Node.x n - ox))
      | apply (keepsBody_set_y (fun n => Node.y n - oy)) ].
Qed.

Lemma AngleConstraint_satisfy_defined k h : exists h', AngleConstraint.satisfy k h = Some h'.
Proof.
  unfold AngleConstraint.satisfy. rewrite div_defined by apply or_eps6_nonzero.
  destruct (_ && _); eauto.
Qed.

Lemma AngleConstraint_satisfy_solved k h h' :
  AngleConstraint.satisfy k h = Some h' -> pointwise solved h h'.
Proof.
  unfold AngleConstraint.satisfy. rewrite div_defined by apply or_eps6_nonzero.
  set (cx := _ * _ * 0.5). set (cy := _ * _ * 0.5).
  destruct (Node.pinned (Heap.get h (AngleConstraint.a k))) eqn:Hpa; simpl.
  { intros [= <-]. apply pointwise_refl, solved_refl. }
  destruct (Node.pinned (Heap.get h (AngleConstraint.c k))) eqn:Hpc; simpl.
  { intros [= <-]. apply pointwise_refl, solved_refl. }
  intros [= <-].
  assert (H1 : pointwise solved h
                 (Heap.update
                    (Heap.update h (AngleConstraint.a k) (fun n => Node.set_x n (Node.x n + cx)))
                    (AngleConstraint.a k) (fun n => Node.set_y n (Node.y n + cy)))).
  { apply update_twice_solved;
      [ assumption
      | apply (keepsBody_set_x (fun n => Node.x n + cx))
      | apply (keepsBody_set_y (fun n => Node.y n + cy)) ]. }
  eapply pointwise_solved_trans; [exact H1|].
  apply update_twice_solved.
  - rewrite (solved_pinned _ _ _ H1). exact Hpc.
  - apply (keepsBody_set_x (fun n => Node.x n - cx)).
  - apply (keepsBody_set_y (fun n => Node.y n - cy)).
Qed.

Lemma pushNodeFromPoint_defined node px py strength h :
  exists h', Mesh._pushNodeFromPoint node px py strength h = Some h'.
Proof.
  unfold Mesh._pushNodeFromPoint.
  destruct (Node.pinned (Heap.get h node)); [eauto|].
  rewrite !div_defined by apply or_eps6_nonzero. eauto.
Qed.

Lemma pushNodeFromPoint_solved node px py strength h h' :
  Mesh._pushNodeFromPoint node px py strength h = Some h' -> pointwise solved h h'.
Proof.
  unfold Mesh._pushNodeFromPoint.
  destruct (Node.pinned (Heap.get h node)) eqn:Hp.
  { intros [= <-]. apply pointwise_refl, solved_refl. }
  rewrite !div_defined by apply or_eps6_nonzero.
  intros [= <-].
  set (qx := _ / _ * strength). set (qy := _ / _ * strength).
  apply update_twice_solved;
    [ assumption
    | apply (keepsBody_set_x (fun n => Node.x n + qx))
    | apply (keepsBody_set_y (fun n => Node.y n + qy)) ].
Qed.

Lemma pushLinksApart_defined m link1 link2 i h :
  exists h', Mesh._pushLinksApart m link1 link2 i h = Some h'.
Proof.
  unfold Mesh._pushLinksApart.
  destruct (JS.gtb _ _); [|eauto].
  destruct (pushNodeFromPoint_defined (Link.a link1) (Mesh.ix i) (Mesh.iy i) 0.3 h) as [h1 ->].
  destruct (pushNodeFromPoint_defined (Link.b link1) (Mesh.ix i) (Mesh.iy i) 0.3 h1) as [h2 ->].
  destruct (pushNodeFromPoint_defined (Link.a link2) (Mesh.ix i) (Mesh.iy i) 0.3 h2) as [h3 ->].
  apply pushNodeFromPoint_defined.
Qed.

Lemma pushLinksApart_solved m link1 link2 i h h' :
  Mesh._pushLinksApart m link1 link2 i h = Some h' -> pointwise solved h h'.
Proof.
  unfold Mesh._pushLinksApart.
  destruct (JS.gtb _ _).
  2:{ intros [= <-]. apply pointwise_refl, solved_refl. }
  destruct (Mesh._pushNodeFromPoint (Link.a link1) _ _ _ h) as [h1|] eqn:E1; [|discriminate].
  destruct (Mesh._pushNodeFromPoint (Link.b link1) _ _ _ h1) as [h2|] eqn:E2; [|discriminate].
  destruct (Mesh._pushNodeFromPoint (Link.a link2) _ _ _ h2) as [h3|] eqn:E3; [|discriminate].
  intros E4.
  apply pushNodeFromPoint_solved in E1, E2, E3, E4.
  eauto using pointwise_solved_trans.
Qed.

(** The guard on [denom] keeps the two divisions of [_lineIntersection] away
    from zero. *)
Lemma lineIntersection_defined p1x p1y p2x p2y p3x p3y p4x p4y :
  exists i, Mesh._lineIntersection p1x p1y p2x p2y p3x p3y p4x p4y = Some i.
Proof.
  unfold Mesh._lineIntersection.
  set (denom := _ - _).
  unfold JS.ltb. destruct (Rlt_dec (Rabs denom) JS.eps10) as [|Hge]; [eauto|].
  assert (Hd : denom <> 0).
  { intros E. apply Hge. rewrite E, Rabs_R0. apply eps10_pos. }
  rewrite !div_defined by assumption.
  destruct (_ && _); eauto.
Qed.

Lemma preventCrossing_defined m link1 link2 h :
  exists h', Mesh.preventCrossing m link1 link2 h = Some h'.
Proof.
  unfold Mesh.preventCrossing.
  destruct (_ || _); [eauto|].
  match goal with
  | |- context [Mesh._lineIntersection ?a ?b ?c ?d ?e ?f ?g ?i] =>
      destruct (lineIntersection_defined a b c d e f g i) as [[x|] ->]
  end; [apply pushLinksApart_defined|eauto].
Qed.

Lemma preventCrossing_solved m link1 link2 h h' :
  Mesh.preventCrossing m link1 link2 h = Some h' -> pointwise solved h h'.
Proof.
  unfold Mesh.preventCrossing.
  destruct (_ || _).
  { intros [= <-]. apply pointwise_refl, solved_refl. }
  destruct (Mesh._lineIntersection _ _ _ _ _ _ _ _) as [[x|]|]; [| |discriminate].
  - apply pushLinksApart_solved.
  - intros [= <-]. apply pointwise_refl, solved_refl.
Qed.

Lemma forEach_solved {A} (body : A -> Heap.t -> option Heap.t) (l : list A) :
  (forall v h h', body v h = Some h' -> pointwise solved h h') ->
  forall h h', Heap.forEach body l h = Some h' -> pointwise solved h h'.
Proof.
  intros Hbody. apply forEach_rel.
  - intro; apply pointwise_refl, solved_refl.
  - apply pointwise_solved_trans.
  - intros v h h' _. apply Hbody.
Qed.

Lemma preventLinkCrossings_defined m h :
  exists h', Mesh._preventLinkCrossings m h = Some h'.
Proof.
  unfold Mesh._preventLinkCrossings. revert h.
  induction (Mesh.links m) as [|link1 ls IH]; simpl; intros h; [eauto|].
  destruct (forEach_defined (Mesh.preventCrossing m link1) ls
              (fun v h _ => preventCrossing_defined m link1 v h) h) as [h1 ->].
  apply IH.
Qed.

Lemma preventLinkCrossings_solved m h h' :
  Mesh._preventLinkCrossings m h = Some h' -> pointwise solved h h'.
Proof.
  unfold Mesh._preventLinkCrossings. revert h.
  induction (Mesh.links m) as [|link1 ls IH]; simpl; intros h.
  { intros [= <-]. apply pointwise_refl, solved_refl. }
  destruct (Heap.forEach _ ls h) as [h1|] eqn:E; [|discriminate].
  intros H. eapply pointwise_solved_trans; [|apply IH; exact H].
  eapply forEach_solved; [|exact E].
  intros v. apply preventCrossing_solved.
Qed.

Lemma applyWallBounds_solved m n : solved n (Mesh._applyWallBounds m n).
Proof.
  unfold Mesh._applyWallBounds.
  destruct (Node.pinned n) eqn:Hp; [apply solved_refl|].
  apply solved_free; [assumption| |];
    repeat match goal with |- context [if ?c then _ else _] => destruct c end;
    reflexivity.
Qed.

Lemma applyGroundCollision_solved m n : solved n (Mesh._applyGroundCollision m n).
Proof.
  unfold Mesh._applyGroundCollision.
  destruct (Node.pinned n) eqn:Hp; [apply solved_refl|].
  apply solved_free; [assumption| |];
    repeat match goal with |- context [if ?c then _ else _] => destruct c end;
    reflexivity.
Qed.

Lemma forEach_update_defined (f : Node.t -> Node.t) l h :
  exists h', Heap.forEach (fun node h => Some (Heap.update h node f)) l h = Some h'.
Proof. apply forEach_defined. eauto. Qed.

Lemma solve_defined m h : exists h', Mesh.solve m h = Some h'.
Proof.
  unfold Mesh.solve.
  destruct (forEach_update_defined (Mesh._applyWallBounds m) (Mesh.nodes m) h) as [h1 ->].
  destruct (forEach_update_defined (Mesh._applyGroundCollision m) (Mesh.nodes m) h1) as [h2 ->].
  destruct (preventLinkCrossings_defined m h2) as [h3 ->].
  destruct (forEach_defined Link.satisfy (Mesh.links m)
              (fun v h _ => Link_satisfy_defined v h) h3) as [h4 ->].
  destruct (forEach_defined AngleConstraint.satisfy (Mesh.angleConstraints m)
              (fun v h _ => AngleConstraint_satisfy_defined v h) h4) as [h5 ->].
  apply preventLinkCrossings_defined.
Qed.

Lemma solve_solved m h h' : Mesh.solve m h = Some h' -> pointwise solved h h'.
Proof.
  unfold Mesh.solve.
  destruct (Heap.forEach _ (Mesh.nodes m) h) as [h1|] eqn:E1; [|discriminate].
  destruct (Heap.forEach _ (Mesh.nodes m) h1) as [h2|] eqn:E2; [|discriminate].
  destruct (Mesh._preventLinkCrossings m h2) as [h3|] eqn:E3; [|discriminate].
  destruct (Heap.forEach Link.satisfy _ h3) as [h4|] eqn:E4; [|discriminate].
  destruct (Heap.forEach AngleConstraint.satisfy _ h4) as [h5|] eqn:E5; [|discriminate].
  intros E6.
  apply forEach_solved in E1.
  2:{ intros v g g' [= <-]. apply pointwise_update; [apply solved_refl|].
      apply applyWallBounds_solved. }
  apply forEach_solved in E2.
  2:{ intros v g g' [= <-]. apply pointwise_update; [apply solved_refl|].
      apply applyGroundCollision_solved. }
  apply preventLinkCrossings_solved in E3, E6.
  apply forEach_solved in E4; [|apply Link_satisfy_solved].
  apply forEach_solved in E5; [|apply AngleConstraint_satisfy_solved].
  eauto 7 using pointwise_solved_trans.
Qed.

(** ** Gravity and integration *)

Lemma applyForce_defined fx fy n :
  Node.mass n <> 0 ->
  Node.applyForce fx fy n
  = Some (Node.set_ay (Node.set_ax n (Node.ax n + fx / Node.mass n))
                      (Node.ay n + fy / Node.mass n)).
Proof.
  intros Hm. unfold Node.applyForce.
  rewrite div_defined by assumption. simpl.
  rewrite div_defined by assumption. reflexivity.
Qed.

Lemma applyForce_nonzero_mass fx fy n n' :
  Node.applyForce fx fy n = Some n' -> Node.mass n <> 0.
Proof.
  intros H E. unfold Node.applyForce in H. rewrite E, div_zero in H. discriminate.
Qed.

Lemma applyForce_stepped fx fy n n' : Node.applyForce fx fy n = Some n' -> stepped n n'.
Proof.
  intros H. pose proof (applyForce_nonzero_mass _ _ _ _ H) as Hm.
  rewrite applyForce_defined in H by assumption. injection H as <-.
  unfold stepped; simpl. intuition.
Qed.

Lemma integrate_stepped dt damping n : stepped n (Node.integrate dt damping n).
Proof.
  unfold stepped, Node.integrate.
  destruct (Node.pinned n) eqn:Hp; simpl; rewrite ?Hp; intuition; discriminate.
Qed.

Lemma integrate_pinned dt damping n :
  Node.pinned n = true ->
  Node.px (Node.integrate dt damping n) = Node.x n
  /\ Node.py (Node.integrate dt damping n) = Node.y n.
Proof. intros Hp. unfold Node.integrate. rewrite Hp. split; reflexivity. Qed.

Lemma pointwise_stepped_trans h1 h2 h3 :
  pointwise stepped h1 h2 -> pointwise stepped h2 h3 -> pointwise stepped h1 h3.
Proof. apply pointwise_trans, stepped_trans. Qed.

Lemma pointwise_solved_stepped h h' : pointwise solved h h' -> pointwise stepped h h'.
Proof. intros H i. apply solved_stepped, H. Qed.

Lemma forEach_stepped {A} (body : A -> Heap.t -> option Heap.t) (l : list A) :
  (forall v h h', body v h = Some h' -> pointwise stepped h h') ->
  forall h h', Heap.forEach body l h = Some h' -> pointwise stepped h h'.
Proof.
  intros Hbody. apply forEach_rel.
  - intro; apply pointwise_refl, stepped_refl.
  - apply pointwise_stepped_trans.
  - intros v h h' _. apply Hbody.
Qed.

Lemma applyGravity_stepped m h h' : Mesh.applyGravity m h = Some h' -> pointwise stepped h h'.
Proof.
  unfold Mesh.applyGravity. apply forEach_stepped.
  intros v g g'. destruct (Node.applyForce _ _ _) as [n|] eqn:E; [|discriminate].
  intros [= <-]. apply pointwise_set; [apply stepped_refl|].
  eapply applyForce_stepped; eassumption.
Qed.

Lemma massive_stepped m h h' : pointwise stepped h h' -> massive m h -> massive m h'.
Proof. intros H Hm n Hn. destruct (H n) as (-> & _). now apply Hm. Qed.

Lemma applyGravity_defined m h : massive m h -> exists h', Mesh.applyGravity m h = Some h'.
Proof.
  unfold massive, Mesh.applyGravity. revert h.
  induction (Mesh.nodes m) as [|v l IH]; simpl; intros h Hm; [eauto|].
  rewrite applyForce_defined by (apply Hm; now left).
  apply IH. intros n Hn. rewrite get_set.
  destruct (Nat.eqb n v); simpl; apply Hm; auto.
Qed.

(** Gravity is only applied when no node of the mesh has mass zero. *)
Lemma applyGravity_massive m h h' : Mesh.applyGravity m h = Some h' -> massive m h.
Proof.
  unfold massive, Mesh.applyGravity. revert h.
  induction (Mesh.nodes m) as [|v l IH]; simpl; intros h H n Hn; [easy|].
  destruct (Node.applyForce _ _ (Heap.get h v)) as [n1|] eqn:E; [|discriminate].
  pose proof (applyForce_nonzero_mass _ _ _ _ E) as Hv.
  destruct Hn as [<-|Hn]; [assumption|].
  pose proof (IH _ H n Hn) as Hn'. rewrite get_set in Hn'.
  destruct (Nat.eqb_spec n v) as [->|_]; [assumption|assumption].
Qed.

(** The integration loop sets the previous position of the pinned nodes of
    the mesh to their position. *)
Lemma integrate_loop_pinned dt damping l :
  forall h h',
    Heap.forEach (fun node h => Some (Heap.update h node (Node.integrate dt damping))) l h
    = Some h' ->
    pointwise stepped h h'
    /\ forall i, In i l -> Node.pinned (Heap.get h i) = true ->
         Node.px (Heap.get h' i) = Node.x (Heap.get h i)
         /\ Node.py (Heap.get h' i) = Node.y (Heap.get h i).
Proof.
  induction l as [|v l IH]; simpl; intros h h'.
  { intros [= <-]. split; [apply pointwise_refl, stepped_refl|easy]. }
  intros H. destruct (IH _ _ H) as [Hs Hp].
  assert (H1 : pointwise stepped h (Heap.update h v (Node.integrate dt damping))).
  { apply pointwise_update; [apply stepped_refl|apply integrate_stepped]. }
  split; [eapply pointwise_stepped_trans; eassumption|].
  intros i Hi Hpin.
  destruct (H1 i) as (_ & Hpin1 & F1). destruct (F1 Hpin) as (X1 & Y1 & _).
  destruct (in_dec Nat.eq_dec i l) as [Hl|Hl].
  - rewrite <- X1, <- Y1. apply Hp; [assumption|congruence].
  - destruct Hi as [->|Hi]; [|contradiction].
    destruct (Hs i) as (_ & _ & F). destruct (F ltac:(congruence)) as (_ & _ & Q).
    rewrite get_update_same in Q.
    destruct (integrate_pinned dt damping (Heap.get h i) Hpin) as [Ex Ey].
    unfold Node.integrate in Q at 3 4. rewrite Hpin in Q. simpl in Q.
    destruct Q as [[-> ->]|[-> ->]]; auto.
Qed.

(** ** A whole step *)

Lemma times_solve_solved m n h h' :
  Heap.times n (Mesh.solve m) h = Some h' -> pointwise solved h h'.
Proof.
  revert h h'. apply times_rel.
  - intro; apply pointwise_refl, solved_refl.
  - apply pointwise_solved_trans.
  - apply solve_solved.
Qed.

Lemma step_stepped dt m h h' :
  Mesh.step dt m h = Some h' ->
  pointwise stepped h h'
  /\ forall i, In i (Mesh.nodes m) -> Node.pinned (Heap.get h i) = true ->
       Node.px (Heap.get h' i) = Node.x (Heap.get h i)
       /\ Node.py (Heap.get h' i) = Node.y (Heap.get h i).
Proof.
  unfold Mesh.step.
  destruct (Mesh.applyGravity m h) as [h1|] eqn:E1; [|discriminate].
  destruct (Heap.forEach _ (Mesh.nodes m) h1) as [h2|] eqn:E2; [|discriminate].
  intros E3.
  apply applyGravity_stepped in E1.
  apply integrate_loop_pinned in E2. destruct E2 as [E2 P2].
  apply times_solve_solved in E3.
  split.
  - eauto using pointwise_stepped_trans, pointwise_solved_stepped.
  - intros i Hi Hp.
    destruct (E1 i) as (_ & Hp1 & F1). destruct (F1 Hp) as (X1 & Y1 & _).
    destruct (E2 i) as (_ & Hp2 & _).
    destruct (E3 i) as (_ & _ & F3). rewrite F3 by congruence.
    rewrite <- X1, <- Y1. apply P2; [assumption|congruence].
Qed.

Lemma step_defined dt m h : massive m h -> exists h', Mesh.step dt m h = Some h'.
Proof.
  intros Hm. unfold Mesh.step.
  destruct (applyGravity_defined m h Hm) as [h1 ->].
  destruct (forEach_update_defined (Node.integrate dt (Mesh.damping m)) (Mesh.nodes m) h1)
    as [h2 ->].
  apply times_defined, solve_defined.
Qed.

Lemma steps_defined dts m h : massive m h -> exists h', Mesh.steps dts m h = Some h'.
Proof.
  revert h. induction dts as [|dt dts IH]; simpl; intros h Hm; [eauto|].
  destruct (step_defined dt m h Hm) as [h1 E]. rewrite E.
  apply IH. eapply massive_stepped; [|eassumption].
  now apply step_stepped in E.
Qed.

Lemma steps_stepped dts m h h' : Mesh.steps dts m h = Some h' -> pointwise stepped h h'.
Proof.
  revert h. induction dts as [|dt dts IH]; simpl; intros h.
  - intros [= <-]. apply pointwise_refl, stepped_refl.
  - destruct (Mesh.step dt m h) as [h1|] eqn:E; [|discriminate].
    intros H. eapply pointwise_stepped_trans; [|apply IH; exact H].
    now apply step_stepped in E.
Qed.

(** After at least one step, the previous position of a pinned node of the mesh
    is its position. *)
Lemma steps_pinned_previous dts m h h' i :
  Mesh.steps dts m h = Some h' -> dts <> [] ->
  In i (Mesh.nodes m) -> Node.pinned (Heap.get h i) = true ->
  Node.px (Heap.get h' i) = Node.x (Heap.get h i)
  /\ Node.py (Heap.get h' i) = Node.y (Heap.get h i).
Proof.
  destruct dts as [|dt dts]; [congruence|]. simpl.
  destruct (Mesh.step dt m h) as [h1|] eqn:E; [|discriminate].
  intros H _ Hi Hp.
  apply step_stepped in E. destruct E as [S1 P1].
  destruct (P1 i Hi Hp) as [Ex Ey].
  destruct (S1 i) as (_ & Hp1 & F1). destruct (F1 Hp) as (X1 & Y1 & _).
  apply steps_stepped in H.
  destruct (H i) as (_ & _ & F). destruct (F ltac:(congruence)) as (_ & _ & Q).
  destruct Q as [[-> ->]|[-> ->]]; split; congruence.
Qed.

(** The pinned node of [pinnedMesh]: created at (100, 100) with the initial
    velocity (0, 2), so that its previous position is (100, 98). *)
Example pinnedWorld_node :
  Mesh.nodes pinnedMesh = [0%nat]
  /\ Node.pinned (Heap.get pinnedHeap 0%nat) = true
  /\ Node.x (Heap.get pinnedHeap 0%nat) = 100 /\ Node.y (Heap.get pinnedHeap 0%nat) = 100
  /\ Node.px (Heap.get pinnedHeap 0%nat) = 100 - 0 /\ Node.py (Heap.get pinnedHeap 0%nat) = 100 - 2
  /\ Node.mass (Heap.get pinnedHeap 0%nat) = 15.
Proof. repeat split; reflexivity. Qed.

Lemma pinnedWorld_massive : massive pinnedMesh pinnedHeap.
Proof.
  intros n [<-|[]].
  change (15 <> 0). lra.
Qed.

(** C1, as the specification states it, fails: the first step moves the
    previous position of a pinned node that was created with an initial
    velocity. *)
Lemma pinned_previous_position_moves :
  exists h',
    Mesh.step (/ 60) pinnedMesh pinnedHeap = Some h'
    /\ Node.pinned (Heap.get pinnedHeap 0%nat) = true
    /\ Node.py (Heap.get pinnedHeap 0%nat) = 98
    /\ Node.py (Heap.get h' 0%nat) = 100
    /\ Node.py (Heap.get h' 0%nat) <> Node.py (Heap.get pinnedHeap 0%nat).
Proof.
  destruct (step_defined (/ 60) pinnedMesh pinnedHeap pinnedWorld_massive) as [h' E].
  exists h'. split; [exact E|]. split; [reflexivity|].
  apply step_stepped in E. destruct E as [_ P].
  destruct (P 0%nat (or_introl eq_refl) eq_refl) as [_ Py].
  assert (E98 : Node.py (Heap.get pinnedHeap 0%nat) = 98) by (change (100 - 2 = 98); lra).
  assert (E100 : Node.py (Heap.get h' 0%nat) = 100) by (rewrite Py; reflexivity).
  split; [exact E98|]. split; [exact E100|].
  rewrite E98, E100. lra.
Qed.

(** C1, amended.  Across any sequence of steps, with any time steps, a pinned
    node keeps its flag and its position (x, y).  Its previous position
    (px, py) is not kept in general: [integrate] resets it to the position, so
    after at least one step the previous position of a pinned node of the mesh
    is its position, and it is unchanged when it already was.  The steps are
    defined when no node of the mesh has mass zero. *)
Theorem pinned_position_fixed (dts : list R) (m : Mesh.t) (h : Heap.t) (i : Ref) :
  massive m h ->
  Node.pinned (Heap.get h i) = true ->
  exists h',
    Mesh.steps dts m h = Some h'
    /\ Node.pinned (Heap.get h' i) = true
    /\ Node.x (Heap.get h' i) = Node.x (Heap.get h i)
    /\ Node.y (Heap.get h' i) = Node.y (Heap.get h i)
    /\ (dts <> [] -> In i (Mesh.nodes m) ->
        Node.px (Heap.get h' i) = Node.x (Heap.get h i)
        /\ Node.py (Heap.get h' i) = Node.y (Heap.get h i))
    /\ (Node.px (Heap.get h i) = Node.x (Heap.get h i) ->
        Node.py (Heap.get h i) = Node.y (Heap.get h i) ->
        Node.px (Heap.get h' i) = Node.px (Heap.get h i)
        /\ Node.py (Heap.get h' i) = Node.py (Heap.get h i)).
Proof.
  intros Hm Hp.
  destruct (steps_defined dts m h Hm) as [h' E].
  exists h'. split; [exact E|].
  pose proof (steps_stepped _ _ _ _ E i) as (_ & Hp' & F).
  destruct (F Hp) as (X & Y & Q).
  split; [congruence|]. split; [exact X|]. split; [exact Y|]. split.
  - intros Hd Hi. now apply (steps_pinned_previous dts m h h' i).
  - intros Ex Ey. destruct Q as [[-> ->]|[-> ->]]; split; congruence.
Qed.

Lemma pinned_position_fixed_witness :
  massive pinnedMesh pinnedHeap
  /\ Node.pinned (Heap.get pinnedHeap 0%nat) = true
  /\ exists h',
       Mesh.steps [/ 60; / 30] pinnedMesh pinnedHeap = Some h'
       /\ Node.x (Heap.get h' 0%nat) = 100 /\ Node.y (Heap.get h' 0%nat) = 100
       /\ Node.px (Heap.get h' 0%nat) = 100 /\ Node.py (Heap.get h' 0%nat) = 100.
Proof.
  split; [exact pinnedWorld_massive|]. split; [reflexivity|].
  destruct (pinned_position_fixed [/ 60; / 30] pinnedMesh pinnedHeap 0%nat
              pinnedWorld_massive eq_refl)
    as (h' & E & _ & X & Y & P & _).
  exists h'. split; [exact E|].
  destruct P as [Px Py]; [discriminate|now left|].
  rewrite X, Y, Px, Py. repeat split; reflexivity.
Defined.

(** ** One relaxation of a link *)



Example apart_nodes :
  Node.pinned (Heap.get apartHeap 0%nat) = false
  /\ Node.pinned (Heap.get apartHeap 1%nat) = false
  /\ Node.x (Heap.get apartHeap 0%nat) = 0 /\ Node.y (Heap.get apartHeap 0%nat) = 0
  /\ Node.x (Heap.get apartHeap 1%nat) = 200 /\ Node.y (Heap.get apartHeap 1%nat) = 0.
Proof. repeat split; reflexivity. Qed.


Section MidpointBinary64.

Import PrimFloat.


End MidpointBinary64.


Lemma hypot_nonneg a b : 0 <= JS.hypot a b.
Proof. unfold JS.hypot. apply sqrt_pos. Qed.






(** ** Coincident points *)















Section CoincidentBinary64.

Import PrimFloat.


End CoincidentBinary64.
(** ** The gravity phase of a step *)

Lemma forEach_frame {A} (body : A -> Heap.t -> option Heap.t) (l : list A) (i : Ref) :
  (forall v h h', In v l -> body v h = Some h' -> Heap.get h' i = Heap.get h i) ->
  forall h h', Heap.forEach body l h = Some h' -> Heap.get h' i = Heap.get h i.
Proof.
  intros Hbody.
  apply (forEach_rel (fun h h' => Heap.get h' i = Heap.get h i)); auto.
  intros; congruence.
Qed.

(** The gravity loop calls [applyForce] once on every node of a list of
    distinct nodes, with the force gravity times the mass of the node. *)
Lemma applyGravity_at (m : Mesh.t) (l : list Ref) (i : Ref) :
  NoDup l -> In i l ->
  forall h h',
    Heap.forEach
      (fun node h =>
         n <- Node.applyForce (Mesh.gravity_x m * Node.mass (Heap.get h node))
                              (Mesh.gravity_y m * Node.mass (Heap.get h node))
                              (Heap.get h node) ;;
         Some (Heap.set h node n))
      l h = Some h' ->
    Node.applyForce (Mesh.gravity_x m * Node.mass (Heap.get h i))
                    (Mesh.gravity_y m * Node.mass (Heap.get h i))
                    (Heap.get h i)
    = Some (Heap.get h' i).
Proof.
  induction 1 as [|v l Hv Hnd IH]; simpl; [easy|]. intros Hi h h'.
  destruct (Node.applyForce _ _ (Heap.get h v)) as [n|] eqn:E; [|discriminate].
  intros H. destruct Hi as [->|Hi].
  - assert (Hf : Heap.get h' i = Heap.get (Heap.set h i n) i).
    { eapply forEach_frame; [|exact H].
      intros w g g' Hw. cbv beta.
      destruct (Node.applyForce _ _ (Heap.get g w)); [|discriminate].
      intros [= <-]. apply get_set_other. intros ->. contradiction. }
    rewrite Hf, get_set_same. exact E.
  - rewrite <- (IH Hi _ _ H). rewrite get_set_other by (intros ->; contradiction).
    reflexivity.
Qed.



(** The triangle of the demo: three nodes of mass 15 under the gravity
    (0, 175). *)
Lemma triangle_massive : massive triangle triangleHeap.
Proof.
  intros n Hn. change (In n [0; 1; 2]%nat) in Hn.
  destruct Hn as [<-|[<-|[<-|[]]]]; change (15 <> 0); lra.
Qed.



Section GravityBinary64.

Import PrimFloat.


End GravityBinary64.

(** ** The crossing check *)

Lemma lineIntersection_crosses p1x p1y p2x p2y p3x p3y p4x p4y :
  exists i,
    Mesh._lineIntersection p1x p1y p2x p2y p3x p3y p4x p4y
    = Some (if crosses p1x p1y p2x p2y p3x p3y p4x p4y then Some i else None).
Proof.
  unfold Mesh._lineIntersection, crosses. cbv zeta.
  set (denom := _ - _).
  unfold JS.ltb. destruct (Rlt_dec (Rabs denom) JS.eps10) as [|Hge].
  { exists (Mesh.mkIntersection 0 0 0 0). reflexivity. }
  assert (Hd : denom <> 0).
  { intros E. apply Hge. rewrite E, Rabs_R0. apply eps10_pos. }
  rewrite !div_defined by assumption.
  eexists. destruct (_ && _); reflexivity.
Qed.

Lemma wouldLinkCross_loop_defined h a b ls :
  exists r, Mesh.wouldLinkCross_loop h a b ls = Some r.
Proof.
  induction ls as [|link ls IH]; simpl; [eauto|].
  destruct (_ || _)%bool; [exact IH|].
  match goal with
  | |- context [Mesh._lineIntersection ?ax ?ay ?bx ?by_ ?cx ?cy ?dx ?dy] =>
      destruct (lineIntersection_crosses ax ay bx by_ cx cy dx dy) as [i ->]
  end.
  destruct (crosses _ _ _ _ _ _ _ _); eauto.
Qed.







Section CrossingBinary64.

Import PrimFloat.


End CrossingBinary64.

(** The other diagonal of the square crosses the link; a segment from an
    endpoint of the link does not count. *)
Example square_diagonal_crosses :
  Mesh.wouldLinkCross 2%nat 3%nat squareMesh squareHeap = Some true
  /\ Mesh.wouldLinkCross 0%nat 2%nat squareMesh squareHeap = Some false.
Proof.
  assert (Hc : crosses 0 10 10 0 0 0 10 10 = true).
  { unfold crosses. cbv zeta.
    replace ((0 - 10) * (0 - 10) - (10 - 0) * (0 - 10)) with 200 by ring.
    replace (((0 - 0) * (0 - 10) - (10 - 0) * (0 - 10)) / 200) with (/ 2) by field.
    replace (- ((0 - 10) * (10 - 0) - (10 - 0) * (0 - 0)) / 200) with (/ 2) by field.
    rewrite Rabs_pos_eq by lra.
    unfold JS.ltb, JS.geb, JS.leb.
    destruct (Rlt_dec 200 JS.eps10) as [H|_].
    { exfalso. unfold JS.eps10 in H. lra. }
    destruct (Rle_dec 0 (/ 2)) as [_|H]; [|exfalso; lra].
    destruct (Rle_dec (/ 2) 1) as [_|H]; [|exfalso; lra].
    reflexivity. }
  assert (H23 : Mesh.wouldLinkCross 2%nat 3%nat squareMesh squareHeap = Some true).
  { unfold Mesh.wouldLinkCross.
    change (Mesh.links squareMesh) with [Link.new squareHeap 0%nat 1%nat 0.25 0.95].
    cbn [Mesh.wouldLinkCross_loop Link.new Link.a Link.b Nat.eqb orb].
    change (Node.x (Heap.get squareHeap 2%nat)) with 0.
    change (Node.y (Heap.get squareHeap 2%nat)) with 10.
    change (Node.x (Heap.get squareHeap 3%nat)) with 10.
    change (Node.y (Heap.get squareHeap 3%nat)) with 0.
    change (Node.x (Heap.get squareHeap 0%nat)) with 0.
    change (Node.y (Heap.get squareHeap 0%nat)) with 0.
    change (Node.x (Heap.get squareHeap 1%nat)) with 10.
    change (Node.y (Heap.get squareHeap 1%nat)) with 10.
    destruct (lineIntersection_crosses 0 10 10 0 0 0 10 10) as [i ->].
    now rewrite Hc. }
  split; [exact H23|reflexivity].
Qed.

(** ** The sort of the language, on keys *)

Section SortByKey.

Variable A : Type.
Variable key : A -> R.

Let byKey (a b : A) : R := key a - key b.

Lemma insert_perm v l : Permutation (JS.insert byKey v l) (v :: l).
Proof.
  induction l as [|w l IH]; simpl; [apply Permutation_refl|].
  destruct (JS.leb (byKey v w) 0); [apply Permutation_refl|].
  eapply perm_trans; [apply perm_skip, IH|apply perm_swap].
Qed.

Lemma sort_perm l : Permutation (JS.sort byKey l) l.
Proof.
  induction l as [|v l IH]; simpl; [constructor|].
  eapply perm_trans; [apply insert_perm|]. now apply perm_skip.
Qed.

Lemma leb_byKey v w : JS.leb (byKey v w) 0 = true <-> key v <= key w.
Proof.
  unfold JS.leb, byKey. destruct (Rle_dec (key v - key w) 0); split; intros;
    try reflexivity; try discriminate; lra.
Qed.

Lemma insert_sorted v l :
  StronglySorted (fun a b => key a <= key b) l ->
  StronglySorted (fun a b => key a <= key b) (JS.insert byKey v l).
Proof.
  induction 1 as [|w l Hl IH Hw]; simpl.
  - constructor; constructor.
  - destruct (JS.leb (byKey v w) 0) eqn:E.
    + apply leb_byKey in E. constructor; [now constructor|].
      constructor; [assumption|].
      eapply Forall_impl; [|exact Hw]. simpl. intros; lra.
    + assert (Hwv : key w <= key v).
      { destruct (Rle_dec (key v) (key w)) as [Hle|]; [|lra].
        apply leb_byKey in Hle. congruence. }
      constructor; [assumption|].
      eapply Permutation_Forall; [apply Permutation_sym, insert_perm|].
      now constructor.
Qed.

Lemma sort_sorted l : StronglySorted (fun a b => key a <= key b) (JS.sort byKey l).
Proof.
  induction l as [|v l IH]; simpl; [constructor|]. now apply insert_sorted.
Qed.

(** The sort is stable: the elements with one key stay in their order. *)
Lemma insert_stable d v l :
  filter (hasKey key d) (JS.insert byKey v l) = filter (hasKey key d) (v :: l).
Proof.
  induction l as [|w l IH]; [reflexivity|].
  simpl JS.insert. destruct (JS.leb (byKey v w) 0) eqn:E; [reflexivity|].
  assert (Hwv : key w < key v).
  { destruct (Rle_dec (key v) (key w)) as [Hle|]; [|lra].
    apply leb_byKey in Hle. congruence. }
  change (filter (hasKey key d) (w :: JS.insert byKey v l))
    with (if hasKey key d w then w :: filter (hasKey key d) (JS.insert byKey v l)
          else filter (hasKey key d) (JS.insert byKey v l)).
  rewrite IH. simpl filter.
  destruct (hasKey key d w) eqn:Ew, (hasKey key d v) eqn:Ev; try reflexivity.
  exfalso. unfold hasKey in Ew, Ev.
  destruct (Req_dec_T (key w) d), (Req_dec_T (key v) d); try discriminate. lra.
Qed.

Lemma sort_stable d l : filter (hasKey key d) (JS.sort byKey l) = filter (hasKey key d) l.
Proof.
  induction l as [|v l IH]; [reflexivity|].
  simpl JS.sort. rewrite insert_stable. simpl. now rewrite IH.
Qed.

(** In a sorted list, what [firstn] takes is below what it leaves. *)
Lemma sorted_firstn_skipn k l :
  StronglySorted (fun a b => key a <= key b) l ->
  forall a b, In a (firstn k l) -> In b (skipn k l) -> key a <= key b.
Proof.
  intros Hl. revert k. induction Hl as [|w l Hl IH Hw]; intros k a b.
  - rewrite firstn_nil. easy.
  - destruct k as [|k]; simpl; [easy|].
    intros [<-|Ha] Hb.
    + rewrite Forall_forall in Hw. apply Hw.
      rewrite <- (firstn_skipn k l). apply in_or_app. now right.
    + now apply (IH k).
Qed.

Lemma sorted_firstn k l :
  StronglySorted (fun a b => key a <= key b) l ->
  StronglySorted (fun a b => key a <= key b) (firstn k l).
Proof.
  intros Hl. revert k. induction Hl as [|w l Hl IH Hw]; intros k.
  - rewrite firstn_nil. constructor.
  - destruct k as [|k]; simpl; constructor; [apply IH|].
    rewrite Forall_forall in *. intros c Hc. apply Hw.
    rewrite <- (firstn_skipn k l). apply in_or_app. now left.
Qed.

End SortByKey.

Lemma sort_map {A B} (g : A -> B) (cmpA : A -> A -> R) (cmpB : B -> B -> R) :
  (forall a b, cmpB (g a) (g b) = cmpA a b) ->
  forall l, JS.sort cmpB (map g l) = map g (JS.sort cmpA l).
Proof.
  intros Hg.
  assert (Hins : forall v l, JS.insert cmpB (g v) (map g l) = map g (JS.insert cmpA v l)).
  { intros v l. induction l as [|w l IH]; simpl; [reflexivity|].
    rewrite Hg. destruct (JS.leb (cmpA v w) 0); simpl; [reflexivity|]. now rewrite IH. }
  induction l as [|v l IH]; simpl; [reflexivity|]. now rewrite IH, Hins.
Qed.

Lemma slice0_map {A B} (g : A -> B) count l :
  JS.slice0 count (map g l) = map g (JS.slice0 count l).
Proof. unfold JS.slice0. rewrite length_map. apply firstn_map. Qed.

Lemma slice0_firstn {A} count (l : list A) :
  (0 <= count)%Z -> JS.slice0 count l = firstn (Z.to_nat count) l.
Proof.
  intros Hc. unfold JS.slice0.
  destruct (Z.ltb_spec count 0) as [|_]; [lia|].
  destruct (Z.le_ge_cases count (Z.of_nat (length l))) as [Hle|Hge].
  - now rewrite Z.min_l.
  - rewrite Z.min_r by assumption. rewrite Nat2Z.id.
    rewrite firstn_all. symmetry. apply firstn_all2. lia.
Qed.

(** [getNearestNodes] sorts the nodes by their squared distance and keeps a
    prefix. *)
Lemma getNearestNodes_sorted_prefix x y count m h :
  Mesh.getNearestNodes x y count m h
  = JS.slice0 count
      (JS.sort (fun a b => distanceSquaredTo h x y a - distanceSquaredTo h x y b)
               (Mesh.nodes m)).
Proof.
  unfold Mesh.getNearestNodes.
  rewrite (sort_map
             (fun n => Mesh.mkCandidate n ((Node.x (Heap.get h n) - x) ^ 2
                                           + (Node.y (Heap.get h n) - y) ^ 2))
             (fun a b => distanceSquaredTo h x y a - distanceSquaredTo h x y b)).
  2:{ intros a b. reflexivity. }
  rewrite slice0_map, map_map. simpl. apply map_id.
Qed.

(** C9. For a count that is not negative, [getNearestNodes] returns
    [min count (number of nodes)] nodes, in ascending order of their squared
    distance to the point; they are the nearest ones (every node left out is
    at least as far as every node returned); among the nodes at one distance
    the order of the [nodes] array is kept, also where the result is cut; and
    a count above the number of nodes returns all the nodes. *)
Theorem getNearestNodes_nearest (x y : R) (count : Z) (m : Mesh.t) (h : Heap.t) :
  (0 <= count)%Z ->
  length (Mesh.getNearestNodes x y count m h)
  = Nat.min (Z.to_nat count) (length (Mesh.nodes m))
  /\ StronglySorted (fun a b => distanceSquaredTo h x y a <= distanceSquaredTo h x y b)
       (Mesh.getNearestNodes x y count m h)
  /\ (exists others,
        Permutation (Mesh.getNearestNodes x y count m h ++ others) (Mesh.nodes m)
        /\ forall a b, In a (Mesh.getNearestNodes x y count m h) -> In b others ->
                       distanceSquaredTo h x y a <= distanceSquaredTo h x y b)
  /\ (forall d, exists later,
        filter (atDistance h x y d) (Mesh.getNearestNodes x y count m h) ++ later
        = filter (atDistance h x y d) (Mesh.nodes m))
  /\ ((Z.of_nat (length (Mesh.nodes m)) <= count)%Z ->
      Permutation (Mesh.getNearestNodes x y count m h) (Mesh.nodes m)).
Proof.
  intros Hc.
  rewrite getNearestNodes_sorted_prefix, slice0_firstn by exact Hc.
  set (key := distanceSquaredTo h x y).
  set (sorted := JS.sort (fun a b => key a - key b) (Mesh.nodes m)).
  pose proof (sort_perm _ key (Mesh.nodes m)) as Hperm. fold sorted in Hperm.
  pose proof (sort_sorted _ key (Mesh.nodes m)) as Hsorted. fold sorted in Hsorted.
  split; [|split; [|split; [|split]]].
  - rewrite length_firstn. now rewrite (Permutation_length Hperm).
  - now apply sorted_firstn.
  - exists (skipn (Z.to_nat count) sorted). split.
    + now rewrite firstn_skipn.
    + now apply sorted_firstn_skipn.
  - intros d. exists (filter (atDistance h x y d) (skipn (Z.to_nat count) sorted)).
    rewrite <- filter_app, firstn_skipn.
    apply (sort_stable _ key d (Mesh.nodes m)).
  - intros Hall. rewrite firstn_all2; [exact Hperm|].
    rewrite (Permutation_length Hperm). lia.
Qed.

Lemma getNearestNodes_nearest_witness :
  (0 <= 5)%Z
  /\ length (Mesh.getNearestNodes 0 0 5 triangle triangleHeap) = 3%nat
  /\ Permutation (Mesh.getNearestNodes 0 0 5 triangle triangleHeap) (Mesh.nodes triangle).
Proof.
  split; [lia|].
  destruct (getNearestNodes_nearest 0 0 5 triangle triangleHeap ltac:(lia))
    as (Hlen & _ & _ & _ & Hall).
  split; [exact Hlen|]. apply Hall. simpl. lia.
Defined.

(** Decide the comparisons [JS.leb a b] of the goal, between numbers. *)
Ltac decide_leb :=
  repeat match goal with
         | |- context [JS.leb ?a ?b] =>
             let H := fresh in
             first
               [ assert (H : JS.leb a b = true)
                   by (unfold JS.leb; destruct (Rle_dec a b); [reflexivity|exfalso; lra]);
                 rewrite H; clear H
               | assert (H : JS.leb a b = false)
                   by (unfold JS.leb; destruct (Rle_dec a b); [exfalso; lra|reflexivity]);
                 rewrite H; clear H ]
         end.

(** In the square, seen from the corner (0, 0): the node 0 at distance 0, the
    nodes 2 and 3 at the squared distance 100, in the order of the array, then
    the node 1.  Seen from the center, the four nodes tie and keep their
    order. *)
Example square_nearest :
  Mesh.getNearestNodes 0 0 3 squareMesh squareHeap = [0; 2; 3]%nat
  /\ Mesh.getNearestNodes 0 0 7 squareMesh squareHeap = [0; 2; 3; 1]%nat
  /\ Mesh.getNearestNodes 5 5 2 squareMesh squareHeap = [0; 1]%nat.
Proof.
  assert (Hs : forall x y d0 d1 d2 d3,
             (0 - x) ^ 2 + (0 - y) ^ 2 = d0 -> (10 - x) ^ 2 + (10 - y) ^ 2 = d1 ->
             (0 - x) ^ 2 + (10 - y) ^ 2 = d2 -> (10 - x) ^ 2 + (0 - y) ^ 2 = d3 ->
             forall count,
               Mesh.getNearestNodes x y count squareMesh squareHeap
               = map Mesh.node
                   (JS.slice0 count
                      (JS.sort (fun a b => Mesh.distanceSquared a - Mesh.distanceSquared b)
                         [Mesh.mkCandidate 0%nat d0; Mesh.mkCandidate 1%nat d1;
                          Mesh.mkCandidate 2%nat d2; Mesh.mkCandidate 3%nat d3]))).
  { intros x y d0 d1 d2 d3 <- <- <- <- count. reflexivity. }
  split; [|split].
  - rewrite (Hs 0 0 0 200 100 100) by ring.
    repeat (progress (cbn [JS.sort JS.insert Mesh.distanceSquared]; decide_leb)).
    reflexivity.
  - rewrite (Hs 0 0 0 200 100 100) by ring.
    repeat (progress (cbn [JS.sort JS.insert Mesh.distanceSquared]; decide_leb)).
    reflexivity.
  - rewrite (Hs 5 5 50 50 50 50) by ring.
    repeat (progress (cbn [JS.sort JS.insert Mesh.distanceSquared]; decide_leb)).
    reflexivity.
Qed.

(** ** The invariant of the mesh *)

Lemma or_default_nonzero opt dflt : dflt <> 0 -> JS.or_default opt dflt <> 0.
Proof.
  intros Hd. unfold JS.or_default, JS.or.
  destruct opt as [v|]; [|assumption].
  destruct (Req_dec_T v 0); assumption.
Qed.

Lemma new_wellFormed config : wellFormed (Mesh.new config) Heap.empty.
Proof.
  unfold wellFormed, massive; simpl. repeat split; try easy.
  - constructor.
  - apply or_default_nonzero. lra.
Qed.

(** [createNode] hands out a reference that no node of the mesh has, with a
    mass that is not zero. *)
Lemma createNode_wellFormed x y options m h :
  wellFormed m h ->
  wellFormed (snd (fst (Mesh.createNode x y options m h)))
             (snd (Mesh.createNode x y options m h)).
Proof.
  intros (Hnd & Hlt & Hm & Hd).
  unfold Mesh.createNode, Heap.alloc. cbv zeta. simpl fst. simpl snd.
  unfold wellFormed, massive. simpl.
  repeat split.
  - apply NoDup_app; [assumption|repeat constructor; simpl; tauto|].
    intros n Hn [<-|[]]. apply Hlt in Hn. lia.
  - intros n Hn. apply in_app_or in Hn as [Hn|[<-|[]]]; [apply Hlt in Hn|]; lia.
  - intros n Hn. unfold Heap.get; simpl.
    destruct (Nat.eqb_spec n (Heap.next h)) as [->|Hne].
    + destruct (Mesh.opt_initialVelocity options); simpl;
        now apply or_default_nonzero.
    + apply in_app_or in Hn as [Hn|[<-|[]]]; [now apply Hm|congruence].
  - exact Hd.
Qed.

Lemma removeNode_defaultNodeMass node m :
  Mesh.defaultNodeMass (Mesh.removeNode node m) = Mesh.defaultNodeMass m.
Proof.
  revert node m.
  apply (removeNode_preorder
           (fun m m' => Mesh.defaultNodeMass m' = Mesh.defaultNodeMass m));
    [reflexivity|congruence|reflexivity].
Qed.

Lemma removeNode_wellFormed node m h :
  wellFormed m h -> wellFormed (Mesh.removeNode node m) h.
Proof.
  intros (Hnd & Hlt & Hm & Hd).
  pose proof (removeNode_fuel_shrinks _ _ _ _ (removeNode_run node m)) as (_ & _ & N & D).
  unfold wellFormed, massive. repeat split; auto.
  now rewrite removeNode_defaultNodeMass.
Qed.

Lemma forEach_sameNext {A} (body : A -> Heap.t -> option Heap.t) (l : list A) :
  (forall v h h', body v h = Some h' -> sameNext h h') ->
  forall h h', Heap.forEach body l h = Some h' -> sameNext h h'.
Proof.
  intros Hbody. apply forEach_rel; unfold sameNext.
  - reflexivity.
  - congruence.
  - intros v h h' _. apply Hbody.
Qed.

Ltac same_next :=
  unfold sameNext;
  repeat match goal with
         | |- context [match ?c with _ => _ end] => destruct c
         end;
  intros; try discriminate;
  repeat match goal with H : Some _ = Some _ |- _ => injection H as <- end;
  try reflexivity.

Lemma Link_satisfy_sameNext l h h' : Link.satisfy l h = Some h' -> sameNext h h'.
Proof. unfold Link.satisfy. same_next. Qed.

Lemma AngleConstraint_satisfy_sameNext k h h' :
  AngleConstraint.satisfy k h = Some h' -> sameNext h h'.
Proof. unfold AngleConstraint.satisfy. same_next. Qed.

Lemma pushNodeFromPoint_sameNext node px py strength h h' :
  Mesh._pushNodeFromPoint node px py strength h = Some h' -> sameNext h h'.
Proof. unfold Mesh._pushNodeFromPoint. same_next. Qed.

Lemma pushLinksApart_sameNext m link1 link2 i h h' :
  Mesh._pushLinksApart m link1 link2 i h = Some h' -> sameNext h h'.
Proof.
  unfold Mesh._pushLinksApart.
  destruct (JS.gtb _ _); [|now intros [= <-]].
  destruct (Mesh._pushNodeFromPoint (Link.a link1) _ _ _ h) as [h1|] eqn:E1; [|discriminate].
  destruct (Mesh._pushNodeFromPoint (Link.b link1) _ _ _ h1) as [h2|] eqn:E2; [|discriminate].
  destruct (Mesh._pushNodeFromPoint (Link.a link2) _ _ _ h2) as [h3|] eqn:E3; [|discriminate].
  intros E4. apply pushNodeFromPoint_sameNext in E1, E2, E3, E4.
  unfold sameNext in *. congruence.
Qed.

Lemma preventLinkCrossings_sameNext m h h' :
  Mesh._preventLinkCrossings m h = Some h' -> sameNext h h'.
Proof.
  unfold Mesh._preventLinkCrossings. revert h.
  induction (Mesh.links m) as [|link1 ls IH]; simpl; intros h.
  { now intros [= <-]. }
  destruct (Heap.forEach _ ls h) as [h1|] eqn:E; [|discriminate].
  intros H. apply IH in H. apply forEach_sameNext in E.
  - unfold sameNext in *. congruence.
  - intros v g g'. unfold Mesh.preventCrossing.
    destruct (_ || _)%bool; [now intros [= <-]|].
    destruct (Mesh._lineIntersection _ _ _ _ _ _ _ _) as [[i|]|]; [| |discriminate].
    + apply pushLinksApart_sameNext.
    + now intros [= <-].
Qed.

Lemma step_sameNext dt m h h' : Mesh.step dt m h = Some h' -> sameNext h h'.
Proof.
  unfold Mesh.step.
  destruct (Mesh.applyGravity m h) as [h1|] eqn:E1; [|discriminate].
  destruct (Heap.forEach _ (Mesh.nodes m) h1) as [h2|] eqn:E2; [|discriminate].
  intros E3.
  apply forEach_sameNext in E1; [|intros v g g'; same_next].
  apply forEach_sameNext in E2; [|intros v g g'; same_next].
  assert (H3 : sameNext h2 h').
  { revert E3. apply times_rel; unfold sameNext; [reflexivity|congruence|].
    intros g g'. unfold Mesh.solve.
    destruct (Heap.forEach _ (Mesh.nodes m) g) as [g1|] eqn:F1; [|discriminate].
    destruct (Heap.forEach _ (Mesh.nodes m) g1) as [g2|] eqn:F2; [|discriminate].
    destruct (Mesh._preventLinkCrossings m g2) as [g3|] eqn:F3; [|discriminate].
    destruct (Heap.forEach Link.satisfy _ g3) as [g4|] eqn:F4; [|discriminate].
    destruct (Heap.forEach AngleConstraint.satisfy _ g4) as [g5|] eqn:F5; [|discriminate].
    intros F6.
    apply forEach_sameNext in F1; [|intros v k k'; same_next].
    apply forEach_sameNext in F2; [|intros v k k'; same_next].
    apply preventLinkCrossings_sameNext in F3, F6.
    apply forEach_sameNext in F4; [|apply Link_satisfy_sameNext].
    apply forEach_sameNext in F5; [|apply AngleConstraint_satisfy_sameNext].
    unfold sameNext in *. congruence. }
  unfold sameNext in *. congruence.
Qed.

Lemma step_wellFormed dt m h h' :
  Mesh.step dt m h = Some h' -> wellFormed m h -> wellFormed m h'.
Proof.
  intros E (Hnd & Hlt & Hm & Hd).
  pose proof (step_sameNext _ _ _ _ E) as Hn. unfold sameNext in Hn.
  apply step_stepped in E. destruct E as [Hs _].
  unfold wellFormed. repeat split; auto.
  - intros n Hin. rewrite Hn. now apply Hlt.
  - eapply massive_stepped; eassumption.
Qed.

(** Every state that the operations of the mesh lead to is well formed: the
    nodes are distinct and no mass is zero. *)
Theorem reachable_wellFormed m h : reachable m h -> wellFormed m h.
Proof.
  induction 1 as [config | x y options m h _ IH | a b options m h _ IH
                 | a b c s m h _ IH | node m h _ IH | dt m h h' _ IH E].
  - apply new_wellFormed.
  - now apply createNode_wellFormed.
  - exact IH.
  - exact IH.
  - now apply removeNode_wellFormed.
  - eapply step_wellFormed; eassumption.
Qed.

(** * Further properties of the mesh *)

(** ** Comparisons *)

Lemma ltb_true a b : JS.ltb a b = true <-> a < b.
Proof. unfold JS.ltb. destruct (Rlt_dec a b); split; intros; try easy; lra. Qed.

Lemma ltb_false a b : JS.ltb a b = false <-> b <= a.
Proof. unfold JS.ltb. destruct (Rlt_dec a b); split; intros; try easy; lra. Qed.

Lemma leb_true a b : JS.leb a b = true <-> a <= b.
Proof. unfold JS.leb. destruct (Rle_dec a b); split; intros; try easy; lra. Qed.

Lemma leb_false a b : JS.leb a b = false <-> b < a.
Proof. unfold JS.leb. destruct (Rle_dec a b); split; intros; try easy; lra. Qed.

Lemma gtb_true a b : JS.gtb a b = true <-> b < a.
Proof. apply ltb_true. Qed.

Lemma gtb_false a b : JS.gtb a b = false <-> a <= b.
Proof. apply ltb_false. Qed.

Lemma geb_true a b : JS.geb a b = true <-> b <= a.
Proof. apply leb_true. Qed.

(** ** The intersection of two segments *)

(** [_lineIntersection] with its two quotients taken in the real numbers. *)
Lemma lineIntersection_eval p1x p1y p2x p2y p3x p3y p4x p4y :
  let denom := (p1x - p2x) * (p3y - p4y) - (p1y - p2y) * (p3x - p4x) in
  let t := ((p1x - p3x) * (p3y - p4y) - (p1y - p3y) * (p3x - p4x)) / denom in
  let u := - ((p1x - p2x) * (p1y - p3y) - (p1y - p2y) * (p1x - p3x)) / denom in
  Mesh._lineIntersection p1x p1y p2x p2y p3x p3y p4x p4y
  = Some (if JS.ltb (Rabs denom) JS.eps10 then None
          else if JS.geb t 0 && JS.leb t 1 && JS.geb u 0 && JS.leb u 1
               then Some (Mesh.mkIntersection (p1x + t * (p2x - p1x))
                                              (p1y + t * (p2y - p1y)) t u)
               else None).
Proof.
  intros denom t u. unfold Mesh._lineIntersection. cbv zeta. fold denom.
  destruct (JS.ltb (Rabs denom) JS.eps10) eqn:Hg; [reflexivity|].
  assert (Hd : denom <> 0).
  { intros E. apply ltb_false in Hg. rewrite E, Rabs_R0 in Hg.
    pose proof eps10_pos. lra. }
  rewrite !div_defined by exact Hd. fold t u.
  destruct (_ && _); reflexivity.
Qed.

(** The test does not depend on which segment comes first: exchanging the two
    segments exchanges the parameters [t] and [u], and [null] stays
    [null]. *)
Theorem lineIntersection_exchange (p1x p1y p2x p2y p3x p3y p4x p4y : R) :
  (forall i,
     Mesh._lineIntersection p1x p1y p2x p2y p3x p3y p4x p4y = Some (Some i) ->
     exists j,
       Mesh._lineIntersection p3x p3y p4x p4y p1x p1y p2x p2y = Some (Some j)
       /\ Mesh.it j = Mesh.iu i /\ Mesh.iu j = Mesh.it i)
  /\ (Mesh._lineIntersection p1x p1y p2x p2y p3x p3y p4x p4y = Some None ->
      Mesh._lineIntersection p3x p3y p4x p4y p1x p1y p2x p2y = Some None).
Proof.
  rewrite (lineIntersection_eval p3x p3y p4x p4y p1x p1y p2x p2y).
  rewrite (lineIntersection_eval p1x p1y p2x p2y p3x p3y p4x p4y).
  cbv zeta.
  set (denom := (p1x - p2x) * (p3y - p4y) - (p1y - p2y) * (p3x - p4x)).
  replace ((p3x - p4x) * (p1y - p2y) - (p3y - p4y) * (p1x - p2x)) with (- denom)
    by (subst denom; ring).
  rewrite Rabs_Ropp.
  destruct (JS.ltb (Rabs denom) JS.eps10) eqn:Hg.
  { split; [discriminate|reflexivity]. }
  assert (Hd : denom <> 0).
  { intros E. apply ltb_false in Hg. rewrite E, Rabs_R0 in Hg.
    pose proof eps10_pos. lra. }
  set (t := ((p1x - p3x) * (p3y - p4y) - (p1y - p3y) * (p3x - p4x)) / denom).
  set (u := - ((p1x - p2x) * (p1y - p3y) - (p1y - p2y) * (p1x - p3x)) / denom).
  replace (((p3x - p1x) * (p1y - p2y) - (p3y - p1y) * (p1x - p2x)) / - denom)
    with u by (subst u denom; field; exact Hd).
  replace (- ((p3x - p4x) * (p3y - p1y) - (p3y - p4y) * (p3x - p1x)) / - denom)
    with t by (subst t denom; field; exact Hd).
  replace (JS.geb u 0 && JS.leb u 1 && JS.geb t 0 && JS.leb t 1)
    with (JS.geb t 0 && JS.leb t 1 && JS.geb u 0 && JS.leb u 1)
    by (destruct (JS.geb t 0), (JS.leb t 1), (JS.geb u 0), (JS.leb u 1); reflexivity).
  destruct (_ && _); [|split; [discriminate|reflexivity]].
  split; [|discriminate].
  intros i [= <-]. eexists. split; [reflexivity|]. simpl.
  split; reflexivity.
Qed.

(** ** Pushing a node away from a point *)


(** [_pushNodeFromPoint] always returns: its divisor is the distance to the
    point, with the floor 1e-6.  It changes no other node, it changes nothing
    when the node is pinned, and it leaves a node that is exactly at the
    point as it is. *)
Theorem pushNodeFromPoint_guarded (node : Ref) (px py strength : R) (h : Heap.t) :
  exists h',
    Mesh._pushNodeFromPoint node px py strength h = Some h'
    /\ (forall j, j <> node -> Heap.get h' j = Heap.get h j)
    /\ (Node.pinned (Heap.get h node) = true -> h' = h)
    /\ (Node.x (Heap.get h node) = px -> Node.y (Heap.get h node) = py ->
        Heap.get h' node = Heap.get h node).
Proof.
  unfold Mesh._pushNodeFromPoint.
  destruct (Node.pinned (Heap.get h node)) eqn:Hp.
  { exists h. repeat split; auto. }
  cbv zeta. rewrite !div_defined by apply or_eps6_nonzero.
  eexists. split; [reflexivity|]. split; [|split].
  - intros j Hj. now rewrite !get_update_other by exact Hj.
  - discriminate.
  - intros Hx Hy. rewrite !get_update_same.
    destruct (Heap.get h node) as [x y px0 py0 ax ay r mass pinned].
    simpl in Hx, Hy |- *. subst px py.
    unfold Node.set_y, Node.set_x. simpl. f_equal; unfold Rdiv; ring.
Qed.

(** ** Walls and ground *)

Lemma applyWallBounds_clamped m n :
  Node.pinned n = false ->
  Node.r (Mesh._applyWallBounds m n) = Node.r n
  /\ Node.x (Mesh._applyWallBounds m n) <= Mesh.bounds_width m - Node.r n
  /\ Node.r n <= Node.y (Mesh._applyWallBounds m n)
  /\ (Node.r n <= Mesh.bounds_width m - Node.r n ->
      Node.r n <= Node.x (Mesh._applyWallBounds m n)).
Proof.
  intros Hp. unfold Mesh._applyWallBounds. rewrite Hp. cbv zeta.
  destruct (JS.ltb (Node.x n) (Node.r n)) eqn:H1;
    [apply ltb_true in H1|apply ltb_false in H1]; simpl;
  match goal with |- context [JS.gtb ?a ?b] =>
    destruct (JS.gtb a b) eqn:H2; [apply gtb_true in H2|apply gtb_false in H2]
  end; simpl;
  destruct (JS.ltb (Node.y n) (Node.r n)) eqn:H3;
    try (apply ltb_true in H3); try (apply ltb_false in H3); simpl;
  repeat split; intros; lra.
Qed.

(** After [_applyWallBounds] a free node is inside the walls: at least its
    radius below the top, and between the left and the right wall when the
    world is wide enough for it; its radius is not changed. *)
Theorem applyWallBounds_inside (m : Mesh.t) (n : Node.t) :
  Node.pinned n = false ->
  Node.r (Mesh._applyWallBounds m n) = Node.r n
  /\ Node.x (Mesh._applyWallBounds m n) <= Mesh.bounds_width m - Node.r n
  /\ Node.r n <= Node.y (Mesh._applyWallBounds m n)
  /\ (Node.r n <= Mesh.bounds_width m - Node.r n ->
      Node.r n <= Node.x (Mesh._applyWallBounds m n)).
Proof. apply applyWallBounds_clamped. Qed.

Lemma applyWallBounds_inside_witness :
  Node.pinned (Node.new (-5) (-7) 8 15 false) = false
  /\ Node.x (Mesh._applyWallBounds (Mesh.new noConfig) (Node.new (-5) (-7) 8 15 false))
     <= Mesh.bounds_width (Mesh.new noConfig) - 8
  /\ 8 <= Node.y (Mesh._applyWallBounds (Mesh.new noConfig) (Node.new (-5) (-7) 8 15 false)).
Proof.
  split; [reflexivity|].
  destruct (applyWallBounds_inside (Mesh.new noConfig) (Node.new (-5) (-7) 8 15 false) eq_refl)
    as (_ & Hx & Hy & _).
  split; [exact Hx|exact Hy].
Defined.

(** A free node that is inside the walls is left as it is. *)
Lemma applyWallBounds_untouched m n :
  Node.r n <= Node.x n <= Mesh.bounds_width m - Node.r n ->
  Node.r n <= Node.y n ->
  Mesh._applyWallBounds m n = n.
Proof.
  intros [Hx1 Hx2] Hy. unfold Mesh._applyWallBounds.
  destruct (Node.pinned n); [reflexivity|].
  assert (E1 : JS.ltb (Node.x n) (Node.r n) = false) by (apply ltb_false; lra).
  rewrite E1.
  assert (E2 : JS.gtb (Node.x n) (Mesh.bounds_width m - Node.r n) = false)
    by (apply gtb_false; lra).
  rewrite E2.
  assert (E3 : JS.ltb (Node.y n) (Node.r n) = false) by (apply ltb_false; lra).
  now rewrite E3.
Qed.

Lemma applyWallBounds_pinned m n :
  Node.pinned (Mesh._applyWallBounds m n) = Node.pinned n.
Proof. apply applyWallBounds_solved. Qed.

(** In a world that is wide enough for the node, a second [_applyWallBounds]
    changes nothing: no position and no velocity. *)
Theorem applyWallBounds_idempotent (m : Mesh.t) (n : Node.t) :
  Node.r n <= Mesh.bounds_width m - Node.r n ->
  Mesh._applyWallBounds m (Mesh._applyWallBounds m n) = Mesh._applyWallBounds m n.
Proof.
  intros Hw.
  destruct (Node.pinned n) eqn:Hp.
  { unfold Mesh._applyWallBounds at 2. rewrite Hp.
    unfold Mesh._applyWallBounds. now rewrite Hp. }
  pose proof (applyWallBounds_clamped m n Hp) as Hin.
  destruct Hin as (Hr & Hx & Hy & Hx').
  apply applyWallBounds_untouched; rewrite Hr; auto.
Qed.

Lemma applyWallBounds_idempotent_witness :
  8 <= Mesh.bounds_width (Mesh.new noConfig) - 8
  /\ Mesh._applyWallBounds (Mesh.new noConfig)
       (Mesh._applyWallBounds (Mesh.new noConfig) (Node.new (-5) (-7) 8 15 false))
     = Mesh._applyWallBounds (Mesh.new noConfig) (Node.new (-5) (-7) 8 15 false).
Proof.
  assert (Hw : 8 <= Mesh.bounds_width (Mesh.new noConfig) - 8).
  { change (8 <= 800 - 8). lra. }
  split; [exact Hw|].
  exact (applyWallBounds_idempotent (Mesh.new noConfig) (Node.new (-5) (-7) 8 15 false) Hw).
Defined.

(** A node that does not penetrate the ground is left as it is. *)
Lemma applyGroundCollision_untouched m n :
  Node.y n <= Mesh.groundY m - Node.r n ->
  Mesh._applyGroundCollision m n = n.
Proof.
  intros Hy. unfold Mesh._applyGroundCollision.
  destruct (Node.pinned n); [reflexivity|]. cbv zeta.
  assert (E : JS.gtb (Node.y n - (Mesh.groundY m - Node.r n)) 0 = false)
    by (apply gtb_false; lra).
  now rewrite E.
Qed.

(** [_applyGroundCollision] puts a free node that penetrates the ground back
    on it and moves no other node up or down: the new [y] is the smaller of
    [y] and [groundY - r]; [x] is kept; and a second call changes nothing. *)
Theorem applyGroundCollision_rests (m : Mesh.t) (n : Node.t) :
  (Node.pinned n = false ->
   Node.y (Mesh._applyGroundCollision m n) = Rmin (Node.y n) (Mesh.groundY m - Node.r n))
  /\ Node.x (Mesh._applyGroundCollision m n) = Node.x n
  /\ Mesh._applyGroundCollision m (Mesh._applyGroundCollision m n)
     = Mesh._applyGroundCollision m n.
Proof.
  destruct (Node.pinned n) eqn:Hp.
  { unfold Mesh._applyGroundCollision. rewrite Hp. rewrite Hp.
    split; [discriminate|]. split; reflexivity. }
  destruct (JS.gtb (Node.y n - (Mesh.groundY m - Node.r n)) 0) eqn:Hg.
  - apply gtb_true in Hg.
    assert (Hy : Node.y (Mesh._applyGroundCollision m n) = Mesh.groundY m - Node.r n
                 /\ Node.r (Mesh._applyGroundCollision m n) = Node.r n
                 /\ Node.x (Mesh._applyGroundCollision m n) = Node.x n).
    { unfold Mesh._applyGroundCollision. rewrite Hp. cbv zeta.
      assert (E : JS.gtb (Node.y n - (Mesh.groundY m - Node.r n)) 0 = true)
        by (apply gtb_true; lra).
      rewrite E. clear E.
      destruct (JS.gtb (Node.y (Node.set_y n (Mesh.groundY m - Node.r n))
                        - Node.py (Node.set_y n (Mesh.groundY m - Node.r n))) 0);
        simpl; repeat split; reflexivity. }
    destruct Hy as (Hy & Hr & Hx).
    split; [|split].
    + intros _. rewrite Hy, Rmin_right; lra.
    + exact Hx.
    + apply applyGroundCollision_untouched. rewrite Hy, Hr. lra.
  - apply gtb_false in Hg.
    rewrite (applyGroundCollision_untouched m n) by lra.
    split; [|split].
    + intros _. rewrite Rmin_left; lra.
    + reflexivity.
    + apply applyGroundCollision_untouched. lra.
Qed.

(** After a contact with the ground, a free node is not heading down: with a
    restitution that is not negative, its implicit vertical velocity
    [y - py] is at most zero, and the node is on the ground. *)
Theorem applyGroundCollision_no_sinking (m : Mesh.t) (n : Node.t) :
  Node.pinned n = false ->
  0 <= Mesh.groundRestitution m ->
  Mesh.groundY m - Node.r n < Node.y n ->
  Node.y (Mesh._applyGroundCollision m n) = Mesh.groundY m - Node.r n
  /\ Node.y (Mesh._applyGroundCollision m n) - Node.py (Mesh._applyGroundCollision m n) <= 0.
Proof.
  intros Hp Hr Hy. unfold Mesh._applyGroundCollision. rewrite Hp. cbv zeta.
  assert (E : JS.gtb (Node.y n - (Mesh.groundY m - Node.r n)) 0 = true)
    by (apply gtb_true; lra).
  rewrite E. simpl.
  destruct (JS.gtb (Mesh.groundY m - Node.r n - Node.py n) 0) eqn:Hv;
    [apply gtb_true in Hv|apply gtb_false in Hv]; simpl.
  - split; [reflexivity|]. nra.
  - split; [reflexivity|]. lra.
Qed.

Lemma applyGroundCollision_no_sinking_witness :
  Node.pinned (Node.new 100 520 8 15 false) = false
  /\ 0 <= Mesh.groundRestitution (Mesh.new noConfig)
  /\ Mesh.groundY (Mesh.new noConfig) - 8 < 520
  /\ Node.y (Mesh._applyGroundCollision (Mesh.new noConfig) (Node.new 100 520 8 15 false))
     = Mesh.groundY (Mesh.new noConfig) - 8.
Proof.
  split; [reflexivity|].
  assert (Hr : 0 <= Mesh.groundRestitution (Mesh.new noConfig)).
  { change (0 <= 0.18). lra. }
  assert (Hy : Mesh.groundY (Mesh.new noConfig) - 8 < 520).
  { change (600 - 90 - 8 < 520). lra. }
  split; [exact Hr|]. split; [exact Hy|].
  exact (proj1 (applyGroundCollision_no_sinking (Mesh.new noConfig)
                  (Node.new 100 520 8 15 false) eq_refl Hr Hy)).
Defined.
(** ** Relaxation of the constraints *)

(** [AngleConstraint.satisfy] moves its two outer nodes and no other node (so
    never its center, unless the center is one of the outer nodes); and when
    one of the outer nodes is pinned it moves nothing at all, not even the
    free one. *)
Theorem angle_moves_only_outer_nodes (k : AngleConstraint.t) (h : Heap.t) :
  exists h',
    AngleConstraint.satisfy k h = Some h'
    /\ (forall i, i <> AngleConstraint.a k -> i <> AngleConstraint.c k ->
                  Heap.get h' i = Heap.get h i)
    /\ (Node.pinned (Heap.get h (AngleConstraint.a k)) = true
        \/ Node.pinned (Heap.get h (AngleConstraint.c k)) = true ->
        h' = h).
Proof.
  unfold AngleConstraint.satisfy. cbv zeta.
  rewrite div_defined by apply or_eps6_nonzero.
  destruct (Node.pinned (Heap.get h (AngleConstraint.a k))) eqn:Hpa; simpl.
  { exists h. repeat split; auto. }
  destruct (Node.pinned (Heap.get h (AngleConstraint.c k))) eqn:Hpc; simpl.
  { exists h. repeat split; auto. }
  eexists. split; [reflexivity|]. split.
  - intros i Hia Hic. now rewrite !get_update_other by assumption.
  - intros [H|H]; discriminate.
Qed.

(** ** Hit testing *)

(** [getNodeAt] returns the first node of the array whose disc contains the
    point, and [null] exactly when no node does. *)
Theorem getNodeAt_first (x y : R) (m : Mesh.t) (h : Heap.t) :
  (forall n, Mesh.getNodeAt x y m h = Some n ->
     exists before after,
       Mesh.nodes m = before ++ n :: after
       /\ covers h x y n
       /\ forall b, In b before -> ~ covers h x y b)
  /\ (Mesh.getNodeAt x y m h = None <->
      forall n, In n (Mesh.nodes m) -> ~ covers h x y n).
Proof.
  unfold Mesh.getNodeAt.
  induction (Mesh.nodes m) as [|v l [IHsome IHnone]]; simpl.
  { split; [discriminate|]. split; [easy|reflexivity]. }
  destruct (JS.leb _ (Node.r (Heap.get h v))) eqn:E.
  - apply leb_true in E. split.
    + intros n [= <-]. exists [], l. repeat split; [exact E|easy].
    + split; [discriminate|]. intros H. exfalso. apply (H v); [now left|exact E].
  - apply leb_false in E.
    assert (Hv : ~ covers h x y v) by (unfold covers; lra).
    split.
    + intros n Hn. destruct (IHsome n Hn) as (before & after & -> & Hc & Hb).
      exists (v :: before), after. repeat split; [exact Hc|].
      intros b [<-|Hin]; [exact Hv|now apply Hb].
    + rewrite IHnone. split.
      * intros H n [<-|Hin]; [exact Hv|now apply H].
      * intros H n Hin. apply H. now right.
Qed.

(** ** Creation *)

(** [createNode] returns an object that is none of the nodes of the mesh, puts
    it at the end of [nodes], at the given place, and leaves the links, the
    constraints and every other object as they are. *)
Theorem createNode_fresh (x y : R) (options : Mesh.NodeOptions) (m : Mesh.t) (h : Heap.t) :
  (forall n, In n (Mesh.nodes m) -> (n < Heap.next h)%nat) ->
  let ref := fst (fst (Mesh.createNode x y options m h)) in
  let m' := snd (fst (Mesh.createNode x y options m h)) in
  let h' := snd (Mesh.createNode x y options m h) in
  ~ In ref (Mesh.nodes m)
  /\ Mesh.nodes m' = Mesh.nodes m ++ [ref]
  /\ Mesh.links m' = Mesh.links m
  /\ Mesh.angleConstraints m' = Mesh.angleConstraints m
  /\ (forall j, j <> ref -> Heap.get h' j = Heap.get h j)
  /\ Node.x (Heap.get h' ref) = x /\ Node.y (Heap.get h' ref) = y
  /\ Node.ax (Heap.get h' ref) = 0 /\ Node.ay (Heap.get h' ref) = 0.
Proof.
  intros Hlt. unfold Mesh.createNode, Heap.alloc. cbv zeta. simpl fst. simpl snd.
  split; [|split; [|split; [|split; [|split]]]]; try reflexivity.
  - intros Hin. apply Hlt in Hin. lia.
  - intros j Hj. unfold Heap.get. simpl.
    now apply Nat.eqb_neq in Hj as ->.
  - unfold Heap.get. simpl. rewrite Nat.eqb_refl.
    destruct (Mesh.opt_initialVelocity options); simpl; repeat split; reflexivity.
Qed.

Lemma createNode_fresh_witness :
  (forall n, In n (Mesh.nodes triangle) -> (n < Heap.next triangleHeap)%nat)
  /\ ~ In (fst (fst (Mesh.createNode 1 2 (Mesh.mkNodeOptions None None None None)
                                     triangle triangleHeap)))
          (Mesh.nodes triangle).
Proof.
  assert (Hlt : forall n, In n (Mesh.nodes triangle) -> (n < Heap.next triangleHeap)%nat).
  { intros n Hn. change (In n [0; 1; 2]%nat) in Hn. change (n < 3)%nat.
    destruct Hn as [<-|[<-|[<-|[]]]]; lia. }
  split; [exact Hlt|].
  exact (proj1 (createNode_fresh 1 2 (Mesh.mkNodeOptions None None None None)
                  triangle triangleHeap Hlt)).
Defined.

(** [createNode] encodes the initial velocity in the previous position: the
    implicit velocity of the new node is the velocity given, and zero when
    none is given. *)
Theorem createNode_velocity (x y : R) (options : Mesh.NodeOptions) (m : Mesh.t) (h : Heap.t) :
  let ref := fst (fst (Mesh.createNode x y options m h)) in
  let h' := snd (Mesh.createNode x y options m h) in
  let v := match Mesh.opt_initialVelocity options with Some v => v | None => (0, 0) end in
  Node.x (Heap.get h' ref) - Node.px (Heap.get h' ref) = fst v
  /\ Node.y (Heap.get h' ref) - Node.py (Heap.get h' ref) = snd v.
Proof.
  unfold Mesh.createNode, Heap.alloc. cbv zeta. simpl fst. simpl snd.
  unfold Heap.get. simpl. rewrite Nat.eqb_refl.
  destruct (Mesh.opt_initialVelocity options) as [[vx vy]|]; simpl; split; ring.
Qed.





(** The arrays of the mesh after [createTriangle]. *)
Lemma createTriangle_shape centerX centerY size m h :
  exists l1 l2 l3 k1 k2 k3,
    Mesh.nodes (snd (fst (Mesh.createTriangle centerX centerY size m h)))
    = Mesh.nodes m ++ [Heap.next h; S (Heap.next h); S (S (Heap.next h))]
    /\ Mesh.links (snd (fst (Mesh.createTriangle centerX centerY size m h)))
       = Mesh.links m ++ [l1; l2; l3]
    /\ Mesh.angleConstraints (snd (fst (Mesh.createTriangle centerX centerY size m h)))
       = Mesh.angleConstraints m ++ [k1; k2; k3]
    /\ (Link.a l1 = Heap.next h /\ Link.b l1 = S (Heap.next h))
    /\ (Link.a l2 = S (Heap.next h) /\ Link.b l2 = S (S (Heap.next h)))
    /\ (Link.a l3 = S (S (Heap.next h)) /\ Link.b l3 = Heap.next h)
    /\ (AngleConstraint.a k1 = Heap.next h /\ AngleConstraint.b k1 = S (Heap.next h)
        /\ AngleConstraint.c k1 = S (S (Heap.next h)))
    /\ (AngleConstraint.a k2 = S (Heap.next h) /\ AngleConstraint.b k2 = S (S (Heap.next h))
        /\ AngleConstraint.c k2 = Heap.next h)
    /\ (AngleConstraint.a k3 = S (S (Heap.next h)) /\ AngleConstraint.b k3 = Heap.next h
        /\ AngleConstraint.c k3 = S (Heap.next h)).
Proof.
  unfold Mesh.createTriangle, Mesh.createNode, Heap.alloc,
    Mesh.createLink, Mesh.createAngleConstraint. simpl.
  do 6 eexists.
  split; [now rewrite <- !app_assoc|].
  split; [rewrite <- !app_assoc; simpl; reflexivity|].
  split; [rewrite <- !app_assoc; simpl; reflexivity|].
  simpl. repeat split; reflexivity.
Qed.

(** ** More on the cascading deletion *)

Lemma has_In ns n : has ns n = true <-> In n ns.
Proof.
  unfold has. rewrite existsb_exists. split.
  - intros (v & Hv & E). apply Nat.eqb_eq in E. now subst.
  - intros H. exists n. split; [exact H|apply Nat.eqb_refl].
Qed.

Lemma has_spliceOut ns node v :
  NoDup ns -> In v ns ->
  has (Mesh.spliceOut node ns) v = negb (Nat.eqb v node).
Proof.
  intros Hnd Hv. destruct (Nat.eqb_spec v node) as [->|Hne]; simpl.
  - destruct (has (Mesh.spliceOut node ns) node) eqn:E; [|reflexivity].
    apply has_In in E. exfalso. revert E. now apply spliceOut_gone.
  - apply has_In. now apply spliceOut_keeps.
Qed.

Lemma keepsAlive_refl m : keepsAlive m m.
Proof.
  intros [HL HK] Hnd. split; [now split|]. split; [exact Hnd|].
  split; [apply incl_refl|]. split; [|split; [|reflexivity]].
  - symmetry. apply filter_id. intros l Hl. destruct (HL l Hl) as [Ha Hb].
    unfold linkAlive. apply andb_true_iff. split; now apply has_In.
  - symmetry. apply filter_id. intros k Hk. destruct (HK k Hk) as (Ha & Hb & Hc).
    unfold constraintAlive. rewrite !andb_true_iff. repeat split; now apply has_In.
Qed.

Lemma filter_filter {A} (f g : A -> bool) l :
  filter f (filter g l) = filter (fun v => g v && f v) l.
Proof.
  induction l as [|v l IH]; simpl; [reflexivity|].
  destruct (g v); simpl; [destruct (f v)|]; now rewrite IH.
Qed.

Lemma keepsAlive_trans m1 m2 m3 : keepsAlive m1 m2 -> keepsAlive m2 m3 -> keepsAlive m1 m3.
Proof.
  intros H12 H23 Hc1 Hnd1.
  destruct (H12 Hc1 Hnd1) as (Hc2 & Hnd2 & N2 & L2 & K2 & P2).
  destruct (H23 Hc2 Hnd2) as (Hc3 & Hnd3 & N3 & L3 & K3 & P3).
  split; [exact Hc3|]. split; [exact Hnd3|].
  split; [eauto using incl_tran|]. split; [|split; [|congruence]].
  - rewrite L3, L2, filter_filter. apply filter_ext_in. intros l _.
    unfold linkAlive.
    destruct (has (Mesh.nodes m3) (Link.a l)) eqn:Ea;
      destruct (has (Mesh.nodes m3) (Link.b l)) eqn:Eb;
      rewrite ?andb_false_r; try reflexivity.
    apply has_In in Ea, Eb. apply N3 in Ea, Eb. apply has_In in Ea, Eb.
    now rewrite Ea, Eb.
  - rewrite K3, K2, filter_filter. apply filter_ext_in. intros k _.
    unfold constraintAlive.
    destruct (has (Mesh.nodes m3) (AngleConstraint.a k)) eqn:Ea;
      destruct (has (Mesh.nodes m3) (AngleConstraint.b k)) eqn:Eb;
      destruct (has (Mesh.nodes m3) (AngleConstraint.c k)) eqn:Ec;
      rewrite ?andb_false_r; try reflexivity.
    apply has_In in Ea, Eb, Ec. apply N3 in Ea, Eb, Ec. apply has_In in Ea, Eb, Ec.
    now rewrite Ea, Eb, Ec.
Qed.

Lemma keepsAlive_detach node m : keepsAlive m (detach node m).
Proof.
  intros Hc Hnd. destruct Hc as [HL HK].
  split; [apply closed_detach; now split|].
  split; [now apply spliceOut_NoDup|].
  split; [intros v Hv; eapply spliceOut_In; exact Hv|].
  split; [|split; [|reflexivity]].
  - unfold detach; simpl. apply filter_ext_in. intros l Hl.
    destruct (HL l Hl) as [Ha Hb]. unfold linkAlive; simpl.
    now rewrite !has_spliceOut.
  - unfold detach; simpl. apply filter_ext_in. intros k Hk.
    destruct (HK k Hk) as (Ha & Hb & Hc). unfold constraintAlive; simpl.
    now rewrite !has_spliceOut.
Qed.

(** [removeNode] takes away exactly what refers to a removed node: in a mesh
    with referential integrity and distinct nodes, the links and constraints
    that remain are those whose nodes all remain, in their order; the nodes
    that remain were nodes before; and no parameter of the mesh changes. *)
Theorem removeNode_keeps_alive (node : Ref) (m : Mesh.t) :
  closed m ->
  NoDup (Mesh.nodes m) ->
  incl (Mesh.nodes (Mesh.removeNode node m)) (Mesh.nodes m)
  /\ Mesh.links (Mesh.removeNode node m)
     = filter (linkAlive (Mesh.removeNode node m)) (Mesh.links m)
  /\ Mesh.angleConstraints (Mesh.removeNode node m)
     = filter (constraintAlive (Mesh.removeNode node m)) (Mesh.angleConstraints m)
  /\ parameters (Mesh.removeNode node m) = parameters m.
Proof.
  intros Hc Hnd.
  pose proof (removeNode_preorder keepsAlive keepsAlive_refl keepsAlive_trans
                keepsAlive_detach node m Hc Hnd) as (_ & _ & H).
  exact H.
Qed.

Lemma tetra_closed : closed tetra.
Proof.
  split; simpl.
  - intros l H. repeat (destruct H as [<-|H]; [simpl; intuition|]). destruct H.
  - intros k H. repeat (destruct H as [<-|H]; [simpl; intuition|]). destruct H.
Qed.

Lemma tetra_NoDup : NoDup (Mesh.nodes tetra).
Proof. simpl. repeat constructor; simpl; intuition discriminate. Qed.

Lemma removeNode_keeps_alive_witness :
  closed tetra /\ NoDup (Mesh.nodes tetra)
  /\ Mesh.links (Mesh.removeNode 0%nat tetra)
     = filter (linkAlive (Mesh.removeNode 0%nat tetra)) (Mesh.links tetra).
Proof.
  split; [exact tetra_closed|]. split; [exact tetra_NoDup|].
  exact (proj1 (proj2 (removeNode_keeps_alive 0%nat tetra tetra_closed tetra_NoDup))).
Defined.

(** [removeNode] removes the node: afterwards no link has it as an endpoint,
    no constraint refers to it, and it is not in [nodes] (the nodes of a mesh
    being distinct). *)
Theorem removeNode_removes (node : Ref) (m : Mesh.t) :
  (forall l, In l (Mesh.links (Mesh.removeNode node m)) ->
             Link.a l <> node /\ Link.b l <> node)
  /\ (forall k, In k (Mesh.angleConstraints (Mesh.removeNode node m)) ->
                AngleConstraint.a k <> node /\ AngleConstraint.b k <> node
                /\ AngleConstraint.c k <> node)
  /\ (NoDup (Mesh.nodes m) -> ~ In node (Mesh.nodes (Mesh.removeNode node m))).
Proof.
  destruct (removeNode_fuel_forgets _ _ _ _ (removeNode_run node m)) as (HL & HK & HN).
  split; [|split; [|exact HN]].
  - intros l Hl. apply HL in Hl. unfold touches in Hl.
    apply orb_false_elim in Hl as [Ha Hb]. apply Nat.eqb_neq in Ha, Hb. now split.
  - intros k Hk. apply HK in Hk. unfold uses in Hk.
    apply orb_false_elim in Hk as [Hk Hc]. apply orb_false_elim in Hk as [Ha Hb].
    apply Nat.eqb_neq in Ha, Hb, Hc. now repeat split.
Qed.

(** The recursion of [removeNode] ends: it is never deeper than the number of
    links plus one, and a larger bound gives the same mesh. *)
Theorem removeNode_terminates (node : Ref) (m : Mesh.t) (extra : nat) :
  Mesh.removeNode_fuel (S (length (Mesh.links m)) + extra) node m
  = Some (Mesh.removeNode node m).
Proof.
  induction extra as [|extra IH].
  - rewrite Nat.add_0_r. apply removeNode_run.
  - rewrite Nat.add_succ_r. apply removeNode_fuel_more. exact IH.
Qed.

(** Removing a node that has no link removes this node and the constraints
    that refer to it, and nothing else. *)
Theorem removeNode_unlinked (node : Ref) (m : Mesh.t) :
  linkCount m node = 0%nat ->
  Mesh.nodes (Mesh.removeNode node m) = Mesh.spliceOut node (Mesh.nodes m)
  /\ Mesh.links (Mesh.removeNode node m) = Mesh.links m
  /\ Mesh.angleConstraints (Mesh.removeNode node m)
     = filter (fun k => negb (uses node k)) (Mesh.angleConstraints m).
Proof.
  intros H0.
  assert (HL : forall l, In l (Mesh.links m) -> touches node l = false).
  { intros l Hl. destruct (touches node l) eqn:E; [|reflexivity].
    exfalso. unfold linkCount, Mesh.connectionCount in H0.
    apply length_zero_iff_nil in H0.
    assert (Hin : In l (filter (fun link => Nat.eqb (Link.a link) node
                                            || Nat.eqb (Link.b link) node)
                               (Mesh.links m))) by (apply filter_In; now split).
    rewrite H0 in Hin. destruct Hin. }
  pose proof (removeNode_run node m) as Hrun.
  rewrite removeNode_fuel_S, (connectedNodes_none node (Mesh.links m) HL) in Hrun.
  simpl in Hrun. injection Hrun as <-.
  split; [reflexivity|]. split.
  - rewrite detach_links. apply filter_id. intros l Hl. now rewrite (HL l Hl).
  - unfold detach; simpl. apply filter_ext. intros k. unfold uses.
    now rewrite !negb_orb.
Qed.

Lemma removeNode_unlinked_witness :
  linkCount pinnedMesh 0%nat = 0%nat
  /\ Mesh.nodes (Mesh.removeNode 0%nat pinnedMesh) = [].
Proof.
  split; [reflexivity|].
  rewrite (proj1 (removeNode_unlinked 0%nat pinnedMesh eq_refl)). reflexivity.
Defined.

(** ** More on a step *)

(** [step] divides by zero exactly when a node of the mesh has mass zero:
    every division of the solver is guarded (the distance of a link, of an
    angle constraint and of a push by the floor 1e-6, the denominator of the
    intersection test by its own test). *)
Theorem step_defined_iff (deltaTime : R) (m : Mesh.t) (h : Heap.t) :
  (exists h', Mesh.step deltaTime m h = Some h') <-> massive m h.
Proof.
  split.
  - intros [h' E]. unfold Mesh.step in E.
    destruct (Mesh.applyGravity m h) as [h1|] eqn:E1; [|discriminate].
    eapply applyGravity_massive. exact E1.
  - apply step_defined.
Qed.

Lemma reshaped_refl n : reshaped n n.
Proof. unfold reshaped. intuition. Qed.

Lemma reshaped_trans n1 n2 n3 : reshaped n1 n2 -> reshaped n2 n3 -> reshaped n1 n3.
Proof. unfold reshaped. intuition congruence. Qed.

Lemma reshaped_update h h1 i f :
  pointwise reshaped h h1 -> (forall n, reshaped n (f n)) ->
  pointwise reshaped h (Heap.update h1 i f).
Proof.
  intros H Hf. eapply pointwise_trans; [apply reshaped_trans|exact H|].
  apply pointwise_update; [apply reshaped_refl|apply Hf].
Qed.

Lemma reshaped_heap_refl h : pointwise reshaped h h.
Proof. apply pointwise_refl, reshaped_refl. Qed.

Lemma reshaped_heap_trans h1 h2 h3 :
  pointwise reshaped h1 h2 -> pointwise reshaped h2 h3 -> pointwise reshaped h1 h3.
Proof. apply pointwise_trans, reshaped_trans. Qed.

(** Close a goal [pointwise reshaped h H] where [H] is [h] under writes of
    [x] and [y]. *)
Ltac reshaped_writes :=
  repeat match goal with
         | |- context [if ?c then _ else _] => destruct c
         end;
  repeat (apply reshaped_update; [|intro; unfold reshaped; simpl; intuition]);
  try apply reshaped_heap_refl.

Lemma Link_satisfy_reshaped l h h' : Link.satisfy l h = Some h' -> pointwise reshaped h h'.
Proof.
  unfold Link.satisfy. cbv zeta. rewrite div_defined by apply or_eps6_nonzero.
  intros [= <-]. reshaped_writes.
Qed.

Lemma AngleConstraint_satisfy_reshaped k h h' :
  AngleConstraint.satisfy k h = Some h' -> pointwise reshaped h h'.
Proof.
  unfold AngleConstraint.satisfy. cbv zeta. rewrite div_defined by apply or_eps6_nonzero.
  destruct (_ && _); intros [= <-]; reshaped_writes.
Qed.

Lemma pushNodeFromPoint_reshaped node px py strength h h' :
  Mesh._pushNodeFromPoint node px py strength h = Some h' -> pointwise reshaped h h'.
Proof.
  unfold Mesh._pushNodeFromPoint. cbv zeta.
  destruct (Node.pinned (Heap.get h node)).
  { intros [= <-]. apply reshaped_heap_refl. }
  rewrite !div_defined by apply or_eps6_nonzero.
  intros [= <-]. reshaped_writes.
Qed.

Lemma forEach_reshaped {A} (body : A -> Heap.t -> option Heap.t) (l : list A) :
  (forall v h h', body v h = Some h' -> pointwise reshaped h h') ->
  forall h h', Heap.forEach body l h = Some h' -> pointwise reshaped h h'.
Proof.
  intros Hbody. apply forEach_rel.
  - apply reshaped_heap_refl.
  - apply pointwise_trans, reshaped_trans.
  - intros v h h' _. apply Hbody.
Qed.

Lemma preventLinkCrossings_reshaped m h h' :
  Mesh._preventLinkCrossings m h = Some h' -> pointwise reshaped h h'.
Proof.
  unfold Mesh._preventLinkCrossings. revert h.
  induction (Mesh.links m) as [|link1 ls IH]; simpl; intros h.
  { intros [= <-]. apply reshaped_heap_refl. }
  destruct (Heap.forEach _ ls h) as [h1|] eqn:E; [|discriminate].
  intros H. eapply pointwise_trans; [apply reshaped_trans| |apply IH; exact H].
  eapply forEach_reshaped; [|exact E].
  intros link2 g g'. unfold Mesh.preventCrossing.
  destruct (_ || _)%bool.
  { intros [= <-]. apply reshaped_heap_refl. }
  destruct (Mesh._lineIntersection _ _ _ _ _ _ _ _) as [[i|]|]; [| |discriminate].
  2:{ intros [= <-]. apply reshaped_heap_refl. }
  unfold Mesh._pushLinksApart. cbv zeta.
  destruct (JS.gtb _ _).
  2:{ intros [= <-]. apply reshaped_heap_refl. }
  destruct (Mesh._pushNodeFromPoint (Link.a link1) _ _ _ g) as [g1|] eqn:E1; [|discriminate].
  destruct (Mesh._pushNodeFromPoint (Link.b link1) _ _ _ g1) as [g2|] eqn:E2; [|discriminate].
  destruct (Mesh._pushNodeFromPoint (Link.a link2) _ _ _ g2) as [g3|] eqn:E3; [|discriminate].
  intros E4. apply pushNodeFromPoint_reshaped in E1, E2, E3, E4.
  eauto using reshaped_heap_trans.
Qed.

Lemma wall_reshaped m n : reshaped n (Mesh._applyWallBounds m n).
Proof.
  unfold Mesh._applyWallBounds. cbv zeta.
  repeat match goal with |- context [if ?c then _ else _] => destruct c end;
    unfold reshaped; simpl; intuition.
Qed.

Lemma ground_reshaped m n : reshaped n (Mesh._applyGroundCollision m n).
Proof.
  unfold Mesh._applyGroundCollision. cbv zeta.
  repeat match goal with |- context [if ?c then _ else _] => destruct c end;
    unfold reshaped; simpl; intuition.
Qed.

Lemma solve_reshaped m h h' : Mesh.solve m h = Some h' -> pointwise reshaped h h'.
Proof.
  unfold Mesh.solve.
  destruct (Heap.forEach _ (Mesh.nodes m) h) as [h1|] eqn:E1; [|discriminate].
  destruct (Heap.forEach _ (Mesh.nodes m) h1) as [h2|] eqn:E2; [|discriminate].
  destruct (Mesh._preventLinkCrossings m h2) as [h3|] eqn:E3; [|discriminate].
  destruct (Heap.forEach Link.satisfy _ h3) as [h4|] eqn:E4; [|discriminate].
  destruct (Heap.forEach AngleConstraint.satisfy _ h4) as [h5|] eqn:E5; [|discriminate].
  intros E6.
  apply forEach_reshaped in E1.
  2:{ intros v g g' [= <-]. apply reshaped_update;
        [apply reshaped_heap_refl|apply wall_reshaped]. }
  apply forEach_reshaped in E2.
  2:{ intros v g g' [= <-]. apply reshaped_update;
        [apply reshaped_heap_refl|apply ground_reshaped]. }
  apply preventLinkCrossings_reshaped in E3, E6.
  apply forEach_reshaped in E4; [|apply Link_satisfy_reshaped].
  apply forEach_reshaped in E5; [|apply AngleConstraint_satisfy_reshaped].
  eauto 7 using reshaped_heap_trans.
Qed.

Lemma sameBody_refl n : sameBody n n.
Proof. unfold sameBody. intuition. Qed.

Lemma sameBody_trans n1 n2 n3 : sameBody n1 n2 -> sameBody n2 n3 -> sameBody n1 n3.
Proof. unfold sameBody. intuition congruence. Qed.

Lemma reshaped_sameBody n n' : reshaped n n' -> sameBody n n'.
Proof. unfold reshaped, sameBody. intuition. Qed.

Lemma integrate_sameBody dt damping n : sameBody n (Node.integrate dt damping n).
Proof.
  unfold sameBody, Node.integrate. destruct (Node.pinned n) eqn:Hp; simpl; auto.
Qed.

Lemma integrate_rests dt damping n :
  Node.ax (Node.integrate dt damping n) = 0 /\ Node.ay (Node.integrate dt damping n) = 0.
Proof. unfold Node.integrate. destruct (Node.pinned n); simpl; auto. Qed.

(** The integration loop leaves every node of the list without
    acceleration. *)
Lemma integrate_loop_rests dt damping l :
  forall h h',
    Heap.forEach (fun node h => Some (Heap.update h node (Node.integrate dt damping))) l h
    = Some h' ->
    pointwise sameBody h h'
    /\ forall i, In i l -> Node.ax (Heap.get h' i) = 0 /\ Node.ay (Heap.get h' i) = 0.
Proof.
  induction l as [|v l IH]; simpl; intros h h'.
  { intros [= <-]. split; [apply pointwise_refl, sameBody_refl|easy]. }
  intros H. destruct (IH _ _ H) as [Hs Hz].
  split.
  - eapply pointwise_trans; [apply sameBody_trans| |exact Hs].
    apply pointwise_update; [apply sameBody_refl|apply integrate_sameBody].
  - intros i Hi. destruct (in_dec Nat.eq_dec i l) as [Hl|Hl]; [now apply Hz|].
    destruct Hi as [->|Hi]; [|contradiction].
    clear IH Hz Hs. revert H.
    assert (Hgen : forall g g',
               Heap.forEach
                 (fun node h => Some (Heap.update h node (Node.integrate dt damping))) l g
               = Some g' -> Heap.get g' i = Heap.get g i).
    { induction l as [|w l IHl]; simpl; intros g g'.
      - now intros [= <-].
      - intros Hg. rewrite (IHl ltac:(simpl in Hl; tauto) _ _ Hg).
        apply get_update_other. simpl in Hl. intros ->. tauto. }
    intros H. rewrite (Hgen _ _ H), get_update_same. apply integrate_rests.
Qed.

(** A step changes neither the mass, nor the radius, nor the pinned flag of
    any object, and it leaves every node of the mesh with its accumulated
    acceleration at zero, ready for the forces of the next step. *)
Theorem step_keeps_bodies (deltaTime : R) (m : Mesh.t) (h h' : Heap.t) :
  Mesh.step deltaTime m h = Some h' ->
  (forall i, Node.mass (Heap.get h' i) = Node.mass (Heap.get h i)
             /\ Node.r (Heap.get h' i) = Node.r (Heap.get h i)
             /\ Node.pinned (Heap.get h' i) = Node.pinned (Heap.get h i))
  /\ (forall i, In i (Mesh.nodes m) ->
                Node.ax (Heap.get h' i) = 0 /\ Node.ay (Heap.get h' i) = 0).
Proof.
  unfold Mesh.step.
  destruct (Mesh.applyGravity m h) as [h1|] eqn:E1; [|discriminate].
  destruct (Heap.forEach _ (Mesh.nodes m) h1) as [h2|] eqn:E2; [|discriminate].
  intros E3.
  assert (H1 : pointwise sameBody h h1).
  { revert E1. unfold Mesh.applyGravity. apply forEach_rel.
    - apply pointwise_refl, sameBody_refl.
    - apply pointwise_trans, sameBody_trans.
    - intros v g g' _. destruct (Node.applyForce _ _ _) as [n|] eqn:E; [|discriminate].
      intros [= <-]. apply pointwise_set; [apply sameBody_refl|].
      pose proof (applyForce_nonzero_mass _ _ _ _ E) as Hm.
      rewrite applyForce_defined in E by exact Hm. injection E as <-.
      unfold sameBody; simpl; auto. }
  apply integrate_loop_rests in E2. destruct E2 as [H2 Z2].
  assert (H3 : pointwise reshaped h2 h').
  { revert E3. apply times_rel.
    - apply reshaped_heap_refl.
    - apply pointwise_trans, reshaped_trans.
    - apply solve_reshaped. }
  split.
  - intros i. apply (sameBody_trans _ (Heap.get h1 i)); [apply H1|].
    apply (sameBody_trans _ (Heap.get h2 i)); [apply H2|].
    apply reshaped_sameBody, H3.
  - intros i Hi. destruct (H3 i) as (_ & _ & _ & -> & ->). now apply Z2.
Qed.

Lemma step_keeps_bodies_witness :
  exists h',
    Mesh.step (/ 60) triangle triangleHeap = Some h'
    /\ Node.mass (Heap.get h' 0%nat) = 15
    /\ Node.ay (Heap.get h' 0%nat) = 0.
Proof.
  destruct (step_defined (/ 60) triangle triangleHeap triangle_massive) as [h' E].
  exists h'. split; [exact E|].
  destruct (step_keeps_bodies (/ 60) triangle triangleHeap h' E) as [Hb Hz].
  split.
  - rewrite (proj1 (Hb 0%nat)). reflexivity.
  - apply (Hz 0%nat). simpl. tauto.
Defined.

(** ** What a step does to a node that nothing holds *)

(** A loop that calls a method on every node of a list of distinct nodes. *)
Lemma forEach_update_at (f : Node.t -> Node.t) (l : list Ref) (i : Ref) :
  NoDup l ->
  forall h h',
    Heap.forEach (fun node h => Some (Heap.update h node f)) l h = Some h' ->
    Heap.get h' i = if in_dec Nat.eq_dec i l then f (Heap.get h i) else Heap.get h i.
Proof.
  induction 1 as [|v l Hv Hnd IH]; simpl; intros h h'.
  { now intros [= <-]. }
  intros H. rewrite (IH _ _ H).
  destruct (Nat.eq_dec v i) as [->|Hne].
  - destruct (in_dec Nat.eq_dec i l); [contradiction|]. apply get_update_same.
  - rewrite get_update_other by congruence.
    destruct (in_dec Nat.eq_dec i l); reflexivity.
Qed.

Lemma Link_satisfy_frame l h h' i :
  Link.satisfy l h = Some h' -> Link.a l <> i -> Link.b l <> i ->
  Heap.get h' i = Heap.get h i.
Proof.
  unfold Link.satisfy. cbv zeta. rewrite div_defined by apply or_eps6_nonzero.
  intros [= <-] Ha Hb.
  repeat match goal with |- context [if ?c then _ else _] => destruct c end;
    now rewrite ?get_update_other by congruence.
Qed.

Lemma AngleConstraint_satisfy_frame k h h' i :
  AngleConstraint.satisfy k h = Some h' ->
  AngleConstraint.a k <> i -> AngleConstraint.c k <> i ->
  Heap.get h' i = Heap.get h i.
Proof.
  unfold AngleConstraint.satisfy. cbv zeta. rewrite div_defined by apply or_eps6_nonzero.
  destruct (_ && _); intros [= <-] Ha Hc; [|reflexivity].
  now rewrite !get_update_other by congruence.
Qed.

Lemma pushNodeFromPoint_frame node px py strength h h' i :
  Mesh._pushNodeFromPoint node px py strength h = Some h' -> node <> i ->
  Heap.get h' i = Heap.get h i.
Proof.
  unfold Mesh._pushNodeFromPoint. cbv zeta.
  destruct (Node.pinned (Heap.get h node)); [now intros [= <-]|].
  rewrite !div_defined by apply or_eps6_nonzero.
  intros [= <-] Hn. now rewrite !get_update_other by congruence.
Qed.

Lemma preventCrossing_frame m link1 link2 h h' i :
  Mesh.preventCrossing m link1 link2 h = Some h' ->
  Link.a link1 <> i -> Link.b link1 <> i -> Link.a link2 <> i -> Link.b link2 <> i ->
  Heap.get h' i = Heap.get h i.
Proof.
  unfold Mesh.preventCrossing.
  destruct (_ || _)%bool; [now intros [= <-]|].
  destruct (Mesh._lineIntersection _ _ _ _ _ _ _ _) as [[x|]|]; [| |discriminate].
  2:{ now intros [= <-]. }
  unfold Mesh._pushLinksApart. cbv zeta.
  destruct (JS.gtb _ _); [|now intros [= <-]].
  destruct (Mesh._pushNodeFromPoint (Link.a link1) _ _ _ h) as [h1|] eqn:E1; [|discriminate].
  destruct (Mesh._pushNodeFromPoint (Link.b link1) _ _ _ h1) as [h2|] eqn:E2; [|discriminate].
  destruct (Mesh._pushNodeFromPoint (Link.a link2) _ _ _ h2) as [h3|] eqn:E3; [|discriminate].
  intros E4 A1 B1 A2 B2.
  rewrite (pushNodeFromPoint_frame _ _ _ _ _ _ i E4 B2).
  rewrite (pushNodeFromPoint_frame _ _ _ _ _ _ i E3 A2).
  rewrite (pushNodeFromPoint_frame _ _ _ _ _ _ i E2 B1).
  exact (pushNodeFromPoint_frame _ _ _ _ _ _ i E1 A1).
Qed.

Lemma preventLinkCrossings_frame m h h' i :
  Mesh._preventLinkCrossings m h = Some h' ->
  (forall l, In l (Mesh.links m) -> Link.a l <> i /\ Link.b l <> i) ->
  Heap.get h' i = Heap.get h i.
Proof.
  unfold Mesh._preventLinkCrossings. revert h.
  induction (Mesh.links m) as [|link1 ls IH]; simpl; intros h.
  { now intros [= <-]. }
  destruct (Heap.forEach _ ls h) as [h1|] eqn:E; [|discriminate].
  intros H Hl. rewrite (IH _ H) by (intros; apply Hl; now right).
  eapply forEach_frame; [|exact E].
  intros link2 g g' Hin Hg.
  destruct (Hl link1 (or_introl eq_refl)). destruct (Hl link2 (or_intror Hin)).
  eapply preventCrossing_frame; eassumption.
Qed.

Lemma solve_unattached m h h' i :
  NoDup (Mesh.nodes m) -> In i (Mesh.nodes m) -> unattached m i ->
  Mesh.solve m h = Some h' ->
  Heap.get h' i = Mesh._applyGroundCollision m (Mesh._applyWallBounds m (Heap.get h i)).
Proof.
  intros Hnd Hi [HL HK]. unfold Mesh.solve.
  destruct (Heap.forEach _ (Mesh.nodes m) h) as [h1|] eqn:E1; [|discriminate].
  destruct (Heap.forEach _ (Mesh.nodes m) h1) as [h2|] eqn:E2; [|discriminate].
  destruct (Mesh._preventLinkCrossings m h2) as [h3|] eqn:E3; [|discriminate].
  destruct (Heap.forEach Link.satisfy _ h3) as [h4|] eqn:E4; [|discriminate].
  destruct (Heap.forEach AngleConstraint.satisfy _ h4) as [h5|] eqn:E5; [|discriminate].
  intros E6.
  rewrite (preventLinkCrossings_frame _ _ _ i E6 HL).
  assert (F5 : Heap.get h5 i = Heap.get h4 i).
  { eapply forEach_frame; [|exact E5].
    intros k g g' Hk Hg. destruct (HK k Hk).
    eapply AngleConstraint_satisfy_frame; eassumption. }
  assert (F4 : Heap.get h4 i = Heap.get h3 i).
  { eapply forEach_frame; [|exact E4].
    intros l g g' Hl Hg. destruct (HL l Hl).
    eapply Link_satisfy_frame; eassumption. }
  rewrite F5, F4.
  rewrite (preventLinkCrossings_frame _ _ _ i E3 HL).
  rewrite (forEach_update_at _ _ i Hnd _ _ E2).
  rewrite (forEach_update_at _ _ i Hnd _ _ E1).
  destruct (in_dec Nat.eq_dec i (Mesh.nodes m)); [reflexivity|contradiction].
Qed.

(** A node of the mesh that is no endpoint of a link and no outer node of an
    angle constraint is moved by gravity, the integration, the walls and the
    ground only: no link, no constraint and no crossing of other links ever
    moves it. *)
Theorem step_unattached (deltaTime : R) (m : Mesh.t) (h h' : Heap.t) (i : Ref) :
  NoDup (Mesh.nodes m) ->
  In i (Mesh.nodes m) ->
  unattached m i ->
  Mesh.step deltaTime m h = Some h' ->
  freeFlight m deltaTime (Heap.get h i) = Some (Heap.get h' i).
Proof.
  intros Hnd Hi Hu. unfold Mesh.step, freeFlight.
  destruct (Mesh.applyGravity m h) as [h1|] eqn:E1; [|discriminate].
  destruct (Heap.forEach _ (Mesh.nodes m) h1) as [h2|] eqn:E2; [|discriminate].
  intros E3.
  rewrite (applyGravity_at m _ i Hnd Hi _ _ E1). f_equal. symmetry.
  assert (H2 : Heap.get h2 i = Node.integrate deltaTime (Mesh.damping m) (Heap.get h1 i)).
  { rewrite (forEach_update_at _ _ i Hnd _ _ E2).
    destruct (in_dec Nat.eq_dec i (Mesh.nodes m)); [reflexivity|contradiction]. }
  rewrite <- H2. clear E1 E2 H2. revert h2 E3.
  induction (Mesh.solverIterations m) as [|n IH]; intros g; simpl Heap.times.
  { now intros [= <-]. }
  destruct (Mesh.solve m g) as [g1|] eqn:Es; [|discriminate].
  intros Ht. rewrite (IH _ Ht).
  rewrite (solve_unattached m g g1 i Hnd Hi Hu Es).
  set (f := fun n : Node.t => Mesh._applyGroundCollision m (Mesh._applyWallBounds m n)).
  change (Nat.iter n f (f (Heap.get g i)) = Nat.iter (S n) f (Heap.get g i)).
  apply Nat.iter_swap.
Qed.

(** ** The structure that the application keeps *)

Lemma connectionCount_app v ls ls' :
  Mesh.connectionCount v (ls ++ ls')
  = (Mesh.connectionCount v ls + Mesh.connectionCount v ls')%nat.
Proof. unfold Mesh.connectionCount. now rewrite filter_app, length_app. Qed.

(** A closed mesh has no link to an object that is not one of its nodes. *)
Lemma closed_count_zero m v :
  closed m -> ~ In v (Mesh.nodes m) -> Mesh.connectionCount v (Mesh.links m) = 0%nat.
Proof.
  intros [HL _] Hv. unfold Mesh.connectionCount.
  apply length_zero_iff_nil.
  destruct (filter _ (Mesh.links m)) as [|l ls] eqn:E; [reflexivity|].
  assert (Hin : In l (filter (fun link => Nat.eqb (Link.a link) v || Nat.eqb (Link.b link) v)
                             (Mesh.links m))) by (rewrite E; now left).
  apply filter_In in Hin. destruct Hin as [Hl Ht]. destruct (HL l Hl) as [Ha Hb].
  apply orb_true_iff in Ht as [Ht|Ht]; apply Nat.eqb_eq in Ht; congruence.
Qed.

(** Adding nodes, links and constraints to a sound mesh: the result is sound
    when the new links and constraints refer to nodes of the result and every
    new node has two of the new links. *)
Lemma sound_extend m h m' h' newNodes newLinks newConstraints :
  sound m h ->
  wellFormed m' h' ->
  Mesh.nodes m' = Mesh.nodes m ++ newNodes ->
  Mesh.links m' = Mesh.links m ++ newLinks ->
  Mesh.angleConstraints m' = Mesh.angleConstraints m ++ newConstraints ->
  (forall l, In l newLinks -> In (Link.a l) (Mesh.nodes m') /\ In (Link.b l) (Mesh.nodes m')) ->
  (forall k, In k newConstraints ->
     In (AngleConstraint.a k) (Mesh.nodes m') /\ In (AngleConstraint.b k) (Mesh.nodes m')
     /\ In (AngleConstraint.c k) (Mesh.nodes m')) ->
  (forall v, In v newNodes -> (2 <= Mesh.connectionCount v newLinks)%nat) ->
  sound m' h'.
Proof.
  intros (Hwf & [HL HK] & Hdeg) Hwf' En El Ek HnewL HnewK Hnew.
  split; [exact Hwf'|]. split; [split|].
  - intros l Hl. rewrite El in Hl. apply in_app_or in Hl as [Hl|Hl]; [|now apply HnewL].
    destruct (HL l Hl). rewrite En. split; apply in_or_app; now left.
  - intros k Hk. rewrite Ek in Hk. apply in_app_or in Hk as [Hk|Hk]; [|now apply HnewK].
    destruct (HK k Hk) as (? & ? & ?). rewrite En. repeat split; apply in_or_app; now left.
  - intros v Hv. unfold linkCount. rewrite El, connectionCount_app.
    rewrite En in Hv. apply in_app_or in Hv as [Hv|Hv].
    + pose proof (Hdeg v Hv) as H2. unfold linkCount in H2. lia.
    + pose proof (Hnew v Hv). lia.
Qed.

Lemma sound_new config : sound (Mesh.new config) Heap.empty.
Proof.
  split; [apply new_wellFormed|]. split; [split|]; simpl; easy.
Qed.

Lemma createTriangle_wellFormed centerX centerY size m h :
  wellFormed m h ->
  wellFormed (snd (fst (Mesh.createTriangle centerX centerY size m h)))
             (snd (Mesh.createTriangle centerX centerY size m h)).
Proof.
  intros Hwf.
  set (falling := Mesh.mkNodeOptions None None None (Some (0, 2))).
  pose proof (createNode_wellFormed centerX centerY falling m h Hwf) as W1.
  pose proof (createNode_wellFormed (centerX - size * 0.9) (centerY + size) falling
                _ _ W1) as W2.
  pose proof (createNode_wellFormed (centerX + size * 0.9) (centerY + size) falling
                _ _ W2) as W3.
  exact W3.
Qed.

(** [createTriangle] keeps the structure: its three nodes are new, they are
    linked two by two, and its constraints refer to them. *)
Lemma createTriangle_sound centerX centerY size m h :
  sound m h ->
  sound (snd (fst (Mesh.createTriangle centerX centerY size m h)))
        (snd (Mesh.createTriangle centerX centerY size m h)).
Proof.
  intros Hs. pose proof Hs as (Hwf & _ & _).
  destruct (createTriangle_shape centerX centerY size m h)
    as (l1 & l2 & l3 & k1 & k2 & k3 & En & El & Ek & [A1 B1] & [A2 B2] & [A3 B3]
        & (Ka1 & Kb1 & Kc1) & (Ka2 & Kb2 & Kc2) & (Ka3 & Kb3 & Kc3)).
  set (A := Heap.next h) in *.
  assert (HA : forall v, In v [A; S A; S (S A)] ->
                 In v (Mesh.nodes (snd (fst (Mesh.createTriangle centerX centerY size m h))))).
  { intros v Hv. rewrite En. apply in_or_app. now right. }
  eapply (sound_extend m h _ _ [A; S A; S (S A)] [l1; l2; l3] [k1; k2; k3]);
    [exact Hs|now apply createTriangle_wellFormed|exact En|exact El|exact Ek| | |].
  - intros l [<-|[<-|[<-|[]]]];
      rewrite ?A1, ?B1, ?A2, ?B2, ?A3, ?B3; split; apply HA; simpl; tauto.
  - intros k [<-|[<-|[<-|[]]]];
      rewrite ?Ka1, ?Kb1, ?Kc1, ?Ka2, ?Kb2, ?Kc2, ?Ka3, ?Kb3, ?Kc3;
      repeat split; apply HA; simpl; tauto.
  - intros v Hv. unfold Mesh.connectionCount. simpl.
    rewrite A1, B1, A2, B2, A3, B3.
    assert (E1 : Nat.eqb A (S A) = false) by (apply Nat.eqb_neq; lia).
    assert (E2 : Nat.eqb A (S (S A)) = false) by (apply Nat.eqb_neq; lia).
    assert (E3 : Nat.eqb (S A) A = false) by (apply Nat.eqb_neq; lia).
    assert (E4 : Nat.eqb (S (S A)) A = false) by (apply Nat.eqb_neq; lia).
    assert (E5 : Nat.eqb (S A) (S (S A)) = false) by (apply Nat.eqb_neq; lia).
    assert (E6 : Nat.eqb (S (S A)) (S A) = false) by (apply Nat.eqb_neq; lia).
    destruct Hv as [<-|[<-|[<-|[]]]];
      rewrite ?Nat.eqb_refl, ?E1, ?E2, ?E3, ?E4, ?E5, ?E6; simpl; lia.
Qed.

Lemma removeNode_sound node m h : sound m h -> sound (Mesh.removeNode node m) h.
Proof.
  intros (Hwf & Hc & Hdeg). pose proof Hwf as (Hnd & _).
  split; [now apply removeNode_wellFormed|]. split.
  - revert Hc.
    apply (removeNode_preorder (fun m m' => closed m -> closed m')); auto.
    intros n m0. apply closed_detach.
  - pose proof (removeNode_fuel_settled _ _ _ _ Hnd (removeNode_run node m)) as Q.
    pose proof (removeNode_fuel_shrinks _ _ _ _ (removeNode_run node m)) as (_ & _ & N & _).
    intros v Hv. destruct (Q v Hv) as [E|?]; [|assumption].
    rewrite E. apply Hdeg, N, Hv.
Qed.

Lemma slice0_In {A} count (l : list A) v : In v (JS.slice0 count l) -> In v l.
Proof.
  unfold JS.slice0. intros H.
  rewrite <- (firstn_skipn (Z.to_nat (if (count <? 0)%Z
                                       then Z.max (Z.of_nat (length l) + count) 0
                                       else Z.min count (Z.of_nat (length l)))) l).
  apply in_or_app. now left.
Qed.

(** [getNearestNodes] returns nodes of the mesh. *)
Lemma getNearestNodes_In x y count m h v :
  In v (Mesh.getNearestNodes x y count m h) -> In v (Mesh.nodes m).
Proof.
  rewrite getNearestNodes_sorted_prefix. intros H. apply slice0_In in H.
  eapply Permutation_in; [apply sort_perm|exact H].
Qed.

Lemma alloc_wellFormed m h n : wellFormed m h -> wellFormed m (snd (Heap.alloc h n)).
Proof.
  intros (Hnd & Hlt & Hm & Hd). unfold Heap.alloc; simpl.
  split; [exact Hnd|]. split; [|split; [|exact Hd]].
  - intros v Hv. simpl. apply Hlt in Hv. lia.
  - intros v Hv. unfold Heap.get; simpl.
    destruct (Nat.eqb_spec v (Heap.next h)) as [->|_]; [|now apply Hm].
    apply Hlt in Hv. lia.
Qed.

(** A click keeps the structure, whether it deletes, adds or does nothing. *)
Lemma handleClick_sound g g' :
  Goo.handleClick g = Some g' ->
  sound (Goo.mesh g) (Goo.heap g) ->
  sound (Goo.mesh g') (Goo.heap g').
Proof.
  intros H Hs. unfold Goo.handleClick in H.
  assert (Hadd :
            match Mesh.getNearestNodes (Goo.mouse_x g) (Goo.mouse_y g) 2
                    (Goo.mesh g) (Goo.heap g) with
            | nearest0 :: nearest1 :: _ =>
                let (tempCursor, heap) :=
                  Heap.alloc (Goo.heap g) (Node.new (Goo.mouse_x g) (Goo.mouse_y g) 0 0 false) in
                cross1 <- Mesh.wouldLinkCross tempCursor nearest0 (Goo.mesh g) heap ;;
                let canConnect1 := negb cross1 in
                cross2 <- Mesh.wouldLinkCross tempCursor nearest1 (Goo.mesh g) heap ;;
                let canConnect2 := negb cross2 in
                if negb canConnect1 || negb canConnect2 then
                  Some (Goo.mk (Goo.mesh g) heap (Goo.mouse_x g) (Goo.mouse_y g)
                               (Goo.isDeleteMode g) (Goo.hoveredNode g))
                else
                  let '(newNode, mesh, heap) :=
                    Mesh.createNode (Goo.mouse_x g) (Goo.mouse_y g)
                      (Mesh.mkNodeOptions (Some Goo.CURSOR_R) None None (Some (0, 3)))
                      (Goo.mesh g) heap in
                  let strong :=
                    Mesh.mkLinkOptions (Some (Mesh.stiffness mesh * 1.5)) (Some 0.85) in
                  let mesh := snd (Mesh.createLink newNode nearest0 strong mesh heap) in
                  let mesh := snd (Mesh.createLink newNode nearest1 strong mesh heap) in
                  let mesh :=
                    snd (Mesh.createAngleConstraint nearest0 newNode nearest1 0.5 mesh heap) in
                  Some (Goo.mk mesh heap (Goo.mouse_x g) (Goo.mouse_y g)
                               (Goo.isDeleteMode g) (Goo.hoveredNode g))
            | _ => Some g
            end = Some g' ->
            sound (Goo.mesh g') (Goo.heap g')).
  { clear H.
    destruct (Mesh.getNearestNodes _ _ 2 _ _) as [|n0 [|n1 rest]] eqn:En;
      try (intros [= <-]; exact Hs).
    assert (Hn0 : In n0 (Mesh.nodes (Goo.mesh g))).
    { eapply getNearestNodes_In. rewrite En. now left. }
    assert (Hn1 : In n1 (Mesh.nodes (Goo.mesh g))).
    { eapply getNearestNodes_In. rewrite En. right. now left. }
    pose proof Hs as (Hwf & Hc & _).
    set (temp := Node.new (Goo.mouse_x g) (Goo.mouse_y g) 0 0 false).
    pose proof (alloc_wellFormed (Goo.mesh g) (Goo.heap g) temp Hwf) as Hwf1.
    unfold Heap.alloc in Hwf1 |- *. simpl snd in Hwf1. cbv iota beta.
    set (heap1 := Heap.mk _ (S (Heap.next (Goo.heap g)))) in *.
    destruct (Mesh.wouldLinkCross _ n0 _ heap1) as [cross1|]; [|discriminate].
    destruct (Mesh.wouldLinkCross _ n1 _ heap1) as [cross2|]; [|discriminate].
    cbv zeta.
    destruct (negb (negb cross1) || negb (negb cross2)).
    { intros [= <-]. simpl. destruct Hs as (_ & Hc' & Hd). split; [exact Hwf1|]. now split. }
    set (options := Mesh.mkNodeOptions (Some Goo.CURSOR_R) None None (Some (0, 3))).
    pose proof (createNode_wellFormed (Goo.mouse_x g) (Goo.mouse_y g) options
                  (Goo.mesh g) heap1 Hwf1) as Hwf2.
    unfold Mesh.createNode, Heap.alloc in Hwf2 |- *. cbv zeta in Hwf2 |- *.
    simpl fst in Hwf2. simpl snd in Hwf2. cbv iota beta.
    intros [= <-]. simpl Goo.mesh. simpl Goo.heap.
    set (newNode := Heap.next heap1) in *.
    eapply (sound_extend (Goo.mesh g) (Goo.heap g) _ _ [newNode]
              [Link.new _ newNode n0 _ _; Link.new _ newNode n1 _ _]
              [AngleConstraint.new _ n0 newNode n1 _]);
      [exact Hs|exact Hwf2|reflexivity| | | | |].
    - unfold Mesh.createLink. simpl. rewrite <- app_assoc. reflexivity.
    - reflexivity.
    - intros l [<-|[<-|[]]]; simpl; split; apply in_or_app; simpl; tauto.
    - intros k [<-|[]]; simpl; repeat split; apply in_or_app; simpl; tauto.
    - intros v [<-|[]]. unfold Mesh.connectionCount. simpl.
      rewrite Nat.eqb_refl. simpl. lia. }
  destruct (Goo.isDeleteMode g); [|exact (Hadd H)].
  destruct (Goo.hoveredNode g) as [hovered|]; [|exact (Hadd H)].
  injection H as <-. simpl. now apply removeNode_sound.
Qed.

Lemma tick_sound g g' :
  Goo.tick g = Some g' ->
  sound (Goo.mesh g) (Goo.heap g) ->
  sound (Goo.mesh g') (Goo.heap g').
Proof.
  unfold Goo.tick. intros H (Hwf & Hc & Hd).
  destruct (Mesh.step (1 / 60) (Goo.mesh g) (Goo.heap g)) as [h'|] eqn:E; [|discriminate].
  injection H as <-. simpl.
  split; [eapply step_wellFormed; eassumption|]. now split.
Qed.

Lemma init_sound WIDTH HEIGHT :
  sound (Goo.mesh (Goo.init WIDTH HEIGHT)) (Goo.heap (Goo.init WIDTH HEIGHT)).
Proof.
  exact (createTriangle_sound (WIDTH * 0.5) (HEIGHT * 0.3) 70 _ _ (sound_new _)).
Qed.

Lemma resize_sound newWidth newHeight g :
  sound (Goo.mesh g) (Goo.heap g) ->
  sound (Goo.mesh (Goo.resize newWidth newHeight g))
        (Goo.heap (Goo.resize newWidth newHeight g)).
Proof. intros H. exact H. Qed.

Lemma running_sound WIDTH HEIGHT g :
  running WIDTH HEIGHT g -> sound (Goo.mesh g) (Goo.heap g).
Proof.
  induction 1 as [|g g' _ IH E|x y g _ IH|g g' _ IH E|w h g _ IH].
  - apply init_sound.
  - eapply tick_sound; eassumption.
  - exact IH.
  - eapply handleClick_sound; eassumption.
  - now apply resize_sound.
Qed.

(** Whatever the frames, pointer moves, clicks and resizes since the page was
    loaded, the mesh of the application is sound: its nodes are distinct
    objects with a mass that is not zero, every link and every angle
    constraint refers to nodes of the mesh, and every node has at least two
    links. *)
Theorem goo_keeps_structure (WIDTH HEIGHT : R) (g : Goo.t) :
  running WIDTH HEIGHT g -> sound (Goo.mesh g) (Goo.heap g).
Proof. apply running_sound. Qed.

Lemma goo_keeps_structure_witness :
  sound (Goo.mesh (Goo.init 800 600)) (Goo.heap (Goo.init 800 600)).
Proof. apply (goo_keeps_structure 800 600). apply run_init. Defined.

(** In every state of the application the next frame is computed: the physics
    step of the ticker never divides by a mass of zero. *)
Theorem goo_frame_defined (WIDTH HEIGHT : R) (g : Goo.t) :
  running WIDTH HEIGHT g ->
  exists g', Goo.tick g = Some g' /\ Goo.mesh g' = Goo.mesh g.
Proof.
  intros Hr. apply running_sound in Hr. destruct Hr as ((_ & _ & Hm & _) & _).
  unfold Goo.tick.
  destruct (step_defined (1 / 60) (Goo.mesh g) (Goo.heap g) Hm) as [h' ->].
  eexists. split; reflexivity.
Qed.

Lemma goo_frame_defined_witness :
  exists g', Goo.tick (Goo.init 800 600) = Some g'
             /\ Goo.mesh g' = Goo.mesh (Goo.init 800 600).
Proof. apply (goo_frame_defined 800 600). apply run_init. Defined.

(** Delete mode is on exactly when a node is recorded as hovered. *)
Theorem goo_delete_mode_hovering (WIDTH HEIGHT : R) (g : Goo.t) :
  running WIDTH HEIGHT g ->
  Goo.isDeleteMode g = true <-> exists node, Goo.hoveredNode g = Some node.
Proof.
  induction 1 as [|g g' _ IH E|x y g _ IH|g g' _ IH E|w h g _ IH];
    try exact IH.
  - simpl. split; [discriminate|]. intros [node Hn]. discriminate.
  - unfold Goo.tick in E.
    destruct (Mesh.step _ _ _) as [h'|]; [|discriminate].
    injection E as <-. simpl.
    destruct (Mesh.getNodeAt _ _ _ _) as [v|].
    + split; eauto.
    + split; [discriminate|]. intros [node Hn]. discriminate.
  - assert (Hk : Goo.isDeleteMode g' = Goo.isDeleteMode g
                 /\ Goo.hoveredNode g' = Goo.hoveredNode g).
    { clear IH. unfold Goo.handleClick in E.
      assert (Hadd : forall r,
                 match Mesh.getNearestNodes (Goo.mouse_x g) (Goo.mouse_y g) 2
                         (Goo.mesh g) (Goo.heap g) with
                 | nearest0 :: nearest1 :: _ => r nearest0 nearest1
                 | _ => Some g
                 end = Some g' ->
                 (forall n0 n1 g1, r n0 n1 = Some g1 ->
                    Goo.isDeleteMode g1 = Goo.isDeleteMode g
                    /\ Goo.hoveredNode g1 = Goo.hoveredNode g) ->
                 Goo.isDeleteMode g' = Goo.isDeleteMode g
                 /\ Goo.hoveredNode g' = Goo.hoveredNode g).
      { intros r Hr Hk.
        destruct (Mesh.getNearestNodes _ _ 2 _ _) as [|n0 [|n1 rest]];
          try (injection Hr as <-; now split).
        eapply Hk. exact Hr. }
      assert (Hbody : forall n0 n1 g1,
                 (let (tempCursor, heap) :=
                    Heap.alloc (Goo.heap g)
                      (Node.new (Goo.mouse_x g) (Goo.mouse_y g) 0 0 false) in
                  cross1 <- Mesh.wouldLinkCross tempCursor n0 (Goo.mesh g) heap ;;
                  let canConnect1 := negb cross1 in
                  cross2 <- Mesh.wouldLinkCross tempCursor n1 (Goo.mesh g) heap ;;
                  let canConnect2 := negb cross2 in
                  if negb canConnect1 || negb canConnect2 then
                    Some (Goo.mk (Goo.mesh g) heap (Goo.mouse_x g) (Goo.mouse_y g)
                                 (Goo.isDeleteMode g) (Goo.hoveredNode g))
                  else
                    let '(newNode, mesh, heap) :=
                      Mesh.createNode (Goo.mouse_x g) (Goo.mouse_y g)
                        (Mesh.mkNodeOptions (Some Goo.CURSOR_R) None None (Some (0, 3)))
                        (Goo.mesh g) heap in
                    let strong :=
                      Mesh.mkLinkOptions (Some (Mesh.stiffness mesh * 1.5)) (Some 0.85) in
                    let mesh := snd (Mesh.createLink newNode n0 strong mesh heap) in
                    let mesh := snd (Mesh.createLink newNode n1 strong mesh heap) in
                    let mesh :=
                      snd (Mesh.createAngleConstraint n0 newNode n1 0.5 mesh heap) in
                    Some (Goo.mk mesh heap (Goo.mouse_x g) (Goo.mouse_y g)
                                 (Goo.isDeleteMode g) (Goo.hoveredNode g))) = Some g1 ->
                 Goo.isDeleteMode g1 = Goo.isDeleteMode g
                 /\ Goo.hoveredNode g1 = Goo.hoveredNode g).
      { intros n0 n1 g1. unfold Heap.alloc. cbv iota beta.
        destruct (Mesh.wouldLinkCross _ n0 _ _) as [c1|]; [|discriminate].
        destruct (Mesh.wouldLinkCross _ n1 _ _) as [c2|]; [|discriminate].
        cbv zeta. destruct (negb (negb c1) || negb (negb c2));
          intros [= <-]; split; reflexivity. }
      destruct (Goo.isDeleteMode g) eqn:Ed.
      - destruct (Goo.hoveredNode g) as [hovered|] eqn:Eh.
        + injection E as <-. simpl. now split.
        + apply (Hadd _ E). exact Hbody.
      - apply (Hadd _ E). exact Hbody. }
    destruct Hk as [-> ->]. exact IH.
Qed.

Lemma goo_delete_mode_hovering_witness :
  Goo.isDeleteMode (Goo.init 800 600) = true
  <-> exists node, Goo.hoveredNode (Goo.init 800 600) = Some node.
Proof. apply (goo_delete_mode_hovering 800 600). apply run_init. Defined.

(** A click outside delete mode always returns, moves no node of the mesh, and
    either leaves the mesh as it is or adds exactly one node at the pointer,
    two links from it to the two nearest nodes and one angle constraint over
    the three. *)
Theorem click_adds_one_node (WIDTH HEIGHT : R) (g : Goo.t) :
  running WIDTH HEIGHT g ->
  Goo.isDeleteMode g = false ->
  exists g',
    Goo.handleClick g = Some g'
    /\ (forall v, In v (Mesh.nodes (Goo.mesh g)) ->
                  Heap.get (Goo.heap g') v = Heap.get (Goo.heap g) v)
    /\ (Goo.mesh g' = Goo.mesh g
        \/ exists newNode nearest0 nearest1 link0 link1 constraint,
             let nearest :=
               Mesh.getNearestNodes (Goo.mouse_x g) (Goo.mouse_y g) 2
                 (Goo.mesh g) (Goo.heap g) in
             nth_error nearest 0 = Some nearest0
             /\ nth_error nearest 1 = Some nearest1
             /\ ~ In newNode (Mesh.nodes (Goo.mesh g))
             /\ Node.x (Heap.get (Goo.heap g') newNode) = Goo.mouse_x g
             /\ Node.y (Heap.get (Goo.heap g') newNode) = Goo.mouse_y g
             /\ Mesh.nodes (Goo.mesh g') = Mesh.nodes (Goo.mesh g) ++ [newNode]
             /\ Mesh.links (Goo.mesh g') = Mesh.links (Goo.mesh g) ++ [link0; link1]
             /\ Mesh.angleConstraints (Goo.mesh g')
                = Mesh.angleConstraints (Goo.mesh g) ++ [constraint]
             /\ (Link.a link0 = newNode /\ Link.b link0 = nearest0)
             /\ (Link.a link1 = newNode /\ Link.b link1 = nearest1)
             /\ (AngleConstraint.a constraint = nearest0
                 /\ AngleConstraint.b constraint = newNode
                 /\ AngleConstraint.c constraint = nearest1)).
Proof.
  intros Hr Hd. apply running_sound in Hr. destruct Hr as ((_ & Hlt & _) & _).
  unfold Goo.handleClick. rewrite Hd. cbv iota.
  destruct (Mesh.getNearestNodes _ _ 2 _ _) as [|n0 [|n1 rest]] eqn:En;
    try (exists g; split; [reflexivity|]; split; [reflexivity|now left]).
  unfold Heap.alloc. cbv iota beta.
  set (temp := Node.new (Goo.mouse_x g) (Goo.mouse_y g) 0 0 false).
  set (heap1 := Heap.mk _ (S (Heap.next (Goo.heap g)))).
  assert (F1 : forall v, In v (Mesh.nodes (Goo.mesh g)) ->
                         Heap.get heap1 v = Heap.get (Goo.heap g) v).
  { intros v Hv. unfold Heap.get, heap1. simpl.
    destruct (Nat.eqb_spec v (Heap.next (Goo.heap g))) as [->|_]; [|reflexivity].
    apply Hlt in Hv. lia. }
  unfold Mesh.wouldLinkCross.
  destruct (wouldLinkCross_loop_defined heap1 (Heap.next (Goo.heap g)) n0
              (Mesh.links (Goo.mesh g))) as [c1 ->].
  destruct (wouldLinkCross_loop_defined heap1 (Heap.next (Goo.heap g)) n1
              (Mesh.links (Goo.mesh g))) as [c2 ->].
  cbv beta iota zeta.
  destruct (negb (negb c1) || negb (negb c2)).
  { eexists. split; [reflexivity|]. split; [exact F1|now left]. }
  unfold Mesh.createNode, Heap.alloc. cbv beta iota zeta.
  eexists. split; [reflexivity|]. simpl Goo.heap. simpl Goo.mesh. split.
  - intros v Hv. rewrite <- (F1 v Hv). unfold Heap.get. simpl.
    destruct (Nat.eqb_spec v (S (Heap.next (Goo.heap g)))) as [->|_]; [|reflexivity].
    apply Hlt in Hv. lia.
  - right. exists (S (Heap.next (Goo.heap g))), n0, n1.
    do 3 eexists. cbv zeta.
    split; [reflexivity|]. split; [reflexivity|].
    split; [intros Hv; apply Hlt in Hv; lia|].
    split; [unfold Heap.get; simpl; rewrite Nat.eqb_refl; reflexivity|].
    split; [unfold Heap.get; simpl; rewrite Nat.eqb_refl; reflexivity|].
    split; [reflexivity|].
    split; [unfold Mesh.createLink; simpl; rewrite <- app_assoc; reflexivity|].
    split; [reflexivity|].
    simpl. repeat split; reflexivity.
Qed.

Lemma click_adds_one_node_witness :
  exists g',
    Goo.handleClick (Goo.init 800 600) = Some g'
    /\ (forall v, In v (Mesh.nodes (Goo.mesh (Goo.init 800 600))) ->
                  Heap.get (Goo.heap g') v = Heap.get (Goo.heap (Goo.init 800 600)) v)
    /\ (Goo.mesh g' = Goo.mesh (Goo.init 800 600)
        \/ exists newNode nearest0 nearest1 link0 link1 constraint,
             let nearest :=
               Mesh.getNearestNodes (Goo.mouse_x (Goo.init 800 600))
                 (Goo.mouse_y (Goo.init 800 600)) 2
                 (Goo.mesh (Goo.init 800 600)) (Goo.heap (Goo.init 800 600)) in
             nth_error nearest 0 = Some nearest0
             /\ nth_error nearest 1 = Some nearest1
             /\ ~ In newNode (Mesh.nodes (Goo.mesh (Goo.init 800 600)))
             /\ Node.x (Heap.get (Goo.heap g') newNode) = Goo.mouse_x (Goo.init 800 600)
             /\ Node.y (Heap.get (Goo.heap g') newNode) = Goo.mouse_y (Goo.init 800 600)
             /\ Mesh.nodes (Goo.mesh g')
                = Mesh.nodes (Goo.mesh (Goo.init 800 600)) ++ [newNode]
             /\ Mesh.links (Goo.mesh g')
                = Mesh.links (Goo.mesh (Goo.init 800 600)) ++ [link0; link1]
             /\ Mesh.angleConstraints (Goo.mesh g')
                = Mesh.angleConstraints (Goo.mesh (Goo.init 800 600)) ++ [constraint]
             /\ (Link.a link0 = newNode /\ Link.b link0 = nearest0)
             /\ (Link.a link1 = newNode /\ Link.b link1 = nearest1)
             /\ (AngleConstraint.a constraint = nearest0
                 /\ AngleConstraint.b constraint = newNode
                 /\ AngleConstraint.c constraint = nearest1)).
Proof. apply (click_adds_one_node 800 600); [apply run_init|reflexivity]. Defined.

(** [createTriangle] on a sound mesh gives a sound mesh: it appends the three
    nodes it returns, three links and three angle constraints, and each new
    node has its two links. *)
Theorem createTriangle_keeps_sound (centerX centerY size : R) (m : Mesh.t) (h : Heap.t) :
  sound m h ->
  let created := Mesh.createTriangle centerX centerY size m h in
  sound (snd (fst created)) (snd created)
  /\ Mesh.nodes (snd (fst created)) = Mesh.nodes m ++ fst (fst created)
  /\ length (fst (fst created)) = 3%nat
  /\ length (Mesh.links (snd (fst created))) = (length (Mesh.links m) + 3)%nat
  /\ length (Mesh.angleConstraints (snd (fst created)))
     = (length (Mesh.angleConstraints m) + 3)%nat.
Proof.
  intros Hs created. subst created.
  split; [now apply createTriangle_sound|].
  destruct (createTriangle_shape centerX centerY size m h)
    as (l1 & l2 & l3 & k1 & k2 & k3 & En & El & Ek & _).
  rewrite En, El, Ek, !length_app. repeat split; reflexivity.
Qed.

Lemma createTriangle_keeps_sound_witness :
  let created := Mesh.createTriangle 400 180 70 (Mesh.new noConfig) Heap.empty in
  sound (snd (fst created)) (snd created)
  /\ Mesh.nodes (snd (fst created)) = Mesh.nodes (Mesh.new noConfig) ++ fst (fst created)
  /\ length (fst (fst created)) = 3%nat
  /\ length (Mesh.links (snd (fst created)))
     = (length (Mesh.links (Mesh.new noConfig)) + 3)%nat
  /\ length (Mesh.angleConstraints (snd (fst created)))
     = (length (Mesh.angleConstraints (Mesh.new noConfig)) + 3)%nat.
Proof.
  apply (createTriangle_keeps_sound 400 180 70 (Mesh.new noConfig) Heap.empty).
  apply sound_new.
Defined.

(** ** Crossing links: [wouldLinkCross] and [_preventLinkCrossings] *)

Section Crossing.

Import Mesh.
Open Scope R_scope.

Lemma wouldLinkCross_loop_true h fromNode toNode ls :
  exists r,
    wouldLinkCross_loop h fromNode toNode ls = Some r
    /\ (r = true <->
        exists link, In link ls
                     /\ touches fromNode link = false
                     /\ touches toNode link = false
                     /\ segmentCrosses h fromNode toNode link = true).
Proof.
  induction ls as [|link ls (r & E & Hr)]; simpl.
  { exists false. split; [reflexivity|]. split; [discriminate|]. now intros (? & [] & _). }
  assert (Hg : (Nat.eqb (Link.a link) fromNode || Nat.eqb (Link.a link) toNode
                || Nat.eqb (Link.b link) fromNode || Nat.eqb (Link.b link) toNode)%bool
               = (touches fromNode link || touches toNode link)%bool).
  { unfold touches.
    destruct (Nat.eqb (Link.a link) fromNode), (Nat.eqb (Link.a link) toNode),
      (Nat.eqb (Link.b link) fromNode), (Nat.eqb (Link.b link) toNode); reflexivity. }
  rewrite Hg. clear Hg.
  assert (Hrest : forall skipped : Prop,
             (skipped -> ~ (touches fromNode link = false
                            /\ touches toNode link = false
                            /\ segmentCrosses h fromNode toNode link = true)) ->
             skipped ->
             exists r0,
               wouldLinkCross_loop h fromNode toNode ls = Some r0
               /\ (r0 = true <->
                   exists link0, (link = link0 \/ In link0 ls)
                                 /\ touches fromNode link0 = false
                                 /\ touches toNode link0 = false
                                 /\ segmentCrosses h fromNode toNode link0 = true)).
  { intros skipped Hno Hs. exists r. split; [exact E|]. rewrite Hr. split.
    - intros (l & Hl & P). exists l. split; [now right|exact P].
    - intros (l & [<-|Hl] & P); [now destruct (Hno Hs)|]. exists l. now split. }
  destruct (touches fromNode link || touches toNode link)%bool eqn:Et.
  { apply (Hrest (True)); [|exact I]. intros _ (A & B & _).
    rewrite A, B in Et. discriminate. }
  apply orb_false_elim in Et as [Ea Eb].
  match goal with
  | |- context [_lineIntersection ?ax ?ay ?bx ?by_ ?cx ?cy ?dx ?dy] =>
      destruct (lineIntersection_crosses ax ay bx by_ cx cy dx dy) as [i ->]
  end.
  fold (segmentCrosses h fromNode toNode link).
  destruct (segmentCrosses h fromNode toNode link) eqn:Ec.
  - exists true. split; [reflexivity|]. split; [|reflexivity].
    intros _. exists link. repeat split; auto.
  - apply (Hrest (True)); [|exact I]. intros _ (_ & _ & C). discriminate.
Qed.

(** [wouldLinkCross(fromNode, toNode)] always answers, and it answers [true]
    exactly when some link of the mesh that has neither [fromNode] nor
    [toNode] as an endpoint meets the segment between the two nodes. *)
Theorem wouldLinkCross_true_iff (fromNode toNode : Ref) (m : Mesh.t) (h : Heap.t) :
  exists r,
    wouldLinkCross fromNode toNode m h = Some r
    /\ (r = true <->
        exists link, In link (links m)
                     /\ touches fromNode link = false
                     /\ touches toNode link = false
                     /\ segmentCrosses h fromNode toNode link = true).
Proof. apply wouldLinkCross_loop_true. Qed.

Lemma forEach_idle {A} (body : A -> Heap.t -> option Heap.t) l h :
  (forall v, In v l -> body v h = Some h) -> Heap.forEach body l h = Some h.
Proof.
  induction l as [|v l IH]; simpl; intros H; [reflexivity|].
  rewrite (H v) by now left. apply IH. intros w Hw. apply H. now right.
Qed.

Lemma preventCrossing_idle m link1 link2 h :
  (adjacent link1 link2 = false -> segmentCrosses h (Link.a link1) (Link.b link1) link2 = false) ->
  preventCrossing m link1 link2 h = Some h.
Proof.
  intros H. unfold preventCrossing.
  assert (Hg : (Nat.eqb (Link.a link1) (Link.a link2) || Nat.eqb (Link.a link1) (Link.b link2)
                || Nat.eqb (Link.b link1) (Link.a link2) || Nat.eqb (Link.b link1) (Link.b link2))%bool
               = adjacent link1 link2).
  { unfold adjacent, touches.
    rewrite (Nat.eqb_sym (Link.a link2)), (Nat.eqb_sym (Link.b link2)).
    rewrite (Nat.eqb_sym (Link.a link2)), (Nat.eqb_sym (Link.b link2)).
    destruct (Nat.eqb (Link.a link1) (Link.a link2)), (Nat.eqb (Link.a link1) (Link.b link2)),
      (Nat.eqb (Link.b link1) (Link.a link2)), (Nat.eqb (Link.b link1) (Link.b link2));
      reflexivity. }
  rewrite Hg. destruct (adjacent link1 link2); [reflexivity|].
  match goal with
  | |- context [_lineIntersection ?ax ?ay ?bx ?by_ ?cx ?cy ?dx ?dy] =>
      destruct (lineIntersection_crosses ax ay bx by_ cx cy dx dy) as [i ->]
  end.
  fold (segmentCrosses h (Link.a link1) (Link.b link1) link2).
  now rewrite H.
Qed.

(** When no two links of the mesh cross, links with a common endpoint left
    aside, [_preventLinkCrossings] moves nothing. *)
Theorem preventLinkCrossings_idle (m : Mesh.t) (h : Heap.t) :
  (forall link1 link2,
      In link1 (links m) -> In link2 (links m) ->
      adjacent link1 link2 = false ->
      segmentCrosses h (Link.a link1) (Link.b link1) link2 = false) ->
  _preventLinkCrossings m h = Some h.
Proof.
  unfold _preventLinkCrossings.
  induction (links m) as [|link1 ls IH]; simpl; intros H; [reflexivity|].
  rewrite forEach_idle.
  - apply IH. intros l1 l2 H1 H2. apply H; now right.
  - intros link2 H2. apply preventCrossing_idle. apply H; [now left|now right].
Qed.

(** The two links of [railsMesh] have no node in common and do not meet: the
    parameter [t] of the crossing point of their lines is -1/2, either way. *)
Lemma rails_apart :
  crosses 0 0 10 0 0 10 10 30 = false /\ crosses 0 10 10 30 0 0 10 0 = false.
Proof.
  assert (Hg : forall d, Rabs d = 200 -> JS.ltb (Rabs d) JS.eps10 = false).
  { intros d ->. apply ltb_false. unfold JS.eps10. lra. }
  assert (Ht : JS.geb (- / 2) 0 = false).
  { unfold JS.geb. apply leb_false. lra. }
  split; unfold crosses; cbv zeta.
  - rewrite Hg.
    + replace (((0 - 0) * (10 - 30) - (0 - 10) * (0 - 10))
               / ((0 - 10) * (10 - 30) - (0 - 0) * (0 - 10))) with (- / 2) by field.
      now rewrite Ht.
    + replace ((0 - 10) * (10 - 30) - (0 - 0) * (0 - 10)) with 200 by ring.
      apply Rabs_pos_eq. lra.
  - rewrite Hg.
    + replace (((0 - 0) * (0 - 0) - (10 - 0) * (0 - 10))
               / ((0 - 10) * (0 - 0) - (10 - 30) * (0 - 10))) with (- / 2) by field.
      now rewrite Ht.
    + replace ((0 - 10) * (0 - 0) - (10 - 30) * (0 - 10)) with (- (200)) by ring.
      rewrite Rabs_Ropp. apply Rabs_pos_eq. lra.
Qed.

Lemma preventLinkCrossings_idle_witness :
  (exists link1 link2,
      In link1 (links railsMesh) /\ In link2 (links railsMesh)
      /\ adjacent link1 link2 = false)
  /\ _preventLinkCrossings railsMesh railsHeap = Some railsHeap.
Proof.
  destruct rails_apart as [C12 C21].
  split.
  { exists (Link.new railsHeap 0%nat 1%nat 0.25 0.95),
           (Link.new railsHeap 2%nat 3%nat 0.25 0.95).
    change (links railsMesh)
      with [Link.new railsHeap 0%nat 1%nat 0.25 0.95;
            Link.new railsHeap 2%nat 3%nat 0.25 0.95].
    split; [now left|]. split; [right; now left|reflexivity]. }
  apply (preventLinkCrossings_idle railsMesh railsHeap).
  change (links railsMesh)
    with [Link.new railsHeap 0%nat 1%nat 0.25 0.95;
          Link.new railsHeap 2%nat 3%nat 0.25 0.95].
  intros link1 link2 [<-|[<-|[]]] [<-|[<-|[]]] Ha;
    try discriminate Ha; [exact C12|exact C21].
Defined.

End Crossing.

(** ** How many nodes [getNearestNodes] returns *)

Lemma NoDup_prefix {A} n (l : list A) : NoDup l -> NoDup (firstn n l).
Proof.
  intros H. rewrite <- (firstn_skipn n l) in H.
  now apply NoDup_app_remove_r in H.
Qed.

(** For a count that is not negative, [getNearestNodes] returns [count] nodes
    of the mesh, or all of them when the mesh has fewer; no node is returned
    twice. *)
Theorem getNearestNodes_count (x y : R) (count : Z) (m : Mesh.t) (h : Heap.t) :
  (0 <= count)%Z ->
  length (Mesh.getNearestNodes x y count m h)
  = Nat.min (Z.to_nat count) (length (Mesh.nodes m))
  /\ (forall v, In v (Mesh.getNearestNodes x y count m h) -> In v (Mesh.nodes m))
  /\ (NoDup (Mesh.nodes m) -> NoDup (Mesh.getNearestNodes x y count m h)).
Proof.
  intros Hc. split; [|split].
  - rewrite getNearestNodes_sorted_prefix, slice0_firstn by assumption.
    rewrite length_firstn. f_equal.
    apply Permutation_length, sort_perm.
  - intros v. apply getNearestNodes_In.
  - intros Hnd. rewrite getNearestNodes_sorted_prefix, slice0_firstn by assumption.
    apply NoDup_prefix.
    eapply Permutation_NoDup; [symmetry; apply sort_perm|exact Hnd].
Qed.

Lemma getNearestNodes_count_witness :
  length (Mesh.getNearestNodes 0 0 5 triangle triangleHeap)
  = Nat.min (Z.to_nat 5) (length (Mesh.nodes triangle))
  /\ (forall v, In v (Mesh.getNearestNodes 0 0 5 triangle triangleHeap) ->
                In v (Mesh.nodes triangle))
  /\ (NoDup (Mesh.nodes triangle) ->
      NoDup (Mesh.getNearestNodes 0 0 5 triangle triangleHeap)).
Proof. apply (getNearestNodes_count 0 0 5 triangle triangleHeap). lia. Defined.

(** A negative count drops that many of the farthest nodes: [slice(0, count)]
    counts from the end of the sorted array. *)
Theorem getNearestNodes_negative_count (x y : R) (count : Z) (m : Mesh.t) (h : Heap.t) :
  (count < 0)%Z ->
  length (Mesh.getNearestNodes x y count m h)
  = (length (Mesh.nodes m) - Z.to_nat (- count))%nat.
Proof.
  intros Hc. rewrite getNearestNodes_sorted_prefix. unfold JS.slice0.
  destruct (Z.ltb_spec count 0) as [_|]; [|lia].
  rewrite length_firstn.
  rewrite (Permutation_length (sort_perm _ _ (Mesh.nodes m))).
  lia.
Qed.

Lemma getNearestNodes_negative_count_witness :
  length (Mesh.getNearestNodes 0 0 (-1) triangle triangleHeap)
  = (length (Mesh.nodes triangle) - Z.to_nat (- (-1)))%nat.
Proof. apply (getNearestNodes_negative_count 0 0 (-1) triangle triangleHeap). lia. Defined.

(** ** A free node beside the triangle *)

Lemma createNode_arrays x y options m h :
  fst (fst (Mesh.createNode x y options m h)) = Heap.next h
  /\ Mesh.nodes (snd (fst (Mesh.createNode x y options m h))) = Mesh.nodes m ++ [Heap.next h]
  /\ Mesh.links (snd (fst (Mesh.createNode x y options m h))) = Mesh.links m
  /\ Mesh.angleConstraints (snd (fst (Mesh.createNode x y options m h)))
     = Mesh.angleConstraints m.
Proof. unfold Mesh.createNode, Heap.alloc. simpl. repeat split; reflexivity. Qed.

Lemma createNode_pinned x y options m h :
  Node.pinned (Heap.get (snd (Mesh.createNode x y options m h)) (Heap.next h))
  = match Mesh.opt_pinned options with Some p => p | None => false end.
Proof.
  unfold Mesh.createNode, Heap.alloc, Heap.get. simpl. rewrite Nat.eqb_refl.
  destruct (Mesh.opt_initialVelocity options); reflexivity.
Qed.

(** The mesh [looseMesh]: the three links and the three constraints of the
    triangle, none of them on the fourth node, which is free. *)
Lemma looseMesh_facts :
  wellFormed looseMesh looseHeap
  /\ In 3%nat (Mesh.nodes looseMesh)
  /\ unattached looseMesh 3%nat
  /\ Node.pinned (Heap.get looseHeap 3%nat) = false
  /\ length (Mesh.links looseMesh) = 3%nat
  /\ length (Mesh.angleConstraints looseMesh) = 3%nat.
Proof.
  assert (Hw : wellFormed looseMesh looseHeap).
  { exact (createNode_wellFormed 100 100 _ triangle triangleHeap
             (createTriangle_wellFormed 400 180 70 _ _ (new_wellFormed noConfig))). }
  assert (E3 : Heap.next triangleHeap = 3%nat) by reflexivity.
  destruct (createNode_arrays 100 100 (Mesh.mkNodeOptions None None None None)
              triangle triangleHeap) as (_ & En & El & Ek).
  pose proof (createNode_pinned 100 100 (Mesh.mkNodeOptions None None None None)
                triangle triangleHeap) as Hp.
  fold looseWorld in En, El, Ek, Hp. fold looseMesh in En, El, Ek. fold looseHeap in Hp.
  rewrite E3 in En, Hp.
  destruct (createTriangle_shape 400 180 70 (Mesh.new noConfig) Heap.empty)
    as (l1 & l2 & l3 & k1 & k2 & k3 & _ & Tl & Tk & [A1 B1] & [A2 B2] & [A3 B3]
        & (Ka1 & _ & Kc1) & (Ka2 & _ & Kc2) & (Ka3 & _ & Kc3)).
  fold triangleWorld in Tl, Tk. fold triangle in Tl, Tk.
  change (Mesh.links (Mesh.new noConfig) ++ [l1; l2; l3]) with [l1; l2; l3] in Tl.
  change (Mesh.angleConstraints (Mesh.new noConfig) ++ [k1; k2; k3])
    with [k1; k2; k3] in Tk.
  change (Heap.next Heap.empty) with 0%nat in *.
  rewrite Tl in El. rewrite Tk in Ek.
  split; [exact Hw|]. split; [|split; [|split; [exact Hp|]]].
  - rewrite En. apply in_or_app. right. now left.
  - split.
    + rewrite El. intros l [<-|[<-|[<-|[]]]];
        rewrite ?A1, ?B1, ?A2, ?B2, ?A3, ?B3; split; discriminate.
    + rewrite Ek. intros k [<-|[<-|[<-|[]]]];
        rewrite ?Ka1, ?Kc1, ?Ka2, ?Kc2, ?Ka3, ?Kc3; split; discriminate.
  - rewrite El, Ek. split; reflexivity.
Qed.

Lemma step_unattached_witness :
  NoDup (Mesh.nodes looseMesh) /\ In 3%nat (Mesh.nodes looseMesh)
  /\ unattached looseMesh 3%nat
  /\ Node.pinned (Heap.get looseHeap 3%nat) = false
  /\ length (Mesh.links looseMesh) = 3%nat
  /\ length (Mesh.angleConstraints looseMesh) = 3%nat
  /\ exists h',
       Mesh.step (/ 60) looseMesh looseHeap = Some h'
       /\ freeFlight looseMesh (/ 60) (Heap.get looseHeap 3%nat) = Some (Heap.get h' 3%nat).
Proof.
  destruct looseMesh_facts as ((Hnd & _ & Hm & _) & Hi & Hu & Hp & Hl & Hk).
  split; [exact Hnd|]. split; [exact Hi|]. split; [exact Hu|]. split; [exact Hp|].
  split; [exact Hl|]. split; [exact Hk|].
  destruct (step_defined (/ 60) looseMesh looseHeap Hm) as [h' E].
  exists h'. split; [exact E|].
  exact (step_unattached (/ 60) looseMesh looseHeap h' 3%nat Hnd Hi Hu E).
Defined.
